(** * Indexed skip list (slice/skip/skip.go): a shallow embedding

    The Go code manipulates heap-allocated tower nodes through pointers.
    The embedding keeps that shape: a heap is an arena of nodes, a pointer
    is an optional arena index ([None] is Go's [nil]), the list handle is a
    record that is passed and returned, and every operation returns in a
    three-valued result type that separates a normal return from a
    run-time panic (nil dereference, index out of range) and from a loop
    that exhausts its fuel. *)

From Stdlib Require Import ZArith Lia.
From stdpp Require Import base tactics option list sorting.

Local Open Scope Z_scope.

(** ** Results of partial computations *)

Inductive res (A : Type) : Type :=
  | Ret (a : A)
  | Panic
  | Timeout.
Arguments Ret {A} a.
Arguments Panic {A}.
Arguments Timeout {A}.

Global Instance res_bind : MBind res := λ A B f m,
  match m with
  | Ret a => f a
  | Panic => Panic
  | Timeout => Timeout
  end.

(** [for i := a; i < a + n; i++ { body }] *)
Fixpoint for_up {St : Type} (n : nat) (i : nat) (body : nat → St → res St)
  (s : St) : res St :=
  match n with
  | O => Ret s
  | S n' => s' ← body i s; for_up n' (S i) body s'
  end.

(** [for cond { body }], with fuel standing for the number of times the
    condition may be evaluated. *)
Fixpoint while {St : Type} (fuel : nat) (cond : St → res bool)
  (body : St → res St) (s : St) : res St :=
  match fuel with
  | O => Timeout
  | S f =>
      b ← cond s;
      if b : bool then s' ← body s; while f cond body s' else Ret s
  end.

(** ** Machine integers *)

Definition wrap64 (z : Z) : Z := z mod 2 ^ 64.
Definition wrap8 (n : nat) : nat := (n mod 256)%nat.

(** ** Entries *)

(** Go's [Entry] interface: one method, a three-way comparison. *)
Class Comparable (E : Type) := Compare : E → E → Z.

(** The laws a caller's comparison is expected to obey for the by-key
    operations to make sense (a strict total order up to key equality). *)
Class CompareLaws (E : Type) `{Comparable E} : Prop := {
  cmp_trans : ∀ a b c : E, Compare a b < 0 → Compare b c < 0 → Compare a c < 0;
  cmp_gt_lt : ∀ a b : E, 0 < Compare a b → Compare b a < 0;
  cmp_lt_eq : ∀ a b c : E, Compare a b < 0 → Compare b c = 0 → Compare a c < 0;
  cmp_eq_lt : ∀ a b c : E, Compare a b = 0 → Compare a c < 0 → Compare b c < 0;
}.

(** ** Data model *)

(** [*node]: an address in the arena, or [None] for [nil]. *)
Abbreviation ptr := (option nat).

Section SkipList.
Context {Entry : Type} {cmp : Comparable Entry}.

(** Modelled from the spec: the [node] struct, [newNode] and the node's
    [Compare] method live in a file of the package that is not part of the
    sources at hand.  A tower node carries its entry (absent for the head
    sentinel) and, per level, a forward link and a width; [newNode]
    allocates both slices with the requested number of levels, zeroed; a
    node compares by its entry. *)
Record node : Type := Node {
  entry : option Entry;
  forward : list ptr;
  widths : list Z;
}.

Definition newNode (e : option Entry) (maxLevels : nat) : node :=
  Node e (replicate maxLevels None) (replicate maxLevels 0).

(** The arena of allocated nodes. *)
Abbreviation heap := (list node).

Record SkipList : Type := MkSkipList {
  maxLevel : nat;
  level : nat;
  head : ptr;
  num : Z;
  cache : list ptr;
  posCache : list Z;
}.

(** ** Memory access *)

Definition idx {A : Type} (l : list A) (i : nat) : res A :=
  match l !! i with
  | Some x => Ret x
  | None => Panic
  end.

Definition upd {A : Type} (l : list A) (i : nat) (x : A) : res (list A) :=
  if decide (i < length l)%nat then Ret (<[i:=x]> l) else Panic.

Definition load (h : heap) (p : ptr) : res node :=
  match p with
  | None => Panic
  | Some a => idx h a
  end.

Definition store (h : heap) (p : ptr) (nd : node) : res heap :=
  match p with
  | None => Panic
  | Some a => upd h a nd
  end.

Definition alloc (h : heap) (nd : node) : heap * ptr :=
  (h ++ [nd], Some (length h)).

(** [n.forward[i]] *)
Definition get_forward (h : heap) (n : ptr) (i : nat) : res ptr :=
  nd ← load h n; idx (forward nd) i.

(** [n.widths[i]] *)
Definition get_width (h : heap) (n : ptr) (i : nat) : res Z :=
  nd ← load h n; idx (widths nd) i.

(** [n.entry] *)
Definition get_entry (h : heap) (n : ptr) : res (option Entry) :=
  nd ← load h n; Ret (entry nd).

(** [n.forward[i] = v] *)
Definition set_forward (h : heap) (n : ptr) (i : nat) (v : ptr) : res heap :=
  nd ← load h n;
  f ← upd (forward nd) i v;
  store h n (Node (entry nd) f (widths nd)).

(** [n.widths[i] = w] *)
Definition set_width (h : heap) (n : ptr) (i : nat) (w : Z) : res heap :=
  nd ← load h n;
  ws ← upd (widths nd) i w;
  store h n (Node (entry nd) (forward nd) ws).

(** [n.entry = e] *)
Definition set_entry (h : heap) (n : ptr) (e : option Entry) : res heap :=
  nd ← load h n;
  store h n (Node e (forward nd) (widths nd)).

(** [n.Compare(e)]: the node's entry compared with [e]; calling the method
    on a nil node or on a node without an entry panics. *)
Definition node_compare (h : heap) (n : ptr) (e : Entry) : res Z :=
  nd ← load h n;
  match entry nd with
  | Some x => Ret (Compare x e)
  | None => Panic
  end.

(** ** Level generator

    [coins k] tells whether the [k]-th draw of the shared generator in this
    call came out [>= p]. *)
Fixpoint generateLevel_loop (fuel : nat) (lvl bound : nat) (coins : nat → bool)
  (k : nat) : nat :=
  match fuel with
  | O => lvl
  | S f =>
      if (lvl <? bound)%nat then
        if coins k then lvl
        else generateLevel_loop f (wrap8 (lvl + 1)) bound coins (S k)
      else lvl
  end.

Definition generateLevel (maxLevel : nat) (coins : nat → bool) : nat :=
  generateLevel_loop 256 1 (wrap8 (maxLevel + 255)) coins 0.

(** ** Construction *)

(** The dynamic type of the argument of [New]. *)
Inductive ifc : Type :=
  | Uint8 | Uint16 | Uint32 | Uint64 | Uint | OtherType.

Definition init (h : heap) (sl : SkipList) (t : ifc) : heap * SkipList :=
  let ml :=
    match t with
    | Uint8 => 8%nat
    | Uint16 => 16%nat
    | Uint32 => 32%nat
    | Uint64 | Uint => 64%nat
    | OtherType => maxLevel sl
    end in
  let '(h', hd) := alloc h (newNode None ml) in
  (h', MkSkipList ml (level sl) hd (num sl)
         (replicate ml None) (replicate ml 0)).

Definition zeroSkipList : SkipList := MkSkipList 0 0 None 0 [] [].

Definition New (h : heap) (t : ifc) : heap * SkipList :=
  init h zeroSkipList t.

(** ** Dual search engine *)

(** The pair of scratch slices handed to a search: [None] when the caller
    passes [nil, nil]. *)
Abbreviation trail := (option (list ptr * list Z)).

(** [if update != nil { update[offset] = n; widths[offset] = pos }] *)
Definition record_trail (t : trail) (offset : nat) (n : ptr) (pos : Z)
  : res trail :=
  match t with
  | None => Ret None
  | Some (u, ws) =>
      u' ← upd u offset n;
      ws' ← upd ws offset pos;
      Ret (Some (u', ws'))
  end.

Definition search_cond (h : heap) (e : Entry) (offset : nat)
  (s : ptr * Z) : res bool :=
  f ← get_forward h s.1 offset;
  match f with
  | None => Ret false
  | Some _ => c ← node_compare h f e; Ret (c <? 0)
  end.

Definition search_step (h : heap) (offset : nat) (s : ptr * Z)
  : res (ptr * Z) :=
  w ← get_width h s.1 offset;
  f ← get_forward h s.1 offset;
  Ret (f, wrap64 (s.2 + w)).

Definition search_level (h : heap) (sl : SkipList) (e : Entry) (i : nat)
  (s : ptr * Z * trail) : res (ptr * Z * trail) :=
  let offset := (level sl - i)%nat in
  '(n, pos) ← while (S (length h)) (search_cond h e offset)
                (search_step h offset) s.1;
  t ← record_trail s.2 offset n pos;
  Ret (n, pos, t).

Definition search (h : heap) (sl : SkipList) (e : Entry) (update : trail)
  : res (ptr * Z * trail) :=
  if num sl =? 0 then Ret (None, 1, update)
  else
    '(n, pos, t) ← for_up (S (level sl)) 0 (search_level h sl e)
                     (head sl, 0, update);
    f ← get_forward h n 0;
    Ret (f, wrap64 (pos + 1), t).

Definition searchByPosition_cond (h : heap) (position : Z) (offset : nat)
  (s : ptr * Z) : res bool :=
  w ← get_width h s.1 offset;
  Ret (negb (w =? 0) && (wrap64 (s.2 + w) <=? position)).

Definition searchByPosition_level (h : heap) (sl : SkipList) (position : Z)
  (i : nat) (s : ptr * Z * trail) : res (ptr * Z * trail) :=
  let offset := (level sl - i)%nat in
  '(n, pos) ← while (S (length h)) (searchByPosition_cond h position offset)
                (search_step h offset) s.1;
  t ← record_trail s.2 offset n pos;
  Ret (n, pos, t).

Definition searchByPosition (h : heap) (sl : SkipList) (position : Z)
  (update : trail) : res (ptr * Z * trail) :=
  if num sl =? 0 then Ret (None, 1, update)
  else if num sl <? position then Ret (None, 1, update)
  else
    '(n, pos, t) ← for_up (S (level sl)) 0 (searchByPosition_level h sl position)
                     (head sl, 0, update);
    Ret (n, wrap64 (pos + 1), t).

(** The searches of the mutating paths are handed [sl.cache] and
    [sl.posCache]; the slices alias the handle's, so what the search wrote
    is what the handle holds afterwards. *)
Definition with_trail (sl : SkipList) (t : trail) : SkipList :=
  match t with
  | Some (u, ws) =>
      MkSkipList (maxLevel sl) (level sl) (head sl) (num sl) u ws
  | None => sl
  end.

Definition own_trail (sl : SkipList) : trail := Some (cache sl, posCache sl).

(** ** Mutation engine *)

(** The splice of the new node [nn] at level [i]. *)
Definition splice_level (sl : SkipList) (nn : ptr) (pos : Z) (i : nat)
  (h : heap) : res heap :=
  ci ← idx (cache sl) i;
  f ← get_forward h ci i;
  h ← set_forward h nn i f;
  h ← set_forward h ci i nn;
  formerWidth ← get_width h ci i;
  h ← (if formerWidth =? 0 then set_width h nn i 0
       else pc ← idx (posCache sl) i;
            set_width h nn i (wrap64 (pc + formerWidth + 1 - pos)));
  f' ← get_forward h ci i;
  match f' with
  | None => Ret h
  | Some _ => pc ← idx (posCache sl) i; set_width h ci i (wrap64 (pos - pc))
  end.

(** The pointers of the levels above the new node jump over it. *)
Definition widen_level (sl : SkipList) (i : nat) (h : heap) : res heap :=
  ci ← idx (cache sl) i;
  f ← get_forward h ci i;
  match f with
  | None => Ret h
  | Some _ => w ← get_width h ci i; set_width h ci i (wrap64 (w + 1))
  end.

(** [insertNode]; its [cache] and [posCache] arguments are always the
    handle's own slices, read here through [sl]. *)
Definition insertNode (h : heap) (sl : SkipList) (n : ptr) (e : Entry)
  (pos : Z) (allowDuplicate : bool) (coins : nat → bool)
  : res (heap * SkipList * option Entry) :=
  isUpdate ← (if allowDuplicate then Ret false
              else match n with
                   | None => Ret false
                   | Some _ => c ← node_compare h n e; Ret (c =? 0)
                   end);
  if isUpdate : bool then
    oldEntry ← get_entry h n;
    h ← set_entry h n (Some e);
    Ret (h, sl, oldEntry)
  else
    let num' := wrap64 (num sl + 1) in
    let nodeLevel := generateLevel (maxLevel sl) coins in
    '(cache', level') ←
      (if (level sl <? nodeLevel)%nat then
         c ← for_up (nodeLevel - level sl) (level sl)
               (λ i c, upd c i (head sl)) (cache sl);
         Ret (c, nodeLevel)
       else Ret (cache sl, level sl));
    let sl := MkSkipList (maxLevel sl) level' (head sl) num' cache'
                (posCache sl) in
    let '(h, nn) := alloc h (newNode (Some e) nodeLevel) in
    h ← for_up nodeLevel 0 (splice_level sl nn pos) h;
    h ← for_up (level sl - nodeLevel) nodeLevel (widen_level sl) h;
    Ret (h, sl, None).

Definition insert (h : heap) (sl : SkipList) (e : Entry) (coins : nat → bool)
  : res (heap * SkipList * option Entry) :=
  '(n, pos, t) ← search h sl e (own_trail sl);
  insertNode h (with_trail sl t) n e pos false coins.

(** [Insert(entries...)]: each entry comes with the draws of its call of
    the level generator. *)
Fixpoint Insert (h : heap) (sl : SkipList) (entries : list (Entry * (nat → bool)))
  : res (heap * SkipList * list (option Entry)) :=
  match entries with
  | [] => Ret (h, sl, [])
  | (e, coins) :: rest =>
      '(h, sl, o) ← insert h sl e coins;
      '(h, sl, os) ← Insert h sl rest;
      Ret (h, sl, o :: os)
  end.

Definition insertAtPosition (h : heap) (sl : SkipList) (position : Z)
  (e : Entry) (coins : nat → bool) : res (heap * SkipList) :=
  let position := if num sl <? position then num sl else position in
  '(n, pos, t) ← searchByPosition h sl position (own_trail sl);
  '(h, sl, _) ← insertNode h (with_trail sl t) n e pos true coins;
  Ret (h, sl).

Definition InsertAtPosition (h : heap) (sl : SkipList) (position : Z)
  (e : Entry) (coins : nat → bool) : res (heap * SkipList) :=
  insertAtPosition h sl position e coins.

Definition replaceAtPosition (h : heap) (sl : SkipList) (position : Z)
  (e : Entry) : res heap :=
  '(n, _, _) ← searchByPosition h sl (wrap64 (position + 1)) None;
  match n with
  | None => Ret h
  | Some _ => set_entry h n (Some e)
  end.

Definition ReplaceAtPosition (h : heap) (sl : SkipList) (position : Z)
  (e : Entry) : res heap :=
  replaceAtPosition h sl position e.

(** One level of the unlinking loop of [delete]. *)
Definition unlink_level (sl : SkipList) (n : ptr) (i : nat) (h : heap)
  : res heap :=
  ci ← idx (cache sl) i;
  f ← get_forward h ci i;
  if decide (f ≠ n) then
    match f with
    | None => Ret h
    | Some _ => w ← get_width h ci i; set_width h ci i (wrap64 (w - 1))
    end
  else
    w ← get_width h ci i;
    nw ← get_width h n i;
    h ← set_width h ci i (wrap64 (w + wrap64 (nw - 1)));
    nf ← get_forward h n i;
    set_forward h ci i nf.

Definition shrink_cond (hd : ptr) (s : heap * nat) : res bool :=
  if (1 <? s.2)%nat then
    f ← get_forward s.1 hd (s.2 - 1);
    Ret (bool_decide (f = None))
  else Ret false.

Definition shrink_step (hd : ptr) (s : heap * nat) : res (heap * nat) :=
  h ← set_width s.1 hd s.2 0;
  Ret (h, (s.2 - 1)%nat).

Definition delete (h : heap) (sl : SkipList) (e : Entry)
  : res (heap * SkipList * option Entry) :=
  '(n, _, t) ← search h sl e (own_trail sl);
  let sl := with_trail sl t in
  miss ← match n with
         | None => Ret true
         | Some _ => c ← node_compare h n e; Ret (negb (c =? 0))
         end;
  if miss : bool then Ret (h, sl, None)
  else
    let num' := wrap64 (num sl - 1) in
    h ← for_up (S (level sl)) 0 (unlink_level sl n) h;
    '(h, lvl) ← while 257 (shrink_cond (head sl)) (shrink_step (head sl))
                  (h, level sl);
    oldEntry ← get_entry h n;
    Ret (h, MkSkipList (maxLevel sl) lvl (head sl) num' (cache sl)
              (posCache sl), oldEntry).

Fixpoint Delete (h : heap) (sl : SkipList) (entries : list Entry)
  : res (heap * SkipList * list (option Entry)) :=
  match entries with
  | [] => Ret (h, sl, [])
  | e :: rest =>
      '(h, sl, o) ← delete h sl e;
      '(h, sl, os) ← Delete h sl rest;
      Ret (h, sl, o :: os)
  end.

Definition Len (sl : SkipList) : Z := num sl.

(** ** Reads *)

Definition get1 (h : heap) (sl : SkipList) (e : Entry) : res (option Entry) :=
  '(n, _, _) ← search h sl e None;
  hit ← match n with
        | None => Ret false
        | Some _ => c ← node_compare h n e; Ret (c =? 0)
        end;
  if hit : bool then get_entry h n else Ret None.

Fixpoint Get (h : heap) (sl : SkipList) (entries : list Entry)
  : res (list (option Entry)) :=
  match entries with
  | [] => Ret []
  | e :: rest => r ← get1 h sl e; rs ← Get h sl rest; Ret (r :: rs)
  end.

Definition GetWithPosition (h : heap) (sl : SkipList) (e : Entry)
  : res (option Entry * Z) :=
  '(n, pos, _) ← search h sl e None;
  match n with
  | None => Ret (None, 0)
  | Some _ => x ← get_entry h n; Ret (x, wrap64 (pos - 1))
  end.

Definition ByPosition (h : heap) (sl : SkipList) (position : Z)
  : res (option Entry) :=
  '(n, _, _) ← searchByPosition h sl (wrap64 (position + 1)) None;
  match n with
  | None => Ret None
  | Some _ => get_entry h n
  end.

(** Modelled from the spec: the [iterator] struct and [nilIterator] live
    in a file of the package that is not part of the sources at hand.  An
    iterator holds the node it stands at and a flag telling that it has not
    been advanced yet; the distinguished empty iterator has no node. *)
Inductive iterator : Type :=
  | NilIterator
  | MkIterator (first : bool) (n : ptr).

Definition iter (h : heap) (sl : SkipList) (e : Entry) : res iterator :=
  '(n, _, _) ← search h sl e None;
  match n with
  | None => Ret NilIterator
  | Some _ => Ret (MkIterator true n)
  end.

Definition Iter (h : heap) (sl : SkipList) (e : Entry) : res iterator :=
  iter h sl e.

(** ** Split operator *)

Definition resetMaxLevel_cond (hd : ptr) (s : heap * nat) : res bool :=
  f ← get_forward s.1 hd (wrap8 (s.2 + 255));
  Ret (bool_decide (f = None) && (1 <? s.2)%nat).

Definition resetMaxLevel (h : heap) (sl : SkipList) : res SkipList :=
  if (level sl <? 1)%nat then
    Ret (MkSkipList (maxLevel sl) 1 (head sl) (num sl) (cache sl) (posCache sl))
  else
    '(_, lvl) ← while 257 (resetMaxLevel_cond (head sl))
                  (λ s, Ret (s.1, (s.2 - 1)%nat)) (h, level sl);
    Ret (MkSkipList (maxLevel sl) lvl (head sl) (num sl) (cache sl)
           (posCache sl)).

(** One level of the cutting loop of [splitAt]. *)
Definition cut_level (sl : SkipList) (rhead : ptr) (index : Z) (i : nat)
  (h : heap) : res heap :=
  ci ← idx (cache sl) i;
  f ← get_forward h ci i;
  h ← set_forward h rhead i f;
  w ← get_width h ci i;
  h ← (if negb (w =? 0) then
         pc ← idx (posCache sl) i;
         set_width h rhead i (wrap64 (w - wrap64 (index - pc)))
       else Ret h);
  h ← set_width h ci i 0;
  set_forward h ci i None.

Definition splitAt (h : heap) (sl : SkipList) (index : Z)
  : res (heap * SkipList * SkipList) :=
  let '(h, rhead) := alloc h (newNode None (maxLevel sl)) in
  let right := MkSkipList (maxLevel sl) (level sl) rhead 0
                 (replicate (maxLevel sl) None) (replicate (maxLevel sl) 0) in
  '(_, _, t) ← searchByPosition h sl index (own_trail sl);
  let sl := with_trail sl t in
  h ← for_up (S (level sl)) 0 (cut_level sl rhead index) h;
  let rnum := wrap64 (num sl - index) in
  let right := MkSkipList (maxLevel right) (level right) (head right) rnum
                 (cache right) (posCache right) in
  let sl := MkSkipList (maxLevel sl) (level sl) (head sl)
              (wrap64 (num sl - rnum)) (cache sl) (posCache sl) in
  sl ← resetMaxLevel h sl;
  right ← resetMaxLevel h right;
  Ret (h, sl, right).

(** [SplitAt]; the absent right handle is [None]. *)
Definition SplitAt (h : heap) (sl : SkipList) (index : Z)
  : res (heap * SkipList * option SkipList) :=
  let index := wrap64 (index + 1) in
  if num sl <=? index then Ret (h, sl, None)
  else
    '(h, l, r) ← splitAt h sl index;
    Ret (h, l, Some r).

(** ** Level-0 traversal

    The in-order sequence of a list, read off the heap by following
    [forward[0]] from the head. *)
Fixpoint chain (fuel : nat) (h : heap) (p : ptr) : list nat :=
  match fuel, p with
  | S f, Some a =>
      a :: match h !! a with
           | Some nd => chain f h (default None (forward nd !! 0%nat))
           | None => []
           end
  | _, _ => []
  end.

(** The node pointers after the head, in level-0 order. *)
Definition nodes_of (h : heap) (sl : SkipList) : list nat :=
  tail (chain (length h) h (head sl)).

Definition entry_at (h : heap) (a : nat) : option Entry :=
  nd ← h !! a; entry nd.

(** The stored entries in level-0 order. *)
Definition to_list (h : heap) (sl : SkipList) : list (option Entry) :=
  entry_at h <$> nodes_of h sl.

(** ** Specification vocabulary *)

(** Pointwise views of the heap: the forward link, the width and the
    height (number of levels) of the node stored at an address. *)
Definition fw (h : heap) (L : nat) (a : nat) : option ptr :=
  nd ← h !! a; forward nd !! L.

Definition wd (h : heap) (L : nat) (a : nat) : option Z :=
  nd ← h !! a; widths nd !! L.

Definition ht (h : heap) (a : nat) : nat :=
  match h !! a with
  | Some nd => length (forward nd)
  | None => O
  end.

(** Every node has as many widths as forward links. *)
Definition heap_ok (h : heap) : Prop :=
  ∀ a nd, h !! a = Some nd → length (widths nd) = length (forward nd).

(** The heap [h'] is [h] with one forward link, one width or one entry
    replaced. *)
Record heap_upd (h h' : heap)
    (F : nat → nat → option ptr) (W : nat → nat → option Z)
    (E : nat → option Entry) : Prop := {
  hu_length : length h' = length h;
  hu_ok : heap_ok h → heap_ok h';
  hu_ht : ∀ a, ht h' a = ht h a;
  hu_fw : ∀ L a, fw h' L a = F L a;
  hu_wd : ∀ L a, wd h' L a = W L a;
  hu_entry : ∀ a, entry_at h' a = E a;
}.

(** [link] relates the forward link [x] and width [w] found at level [L] in
    the node of rank [r] to the level-0 sequence [sq] (head first): the
    link points at the first later node that is tall enough and the width
    is the rank distance (I2).  A nil link says that no later node is tall
    enough; its width is constrained (to 0) only in [clean] states. *)
Definition link (clean : bool) (H : nat → nat) (sq : list nat) (L r : nat)
  (x : ptr) (w : Z) : Prop :=
  match x with
  | Some q =>
      ∃ r', sq !! r' = Some q ∧ (r < r')%nat ∧ (L < H q)%nat ∧
            (∀ j b, (r < j < r')%nat → sq !! j = Some b → (H b ≤ L)%nat) ∧
            w = Z.of_nat (r' - r)
  | None =>
      (∀ j b, (r < j)%nat → sq !! j = Some b → (H b ≤ L)%nat) ∧
      (clean = true → w = 0)
  end.

Definition LevelOK (clean : bool) (F : nat → option ptr) (W : nat → option Z)
  (H : nat → nat) (sq : list nat) (L : nat) : Prop :=
  ∀ r a, sq !! r = Some a → (L < H a)%nat →
    ∃ x w, F a = Some x ∧ W a = Some w ∧ link clean H sq L r x w.

(** The representation invariant of a list handle [sl] in heap [h], whose
    nodes after the head are, in level-0 order, at the addresses [ps]. *)
Record Inv (clean : bool) (h : heap) (sl : SkipList) (hd : nat) (ps : list nat)
  : Prop := {
  inv_head : head sl = Some hd;
  inv_heap : heap_ok h;
  inv_nodup : NoDup (hd :: ps);
  inv_hd_ht : ht h hd = maxLevel sl;
  inv_hd_entry : entry_at h hd = None;
  inv_ht : ∀ a, a ∈ ps → (1 ≤ ht h a ≤ level sl)%nat;
  inv_entry : ∀ a, a ∈ ps → is_Some (entry_at h a);
  inv_level : (level sl < maxLevel sl ≤ 255)%nat;
  inv_max : (2 ≤ maxLevel sl)%nat;
  inv_cache : length (cache sl) = maxLevel sl;
  inv_posCache : length (posCache sl) = maxLevel sl;
  inv_num : num sl = Z.of_nat (length ps);
  inv_small : Z.of_nat (length ps) < 2 ^ 64;
  inv_links : ∀ L, LevelOK clean (fw h L) (wd h L) (ht h) (hd :: ps) L;
  inv_stale : ∀ i, (level sl ≤ i < maxLevel sl)%nat → posCache sl !! i = Some 0;
  inv_empty : ps = [] → ∀ i, (i < level sl)%nat →
      cache sl !! i = Some (Some hd) ∧ posCache sl !! i = Some 0;
}.

(** What a search leaves in the scratch slices, for the levels below [K]:
    at each level the last node of rank at most [c] that is tall enough,
    and its rank. *)
Definition Frontier (H : nat → nat) (sq : list nat) (cch : list ptr)
  (pch : list Z) (c K : nat) : Prop :=
  ∀ L, (L < K)%nat →
    ∃ cL a, (cL ≤ c)%nat ∧ sq !! cL = Some a ∧ (L < H a)%nat ∧
            cch !! L = Some (Some a) ∧ pch !! L = Some (Z.of_nat cL) ∧
            (∀ j b, (cL < j ≤ c)%nat → sq !! j = Some b → (H b ≤ L)%nat).

(** The advance test of the two searches, as a predicate on the rank of
    the node that would be stepped onto. *)
Definition adv_key (h : heap) (sq : list nat) (e : Entry) (j : nat) : bool :=
  match sq !! j ≫= entry_at h with
  | Some x => Compare x e <? 0
  | None => false
  end.

Definition adv_pos (position : Z) (j : nat) : bool :=
  Z.of_nat j <=? position.

(** What is known, while a search stands at rank [r], of a level [L] it
    has already left: the trail entry, the absence of tall nodes between
    it and [r], and the refusal of the next tall node. *)
Definition FrontB (h : heap) (sq : list nat) (adv : nat → bool)
  (cch : list ptr) (pch : list Z) (r L : nat) : Prop :=
  ∃ cL a, (cL ≤ r)%nat ∧ sq !! cL = Some a ∧ (L < ht h a)%nat ∧
    cch !! L = Some (Some a) ∧ pch !! L = Some (Z.of_nat cL) ∧
    (∀ j b, (cL < j ≤ r)%nat → sq !! j = Some b → (ht h b ≤ L)%nat) ∧
    (∀ q r', fw h L a = Some (Some q) → sq !! r' = Some q → adv r' = false).

(** The state of a heap [hc] in the middle of a level-by-level update of
    [h0]: the levels below [i] already represent the sequence [sq'], the
    levels from [i] on are still as in [h0]. *)
Definition LevelsDone (clean : bool) (h0 hc : heap) (sq' : list nat) (i : nat)
  : Prop :=
  length hc = length h0 ∧ heap_ok hc ∧
  (∀ a, ht hc a = ht h0 a) ∧ (∀ a, entry_at hc a = entry_at h0 a) ∧
  (∀ L, (L < i)%nat → LevelOK clean (fw hc L) (wd hc L) (ht h0) sq' L) ∧
  (∀ L a, (i ≤ L)%nat → fw hc L a = fw h0 L a ∧ wd hc L a = wd h0 L a).

(** The verdict common to both searches once the descent is over at
    rank [r]. *)
Definition SearchPost (clean : bool) (h : heap) (sl : SkipList) (hd : nat)
  (ps : list nat) (adv : nat → bool) (r : nat) (t : trail) : Prop :=
  ∃ cch pch, t = Some (cch, pch) ∧
    Inv clean h (with_trail sl t) hd ps ∧ (r ≤ length ps)%nat ∧
    Frontier (ht h) (hd :: ps) cch pch r (S (level sl)) ∧
    (r = O ∨ adv r = true) ∧
    (∀ q, (hd :: ps) !! S r = Some q → adv (S r) = false).

(** I1: the entries at the addresses [ps] are in strictly ascending order. *)
Definition entries_at (h : heap) (ps : list nat) : list (option Entry) :=
  entry_at h <$> ps.

Definition lt_entry (x y : option Entry) : Prop :=
  match x, y with
  | Some a, Some b => Compare a b < 0
  | _, _ => False
  end.

Definition ascending (l : list (option Entry)) : Prop :=
  StronglySorted lt_entry l.

(** ** Sequences of public operations *)

(** One call of a mutating method of the public interface.  An inserted
    entry comes with the draws of the level generator for it. *)
Inductive op : Type :=
  | OpInsert (entries : list (Entry * (nat → bool)))
  | OpInsertAtPosition (position : Z) (e : Entry) (coins : nat → bool)
  | OpDelete (entries : list Entry).

Definition run_op (h : heap) (sl : SkipList) (o : op)
  : res (heap * SkipList) :=
  match o with
  | OpInsert entries => '(h, sl, _) ← Insert h sl entries; Ret (h, sl)
  | OpInsertAtPosition position e coins =>
      InsertAtPosition h sl position e coins
  | OpDelete entries => '(h, sl, _) ← Delete h sl entries; Ret (h, sl)
  end.

Fixpoint run (h : heap) (sl : SkipList) (ops : list op)
  : res (heap * SkipList) :=
  match ops with
  | [] => Ret (h, sl)
  | o :: rest => '(h, sl) ← run_op h sl o; run h sl rest
  end.

(** How many entries a sequence of calls hands to the inserting methods. *)
Definition op_inserts (o : op) : nat :=
  match o with
  | OpInsert entries => length entries
  | OpInsertAtPosition _ _ _ => 1%nat
  | OpDelete _ => O
  end.

Definition inserts (ops : list op) : nat :=
  foldr (λ o n, (op_inserts o + n)%nat) O ops.

(** A position argument is a [uint64]. *)
Definition op_wf (o : op) : Prop :=
  match o with
  | OpInsertAtPosition position _ _ => 0 ≤ position < 2 ^ 64
  | _ => True
  end.

Definition by_key (o : op) : Prop :=
  match o with
  | OpInsertAtPosition _ _ _ => False
  | _ => True
  end.

Definition no_delete (o : op) : Prop :=
  match o with
  | OpDelete _ => False
  | _ => True
  end.

(** [built t ops h sl]: the list [sl] in heap [h] is what the calls [ops]
    make of a list freshly constructed for the supported class [t]. *)
Definition built (t : ifc) (ops : list op) (h : heap) (sl : SkipList) : Prop :=
  t ≠ OtherType ∧ Forall op_wf ops ∧ Z.of_nat (inserts ops) + 1 < 2 ^ 64 ∧
  run (New [] t).1 (New [] t).2 ops = Ret (h, sl).

(** ** The invariants, read off the heap *)

(** The level-0 sequence with the head in front: rank [r] is at index [r]. *)
Definition rank_seq (h : heap) (sl : SkipList) : list nat :=
  chain (length h) h (head sl).

(** I2: a non-nil forward link at any level of any node leads to a node
    of higher rank and its width is the rank distance, that is the number
    of level-0 nodes strictly in between plus one. *)
Definition I2 (h : heap) (sl : SkipList) : Prop :=
  ∀ r a L q, rank_seq h sl !! r = Some a → fw h L a = Some (Some q) →
    ∃ r', rank_seq h sl !! r' = Some q ∧ (r < r')%nat ∧
          wd h L a = Some (Z.of_nat (r' - r)).

(** The widths accumulated along level [L] from node [p] to [target]. *)
Fixpoint acc_width (fuel : nat) (h : heap) (L : nat) (p target : nat) (acc : Z)
  : option Z :=
  if decide (p = target) then Some acc
  else match fuel with
       | O => None
       | S f =>
           match fw h L p, wd h L p with
           | Some (Some q), Some w => acc_width f h L q target (acc + w)
           | _, _ => None
           end
       end.

(** From the head, along any level a node takes part in, the widths add
    up to the node's rank. *)
Definition RankSum (h : heap) (sl : SkipList) : Prop :=
  ∀ hd r q L, head sl = Some hd → rank_seq h sl !! r = Some q →
    (L < ht h q)%nat → acc_width (length h) h L hd q 0 = Some (Z.of_nat r).

(** No stale width: a nil forward link of a node of the list has width 0. *)
Definition clean_widths (h : heap) (sl : SkipList) : Prop :=
  ∀ a L, a ∈ rank_seq h sl → fw h L a = Some None → wd h L a = Some 0.

(** Weakest preconditions over [res]: the computation returns a value that
    satisfies [Q]; a panic is tolerated when [total] is off; running out
    of fuel never is. *)
Definition wpx {A : Type} (total : bool) (m : res A) (Q : A → Prop) : Prop :=
  match m with
  | Ret a => Q a
  | Panic => total = false
  | Timeout => False
  end.

End SkipList.

Abbreviation heap := (list node).
Abbreviation trail := (option (list ptr * list Z)).

(** ** A concrete entry type

    Integer keys compared the usual way, for the examples. *)
Global Instance Z_Comparable : Comparable Z := λ a b,
  match a ?= b with
  | Lt => -1
  | Eq => 0
  | Gt => 1
  end.

(** Draws that make the level generator return [n]. *)
Definition draws (n : nat) : nat → bool := λ k, (n - 1 <=? k)%nat.

(** A fresh list with [maxLevel = 8]. *)
Definition h0 : list (node (Entry:=Z)) := (New [] Uint8).1.
Definition sl0 : SkipList := (New (Entry:=Z) [] Uint8).2.

(** 1 inserted with height 1, 2 inserted with height 2, 2 deleted. *)
Definition stale_ops : list (op (Entry:=Z)) :=
  [OpInsert [(1, draws 1); (2, draws 2)]; OpDelete [2]].

(** 5 put at rank 0, then 1 put at rank 1: the list 5, 1 is out of key
    order. *)
Definition unsorted_ops : list (op (Entry:=Z)) :=
  [OpInsertAtPosition 0 5 (draws 1); OpInsertAtPosition 1 1 (draws 1)].

(** 1, 3, 4, 5 inserted by key with assorted heights. *)
Definition sorted_ops : list (op (Entry:=Z)) :=
  [OpInsert [(3, draws 1); (1, draws 2); (4, draws 1); (5, draws 3)]].

Definition single_ops : list (op (Entry:=Z)) := [OpInsert [(7, draws 1)]].

(** The state a sequence of calls leaves, when they all return. *)
Definition state_after (ops : list (op (Entry:=Z)))
  : list (node (Entry:=Z)) * SkipList :=
  match run h0 sl0 ops with
  | Ret s => s
  | _ => (h0, sl0)
  end.

(** The list holding 1, 3, 4, 5 and its heap. *)
Definition sorted_heap : list (node (Entry:=Z)) := (state_after sorted_ops).1.
Definition sorted_list : SkipList := (state_after sorted_ops).2.

(** * Program logic over [res] *)

Section Logic.
Context {A B : Type}.
Implicit Types (m : res A) (Q : A → Prop).

Lemma wpx_ret b (a : A) Q : Q a → wpx b (Ret a) Q.
Proof. done. Qed.

Lemma wpx_bind b m (f : A → res B) (Q : B → Prop) :
  wpx b m (λ a, wpx b (f a) Q) → wpx b (m ≫= f) Q.
Proof. by destruct m. Qed.

Lemma wpx_mono b m Q Q' : wpx b m Q → (∀ a, Q a → Q' a) → wpx b m Q'.
Proof. destruct m; simpl; auto. Qed.

Lemma wpx_total b m Q : wpx true m Q → wpx b m Q.
Proof. by destruct m. Qed.

Lemma wpx_elim b m Q a : wpx b m Q → m = Ret a → Q a.
Proof. by intros Hw ->. Qed.

Lemma wpx_returns m Q : wpx true m Q → ∃ a, m = Ret a ∧ Q a.
Proof. destruct m; simpl; eauto; done. Qed.

Lemma wpx_of_eq b m a Q : m = Ret a → Q a → wpx b m Q.
Proof. by intros ->. Qed.

End Logic.

Section Loops.
Context {St : Type}.

(** A counted loop maintains an invariant indexed by the counter. *)
Lemma wpx_for_up b (I : nat → St → Prop) n i (body : nat → St → res St) s :
  I i s →
  (∀ j s, (i ≤ j < i + n)%nat → I j s → wpx b (body j s) (I (S j))) →
  wpx b (for_up n i body s) (I (i + n)%nat).
Proof.
  revert i s. induction n as [|n IH]; intros i s Hi Hbody; simpl.
  - by rewrite Nat.add_0_r.
  - apply wpx_bind. eapply wpx_mono; [apply Hbody; [lia|done]|].
    intros s' Hs'. replace (i + S n)%nat with (S i + n)%nat by lia.
    apply IH; [done|]. intros j s'' Hj. apply Hbody. lia.
Qed.

(** A conditional loop with an invariant and a variant that fits in the
    fuel. *)
Lemma wpx_while b (I : St → Prop) (μ : St → nat) (Q : St → Prop) fuel
    (cond : St → res bool) (body : St → res St) s :
  I s → (μ s < fuel)%nat →
  (∀ s, I s →
     wpx b (cond s) (λ c,
       if c then wpx b (body s) (λ s', I s' ∧ (μ s' < μ s)%nat) else Q s)) →
  wpx b (while fuel cond body s) Q.
Proof.
  intros Hi Hfuel Hstep. revert s Hi Hfuel.
  induction fuel as [|fuel IH]; intros s Hi Hfuel; [lia|]. simpl.
  apply wpx_bind. eapply wpx_mono; [by apply Hstep|].
  intros [] Hc; [|done]. apply wpx_bind. eapply wpx_mono; [exact Hc|].
  intros s' [Hi' Hlt]. apply IH; [done|lia].
Qed.

End Loops.

(** * Pointwise reasoning on the heap *)

Section Heap.
Context {Entry : Type} {cmp : Comparable Entry}.
Implicit Types (h : list (node (Entry:=Entry))) (a : nat) (L : nat).

Lemma wpx_idx {T : Type} b (l : list T) i x (Q : T → Prop) :
  l !! i = Some x → Q x → wpx b (idx l i) Q.
Proof. unfold idx. by intros ->. Qed.

Lemma fw_Some h L a x :
  fw h L a = Some x ↔ ∃ nd, h !! a = Some nd ∧ forward nd !! L = Some x.
Proof.
  unfold fw. destruct (h !! a) as [nd|]; simpl.
  - split; [eauto|]. by intros (? & [= <-] & ?).
  - split; [done|]. by intros (? & ? & ?).
Qed.

Lemma wd_Some h L a w :
  wd h L a = Some w ↔ ∃ nd, h !! a = Some nd ∧ widths nd !! L = Some w.
Proof.
  unfold wd. destruct (h !! a) as [nd|]; simpl.
  - split; [eauto|]. by intros (? & [= <-] & ?).
  - split; [done|]. by intros (? & ? & ?).
Qed.

Lemma fw_is_Some h L a : is_Some (fw h L a) ↔ (L < ht h a)%nat.
Proof.
  unfold fw, ht. destruct (h !! a) as [nd|]; simpl.
  - apply lookup_lt_is_Some.
  - split; [by intros [? ?]|lia].
Qed.

Lemma wd_is_Some h L a : heap_ok h → is_Some (wd h L a) ↔ (L < ht h a)%nat.
Proof.
  intros Hok. unfold wd, ht. destruct (h !! a) as [nd|] eqn:E; simpl.
  - rewrite lookup_lt_is_Some. by rewrite (Hok _ _ E).
  - split; [by intros [? ?]|lia].
Qed.

Lemma ht_lt_length h a : (0 < ht h a)%nat → (a < length h)%nat.
Proof.
  unfold ht. destruct (h !! a) eqn:E; [|lia].
  intros _. by eapply lookup_lt_Some.
Qed.

Lemma entry_at_Some h a x :
  entry_at h a = Some x ↔ ∃ nd, h !! a = Some nd ∧ entry nd = Some x.
Proof.
  unfold entry_at. destruct (h !! a) as [nd|]; simpl.
  - split; [eauto|]. by intros (? & [= <-] & ?).
  - split; [done|]. by intros (? & ? & ?).
Qed.

Lemma wpx_get_forward b h L a x (Q : ptr → Prop) :
  fw h L a = Some x → Q x → wpx b (get_forward h (Some a) L) Q.
Proof.
  intros (nd & Hnd & Hx)%fw_Some HQ. unfold get_forward, load, idx.
  rewrite Hnd. simpl. by rewrite Hx.
Qed.

Lemma wpx_get_width b h L a w (Q : Z → Prop) :
  wd h L a = Some w → Q w → wpx b (get_width h (Some a) L) Q.
Proof.
  intros (nd & Hnd & Hx)%wd_Some HQ. unfold get_width, load, idx.
  rewrite Hnd. simpl. by rewrite Hx.
Qed.

Lemma wpx_get_entry b h a (Q : option Entry → Prop) :
  (a < length h)%nat → Q (entry_at h a) → wpx b (get_entry h (Some a)) Q.
Proof.
  intros [nd Hnd]%lookup_lt_is_Some HQ. unfold get_entry, load, idx.
  unfold entry_at in HQ. rewrite Hnd in HQ |- *. done.
Qed.

Lemma wpx_node_compare b h a x e (Q : Z → Prop) :
  entry_at h a = Some x → Q (Compare x e) →
  wpx b (node_compare h (Some a) e) Q.
Proof.
  intros (nd & Hnd & Hx)%entry_at_Some HQ. unfold node_compare, load, idx.
  rewrite Hnd. simpl. by rewrite Hx.
Qed.

Lemma wpx_set_forward b h L a v (Q : heap → Prop) :
  (L < ht h a)%nat →
  (∀ h', heap_upd h h'
           (λ L' a', if decide (a' = a ∧ L' = L) then Some v else fw h L' a')
           (wd h) (entry_at h) → Q h') →
  wpx b (set_forward h (Some a) L v) Q.
Proof.
  intros Hlt HQ. unfold ht in Hlt. destruct (h !! a) as [nd|] eqn:Hnd; [|lia].
  unfold set_forward, load, idx, upd, store, upd. rewrite Hnd. simpl.
  rewrite decide_True by done. simpl.
  rewrite decide_True by (by eapply lookup_lt_Some). simpl.
  apply HQ. split.
  - by rewrite length_insert.
  - intros Hok a' nd'. destruct (decide (a' = a)) as [->|Hne].
    + rewrite list_lookup_insert_eq by (by eapply lookup_lt_Some).
      intros [= <-]. simpl. rewrite length_insert. by eapply Hok.
    + rewrite list_lookup_insert_ne by done. apply Hok.
  - intros a'. unfold ht. destruct (decide (a' = a)) as [->|Hne].
    + rewrite list_lookup_insert_eq by (by eapply lookup_lt_Some).
      rewrite Hnd. simpl. by rewrite length_insert.
    + by rewrite list_lookup_insert_ne.
  - intros L' a'. unfold fw. destruct (decide (a' = a)) as [->|Hne].
    + rewrite list_lookup_insert_eq by (by eapply lookup_lt_Some).
      rewrite Hnd. simpl. destruct (decide (L' = L)) as [->|HL].
      * rewrite decide_True by done. by rewrite list_lookup_insert_eq.
      * rewrite decide_False by (intros [? ?]; done). by rewrite list_lookup_insert_ne.
    + rewrite decide_False by (intros [? ?]; done). by rewrite list_lookup_insert_ne.
  - intros L' a'. unfold wd. destruct (decide (a' = a)) as [->|Hne].
    + rewrite list_lookup_insert_eq by (by eapply lookup_lt_Some).
      by rewrite Hnd.
    + by rewrite list_lookup_insert_ne.
  - intros a'. unfold entry_at. destruct (decide (a' = a)) as [->|Hne].
    + rewrite list_lookup_insert_eq by (by eapply lookup_lt_Some).
      by rewrite Hnd.
    + by rewrite list_lookup_insert_ne.
Qed.

Lemma wpx_set_width b h L a v (Q : heap → Prop) :
  heap_ok h → (L < ht h a)%nat →
  (∀ h', heap_upd h h' (fw h)
           (λ L' a', if decide (a' = a ∧ L' = L) then Some v else wd h L' a')
           (entry_at h) → Q h') →
  wpx b (set_width h (Some a) L v) Q.
Proof.
  intros Hok0 Hlt HQ. unfold ht in Hlt.
  destruct (h !! a) as [nd|] eqn:Hnd; [|lia].
  unfold set_width, load, idx, upd, store, upd. rewrite Hnd. simpl.
  rewrite decide_True by (by rewrite (Hok0 _ _ Hnd)). simpl.
  rewrite decide_True by (by eapply lookup_lt_Some). simpl.
  apply HQ. split.
  - by rewrite length_insert.
  - intros Hok a' nd'. destruct (decide (a' = a)) as [->|Hne].
    + rewrite list_lookup_insert_eq by (by eapply lookup_lt_Some).
      intros [= <-]. simpl. rewrite length_insert. by eapply Hok.
    + rewrite list_lookup_insert_ne by done. apply Hok.
  - intros a'. unfold ht. destruct (decide (a' = a)) as [->|Hne].
    + rewrite list_lookup_insert_eq by (by eapply lookup_lt_Some).
      by rewrite Hnd.
    + by rewrite list_lookup_insert_ne.
  - intros L' a'. unfold fw. destruct (decide (a' = a)) as [->|Hne].
    + rewrite list_lookup_insert_eq by (by eapply lookup_lt_Some).
      by rewrite Hnd.
    + by rewrite list_lookup_insert_ne.
  - intros L' a'. unfold wd. destruct (decide (a' = a)) as [->|Hne].
    + rewrite list_lookup_insert_eq by (by eapply lookup_lt_Some).
      rewrite Hnd. simpl. destruct (decide (L' = L)) as [->|HL].
      * rewrite decide_True by done. rewrite list_lookup_insert_eq; [done|].
        by rewrite (Hok0 _ _ Hnd).
      * rewrite decide_False by (intros [? ?]; done). by rewrite list_lookup_insert_ne.
    + rewrite decide_False by (intros [? ?]; done). by rewrite list_lookup_insert_ne.
  - intros a'. unfold entry_at. destruct (decide (a' = a)) as [->|Hne].
    + rewrite list_lookup_insert_eq by (by eapply lookup_lt_Some).
      by rewrite Hnd.
    + by rewrite list_lookup_insert_ne.
Qed.

Lemma wpx_set_entry b h a e (Q : heap → Prop) :
  (a < length h)%nat →
  (∀ h', heap_upd h h' (fw h) (wd h)
           (λ a', if decide (a' = a) then e else entry_at h a') → Q h') →
  wpx b (set_entry h (Some a) e) Q.
Proof.
  intros Hlt HQ. destruct (lookup_lt_is_Some_2 _ _ Hlt) as [nd Hnd].
  unfold set_entry, load, idx, store, upd. rewrite Hnd. simpl.
  rewrite decide_True by done. simpl.
  apply HQ. split.
  - by rewrite length_insert.
  - intros Hok a' nd'. destruct (decide (a' = a)) as [->|Hne].
    + rewrite list_lookup_insert_eq by done.
      intros [= <-]. simpl. by eapply Hok.
    + rewrite list_lookup_insert_ne by done. apply Hok.
  - intros a'. unfold ht. destruct (decide (a' = a)) as [->|Hne].
    + rewrite list_lookup_insert_eq by done. by rewrite Hnd.
    + by rewrite list_lookup_insert_ne.
  - intros L' a'. unfold fw. destruct (decide (a' = a)) as [->|Hne].
    + rewrite list_lookup_insert_eq by done. by rewrite Hnd.
    + by rewrite list_lookup_insert_ne.
  - intros L' a'. unfold wd. destruct (decide (a' = a)) as [->|Hne].
    + rewrite list_lookup_insert_eq by done. by rewrite Hnd.
    + by rewrite list_lookup_insert_ne.
  - intros a'. unfold entry_at. destruct (decide (a' = a)) as [->|Hne].
    + by rewrite list_lookup_insert_eq.
    + by rewrite list_lookup_insert_ne.
Qed.

(** Allocation appends a node and leaves every older address alone. *)
Lemma alloc_spec h e n :
  heap_ok h →
  let h' := (alloc h (newNode e n)).1 in
  let nn := length h in
  (alloc h (newNode e n)).2 = Some nn ∧
  length h' = S (length h) ∧ heap_ok h' ∧
  ht h' nn = n ∧ entry_at h' nn = e ∧
  (∀ L, (L < n)%nat → fw h' L nn = Some None ∧ wd h' L nn = Some 0) ∧
  (∀ a, a ≠ nn → ht h' a = ht h a ∧ entry_at h' a = entry_at h a ∧
                 ∀ L, fw h' L a = fw h L a ∧ wd h' L a = wd h L a).
Proof.
  intros Hok. simpl. split; [done|]. split; [rewrite length_app; simpl; lia|].
  assert (Hnn : (h ++ [newNode e n]) !! length h = Some (newNode e n)).
  { by rewrite lookup_app_r, Nat.sub_diag by lia. }
  assert (Hold : ∀ a, a ≠ length h → (h ++ [newNode e n]) !! a = h !! a).
  { intros a Ha. destruct (decide (a < length h)%nat).
    - by rewrite lookup_app_l.
    - rewrite !lookup_ge_None_2; [done|lia|rewrite length_app; simpl; lia]. }
  split; [|split; [|split; [|split]]].
  - intros a nd. destruct (decide (a = length h)) as [->|Hne].
    + rewrite Hnn. intros [= <-]. simpl. by rewrite !length_replicate.
    + rewrite Hold by done. apply Hok.
  - unfold ht. rewrite Hnn. simpl. by rewrite length_replicate.
  - unfold entry_at. by rewrite Hnn.
  - intros L HL. unfold fw, wd. rewrite Hnn. simpl.
    by rewrite !lookup_replicate_2.
  - intros a Ha. unfold ht, entry_at, fw, wd. by rewrite Hold.
Qed.

End Heap.

(** * Rank arithmetic on the level-0 sequence *)

Lemma wrap64_small z : 0 ≤ z < 2 ^ 64 → wrap64 z = z.
Proof. intros. unfold wrap64. by apply Z.mod_small. Qed.

Section Lists.
Context {A : Type}.
Implicit Types (l : list A).

Lemma lookup_ins l c x j :
  (c < length l)%nat →
  (take (S c) l ++ x :: drop (S c) l) !! j =
    if decide (j ≤ c)%nat then l !! j
    else if decide (j = S c) then Some x else l !! (j - 1)%nat.
Proof.
  intros Hc. assert (Hlen : length (take (S c) l) = S c).
  { rewrite length_take. lia. }
  repeat case_decide.
  - rewrite lookup_app_l by lia. apply lookup_take_lt. lia.
  - subst. rewrite lookup_app_r by lia. by rewrite Hlen, Nat.sub_diag.
  - rewrite lookup_app_r by lia. rewrite Hlen.
    replace (j - S c)%nat with (S (j - S c - 1)) by lia. simpl.
    rewrite lookup_drop. f_equal. lia.
Qed.

Lemma lookup_del l c j :
  (c < length l)%nat →
  (take (S c) l ++ drop (S (S c)) l) !! j =
    if decide (j ≤ c)%nat then l !! j else l !! (S j).
Proof.
  intros Hc. assert (Hlen : length (take (S c) l) = S c).
  { rewrite length_take. lia. }
  case_decide.
  - rewrite lookup_app_l by lia. apply lookup_take_lt. lia.
  - rewrite lookup_app_r by lia. rewrite Hlen, lookup_drop. f_equal. lia.
Qed.

Lemma lookup_take_dec l k j :
  take (S k) l !! j = if decide (j ≤ k)%nat then l !! j else None.
Proof.
  case_decide.
  - apply lookup_take_lt. lia.
  - apply lookup_take_ge. lia.
Qed.

Lemma lookup_cons_drop l k x j :
  (x :: drop (S k) l) !! j =
    match j with O => Some x | S j' => l !! (S k + j')%nat end.
Proof. destruct j; simpl; [done|]. by rewrite lookup_drop. Qed.

End Lists.

Section Levels.
Context (clean : bool) (H : nat → nat) (L : nat).
Implicit Types (F : nat → option ptr) (W : nat → option Z) (sq : list nat).

Lemma LevelOK_ext F W F' W' sq :
  (∀ a, a ∈ sq → F' a = F a ∧ W' a = W a) →
  LevelOK clean F W H sq L → LevelOK clean F' W' H sq L.
Proof.
  intros Hext Hok r a Hr Ha. destruct (Hok r a Hr Ha) as (x & w & HF & HW & Hl).
  destruct (Hext a) as [-> ->]; [by eapply list_elem_of_lookup_2|]. eauto.
Qed.

(** The node found by a search at level [L] is the last tall node up to
    the insertion point, so its link reaches beyond that point. *)
Lemma link_after_frontier sq cL c a q r' w :
  NoDup sq → sq !! cL = Some a →
  (∀ j b, (cL < j ≤ c)%nat → sq !! j = Some b → (H b ≤ L)%nat) →
  link clean H sq L cL (Some q) w → sq !! r' = Some q → (c < r')%nat.
Proof.
  intros Hnd Ha Hfr (r1 & Hr1 & Hlt & Hq & _ & _) Hr'.
  assert (r1 = r') as -> by (by eapply NoDup_lookup).
  destruct (decide (c < r')%nat); [done|].
  specialize (Hfr r' q ltac:(lia) Hr'). lia.
Qed.

Lemma LevelOK_splice F W F' W' sq c cL a nn x w :
  NoDup sq → nn ∉ sq → (c < length sq)%nat → Z.of_nat (length sq) < 2 ^ 64 →
  LevelOK clean F W H sq L →
  (cL ≤ c)%nat → sq !! cL = Some a → (L < H a)%nat → (L < H nn)%nat →
  (∀ j b, (cL < j ≤ c)%nat → sq !! j = Some b → (H b ≤ L)%nat) →
  F a = Some x → W a = Some w →
  F' nn = Some x → F' a = Some (Some nn) →
  (∀ b, b ≠ nn → b ≠ a → F' b = F b) →
  W' nn = Some (if w =? 0 then 0
                else wrap64 (Z.of_nat cL + w + 1 - Z.of_nat (S c))) →
  W' a = Some (wrap64 (Z.of_nat (S c) - Z.of_nat cL)) →
  (∀ b, b ≠ nn → b ≠ a → W' b = W b) →
  LevelOK clean F' W' H (take (S c) sq ++ nn :: drop (S c) sq) L.
Proof.
  intros Hnd Hnn Hc Hsmall Hok HcL Ha HHa HHnn Hfr HFa HWa
    HF'nn HF'a HF' HW'nn HW'a HW'.
  assert (Hnna : nn ≠ a).
  { intros ->. apply Hnn. by eapply list_elem_of_lookup_2. }
  destruct (Hok cL a Ha HHa) as (x0 & w0 & HFa0 & HWa0 & Hla).
  assert (x0 = x) as -> by congruence.
  assert (w0 = w) as -> by congruence. clear HFa0 HWa0.
  intros r b Hr Hb. rewrite lookup_ins in Hr by done.
  destruct (decide (r ≤ c)%nat) as [Hrc|Hrc].
  - (* before the insertion point *)
    assert (Hbnn : b ≠ nn).
    { intros ->. apply Hnn. by eapply list_elem_of_lookup_2. }
    destruct (decide (b = a)) as [->|Hba].
    + assert (r = cL) as -> by (by eapply NoDup_lookup).
      exists (Some nn), (wrap64 (Z.of_nat (S c) - Z.of_nat cL)).
      split; [done|]. split; [done|].
      exists (S c). split.
      { rewrite lookup_ins by done. rewrite decide_False by lia.
        by rewrite decide_True. }
      split; [lia|]. split; [done|]. split.
      * intros j b' Hj. rewrite lookup_ins by done.
        rewrite decide_True by lia. apply Hfr. lia.
      * rewrite wrap64_small; lia.
    + assert (r ≠ cL).
      { intros ->. rewrite Ha in Hr. by simplify_eq. }
      assert (r < cL)%nat.
      { destruct (decide (r < cL)%nat); [done|].
        specialize (Hfr r b ltac:(lia) Hr). lia. }
      destruct (Hok r b Hr Hb) as (x1 & w1 & HF1 & HW1 & Hl1).
      exists x1, w1. rewrite HF', HW' by done. split; [done|]. split; [done|].
      destruct x1 as [q|]; simpl in *.
      * destruct Hl1 as (r1 & Hr1 & Hlt & Hq & Hbetween & ->).
        assert (r1 ≤ cL)%nat.
        { destruct (decide (r1 ≤ cL)%nat); [done|].
          specialize (Hbetween cL a ltac:(lia) Ha). lia. }
        exists r1. rewrite lookup_ins by done. rewrite decide_True by lia.
        split; [done|]. split; [done|]. split; [done|]. split; [|done].
        intros j b' Hj. rewrite lookup_ins by done.
        rewrite decide_True by lia. by apply Hbetween.
      * destruct Hl1 as [Hnone _]. specialize (Hnone cL a ltac:(lia) Ha). lia.
  - destruct (decide (r = S c)) as [->|Hrsc].
    + (* the new node *)
      injection Hr as <-.
      exists x, (if w =? 0 then 0
                 else wrap64 (Z.of_nat cL + w + 1 - Z.of_nat (S c))).
      split; [done|]. split; [done|].
      destruct x as [q|]; simpl in *.
      * pose proof Hla as (r' & Hr' & Hlt & Hq & Hbetween & ->).
        assert (c < r')%nat
          by exact (link_after_frontier sq cL c a q r' _ Hnd Ha Hfr Hla Hr').
        assert (r' < length sq)%nat by (by eapply lookup_lt_Some).
        exists (S r'). rewrite lookup_ins by done.
        rewrite !decide_False by lia.
        replace (S r' - 1)%nat with r' by lia.
        split; [done|]. split; [lia|]. split; [done|]. split.
        -- intros j b' Hj. rewrite lookup_ins by done.
           rewrite !decide_False by lia. apply Hbetween. lia.
        -- destruct (Z.eqb_spec (Z.of_nat (r' - cL)) 0); [lia|].
           rewrite wrap64_small; lia.
      * destruct Hla as [Hnone Hcl]. split.
        -- intros j b' Hj. rewrite lookup_ins by done.
           rewrite !decide_False by lia. apply Hnone. lia.
        -- intros Hclean. by rewrite (Hcl Hclean).
    + (* after the insertion point *)
      assert (Hbnn : b ≠ nn).
      { intros ->. apply Hnn. by eapply list_elem_of_lookup_2. }
      assert (Hba : b ≠ a).
      { intros ->. assert (r - 1 = cL)%nat by (by eapply NoDup_lookup). lia. }
      destruct (Hok (r - 1)%nat b Hr Hb) as (x1 & w1 & HF1 & HW1 & Hl1).
      exists x1, w1. rewrite HF', HW' by done. split; [done|]. split; [done|].
      destruct x1 as [q|]; simpl in *.
      * destruct Hl1 as (r1 & Hr1 & Hlt & Hq & Hbetween & ->).
        exists (S r1). rewrite lookup_ins by done.
        rewrite !decide_False by lia.
        replace (S r1 - 1)%nat with r1 by lia.
        split; [done|]. split; [lia|]. split; [done|]. split.
        -- intros j b' Hj. rewrite lookup_ins by done.
           rewrite !decide_False by lia. apply Hbetween. lia.
        -- f_equal. lia.
      * destruct Hl1 as [Hnone Hcl]. split; [|done].
        intros j b' Hj. rewrite lookup_ins by done.
        rewrite !decide_False by lia. apply Hnone. lia.
Qed.

Lemma LevelOK_widen F W F' W' sq c cL a nn x w :
  NoDup sq → nn ∉ sq → (c < length sq)%nat → Z.of_nat (length sq) < 2 ^ 64 →
  LevelOK clean F W H sq L →
  (cL ≤ c)%nat → sq !! cL = Some a → (L < H a)%nat → (H nn ≤ L)%nat →
  (∀ j b, (cL < j ≤ c)%nat → sq !! j = Some b → (H b ≤ L)%nat) →
  F a = Some x → W a = Some w →
  (∀ b, b ≠ nn → F' b = F b) →
  W' a = Some (if x is Some _ then wrap64 (w + 1) else w) →
  (∀ b, b ≠ nn → b ≠ a → W' b = W b) →
  LevelOK clean F' W' H (take (S c) sq ++ nn :: drop (S c) sq) L.
Proof.
  intros Hnd Hnn Hc Hsmall Hok HcL Ha HHa HHnn Hfr HFa HWa HF' HW'a HW'.
  assert (Hnna : nn ≠ a).
  { intros ->. apply Hnn. by eapply list_elem_of_lookup_2. }
  destruct (Hok cL a Ha HHa) as (x0 & w0 & HFa0 & HWa0 & Hla).
  assert (x0 = x) as -> by congruence.
  assert (w0 = w) as -> by congruence. clear HFa0 HWa0.
  intros r b Hr Hb. rewrite lookup_ins in Hr by done.
  destruct (decide (r ≤ c)%nat) as [Hrc|Hrc].
  - assert (Hbnn : b ≠ nn).
    { intros ->. apply Hnn. by eapply list_elem_of_lookup_2. }
    destruct (decide (b = a)) as [->|Hba].
    + assert (r = cL) as -> by (by eapply NoDup_lookup).
      exists x, (if x is Some _ then wrap64 (w + 1) else w).
      rewrite HF' by done. split; [done|]. split; [done|].
      destruct x as [q|]; simpl in *.
      * pose proof Hla as (r' & Hr' & Hlt & Hq & Hbetween & ->).
        assert (c < r')%nat
          by exact (link_after_frontier sq cL c a q r' _ Hnd Ha Hfr Hla Hr').
        assert (r' < length sq)%nat by (by eapply lookup_lt_Some).
        exists (S r'). rewrite lookup_ins by done.
        rewrite !decide_False by lia.
        replace (S r' - 1)%nat with r' by lia.
        split; [done|]. split; [lia|]. split; [done|]. split.
        -- intros j b' Hj. rewrite lookup_ins by done.
           repeat case_decide.
           ++ apply Hbetween. lia.
           ++ by intros [= <-].
           ++ apply Hbetween. lia.
        -- rewrite wrap64_small; lia.
      * destruct Hla as [Hnone Hcl]. split; [|done].
        intros j b' Hj. rewrite lookup_ins by done.
        repeat case_decide.
        -- apply Hnone. lia.
        -- by intros [= <-].
        -- apply Hnone. lia.
    + assert (r ≠ cL).
      { intros ->. rewrite Ha in Hr. by simplify_eq. }
      assert (r < cL)%nat.
      { destruct (decide (r < cL)%nat); [done|].
        specialize (Hfr r b ltac:(lia) Hr). lia. }
      destruct (Hok r b Hr Hb) as (x1 & w1 & HF1 & HW1 & Hl1).
      exists x1, w1. rewrite HF', HW' by done. split; [done|]. split; [done|].
      destruct x1 as [q|]; simpl in *.
      * destruct Hl1 as (r1 & Hr1 & Hlt & Hq & Hbetween & ->).
        assert (r1 ≤ cL)%nat.
        { destruct (decide (r1 ≤ cL)%nat); [done|].
          specialize (Hbetween cL a ltac:(lia) Ha). lia. }
        exists r1. rewrite lookup_ins by done. rewrite decide_True by lia.
        split; [done|]. split; [done|]. split; [done|]. split; [|done].
        intros j b' Hj. rewrite lookup_ins by done.
        rewrite decide_True by lia. by apply Hbetween.
      * destruct Hl1 as [Hnone _]. specialize (Hnone cL a ltac:(lia) Ha). lia.
  - destruct (decide (r = S c)) as [->|Hrsc].
    + injection Hr as <-. lia.
    + assert (Hbnn : b ≠ nn).
      { intros ->. apply Hnn. by eapply list_elem_of_lookup_2. }
      assert (Hba : b ≠ a).
      { intros ->. assert (r - 1 = cL)%nat by (by eapply NoDup_lookup). lia. }
      destruct (Hok (r - 1)%nat b Hr Hb) as (x1 & w1 & HF1 & HW1 & Hl1).
      exists x1, w1. rewrite HF', HW' by done. split; [done|]. split; [done|].
      destruct x1 as [q|]; simpl in *.
      * destruct Hl1 as (r1 & Hr1 & Hlt & Hq & Hbetween & ->).
        exists (S r1). rewrite lookup_ins by done.
        rewrite !decide_False by lia.
        replace (S r1 - 1)%nat with r1 by lia.
        split; [done|]. split; [lia|]. split; [done|]. split.
        -- intros j b' Hj. rewrite lookup_ins by done.
           rewrite !decide_False by lia. apply Hbetween. lia.
        -- f_equal. lia.
      * destruct Hl1 as [Hnone Hcl]. split; [|done].
        intros j b' Hj. rewrite lookup_ins by done.
        rewrite !decide_False by lia. apply Hnone. lia.
Qed.

(** In a deletion the trail node of level [L] links to the victim exactly
    when the victim is tall enough. *)
Lemma frontier_next_victim F W sq c cL a n :
  NoDup sq → LevelOK clean F W H sq L →
  sq !! S c = Some n →
  (cL ≤ c)%nat → sq !! cL = Some a → (L < H a)%nat →
  (∀ j b, (cL < j ≤ c)%nat → sq !! j = Some b → (H b ≤ L)%nat) →
  F a = Some (Some n) ↔ (L < H n)%nat.
Proof.
  intros Hnd Hok Hn HcL Ha HHa Hfr.
  destruct (Hok cL a Ha HHa) as (x & w & HF & HW & Hl). rewrite HF. split.
  - intros [= ->]. by destruct Hl as (? & ? & ? & ? & ?).
  - intros HHn. destruct x as [q|]; simpl in Hl.
    + destruct Hl as (r' & Hr' & Hlt & Hq & Hbetween & _).
      destruct (decide (r' = S c)) as [->|Hne]; [by simplify_eq|].
      destruct (decide (r' ≤ c)%nat).
      * specialize (Hfr r' q ltac:(lia) Hr'). lia.
      * specialize (Hbetween (S c) n ltac:(lia) Hn). lia.
    + destruct Hl as [Hnone _]. specialize (Hnone (S c) n ltac:(lia) Hn). lia.
Qed.

Lemma LevelOK_weaken F W sq :
  LevelOK clean F W H sq L → LevelOK false F W H sq L.
Proof.
  intros Hok r a Hr Ha. destruct (Hok r a Hr Ha) as (x & w & HF & HW & Hl).
  exists x, w. split; [done|]. split; [done|].
  destruct x; simpl in *; [done|]. by destruct Hl.
Qed.

(** Deleting the node of rank [S c] at a level it takes part in. *)
Lemma LevelOK_unlink F W F' W' sq c cL a n xn wn w :
  NoDup sq → Z.of_nat (length sq) ≤ 2 ^ 64 →
  LevelOK clean F W H sq L →
  sq !! S c = Some n → (L < H n)%nat →
  (cL ≤ c)%nat → sq !! cL = Some a → (L < H a)%nat →
  (∀ j b, (cL < j ≤ c)%nat → sq !! j = Some b → (H b ≤ L)%nat) →
  F n = Some xn → W n = Some wn → W a = Some w →
  F' a = Some xn → W' a = Some (wrap64 (w + wrap64 (wn - 1))) →
  (∀ b, b ≠ a → b ≠ n → F' b = F b ∧ W' b = W b) →
  LevelOK false F' W' H (take (S c) sq ++ drop (S (S c)) sq) L.
Proof.
  intros Hnd Hsmall Hok Hn HHn HcL Ha HHa Hfr HFn HWn HWa HF'a HW'a Hframe.
  assert (Hc : (c < length sq)%nat).
  { apply lookup_lt_Some in Hn. lia. }
  assert (HFa : F a = Some (Some n)) by (by eapply frontier_next_victim).
  destruct (Hok cL a Ha HHa) as (x0 & w0 & HFa0 & HWa0 & Hla).
  assert (x0 = Some n) as -> by congruence.
  assert (w0 = w) as -> by congruence. clear HFa0 HWa0.
  destruct Hla as (rn & Hrn & _ & _ & _ & Hw).
  assert (rn = S c) as -> by (by eapply NoDup_lookup).
  destruct (Hok (S c) n Hn HHn) as (x0 & w0 & HFn0 & HWn0 & Hln).
  assert (x0 = xn) as -> by congruence.
  assert (w0 = wn) as -> by congruence. clear HFn0 HWn0.
  intros r b Hr Hb. rewrite lookup_del in Hr by done.
  destruct (decide (r ≤ c)%nat) as [Hrc|Hrc].
  - destruct (decide (b = a)) as [->|Hba].
    + assert (r = cL) as -> by (by eapply NoDup_lookup).
      exists xn, (wrap64 (w + wrap64 (wn - 1))).
      split; [done|]. split; [done|].
      destruct xn as [q|]; simpl in *.
      * destruct Hln as (r' & Hr' & Hlt & Hq & Hbetween & ->).
        assert (r' < length sq)%nat by (by eapply lookup_lt_Some).
        exists (r' - 1)%nat. rewrite lookup_del by done.
        rewrite decide_False by lia.
        replace (S (r' - 1)) with r' by lia.
        split; [done|]. split; [lia|]. split; [done|]. split.
        -- intros j b' Hj. rewrite lookup_del by done. case_decide.
           ++ apply Hfr. lia.
           ++ apply Hbetween. lia.
        -- subst w. rewrite (wrap64_small (_ - 1)) by lia.
           rewrite wrap64_small; lia.
      * destruct Hln as [Hnone _]. split; [|done].
        intros j b' Hj. rewrite lookup_del by done. case_decide.
        -- apply Hfr. lia.
        -- apply Hnone. lia.
    + assert (r ≠ cL).
      { intros ->. rewrite Ha in Hr. by simplify_eq. }
      assert (r < cL)%nat.
      { destruct (decide (r < cL)%nat); [done|].
        specialize (Hfr r b ltac:(lia) Hr). lia. }
      assert (Hbn : b ≠ n).
      { intros ->. assert (r = S c) by (by eapply NoDup_lookup). lia. }
      destruct (Hok r b Hr Hb) as (x1 & w1 & HF1 & HW1 & Hl1).
      exists x1, w1. destruct (Hframe b Hba Hbn) as [-> ->].
      split; [done|]. split; [done|].
      destruct x1 as [q|]; simpl in *.
      * destruct Hl1 as (r1 & Hr1 & Hlt & Hq & Hbetween & ->).
        assert (r1 ≤ cL)%nat.
        { destruct (decide (r1 ≤ cL)%nat); [done|].
          specialize (Hbetween cL a ltac:(lia) Ha). lia. }
        exists r1. rewrite lookup_del by done. rewrite decide_True by lia.
        split; [done|]. split; [done|]. split; [done|]. split; [|done].
        intros j b' Hj. rewrite lookup_del by done.
        rewrite decide_True by lia. by apply Hbetween.
      * destruct Hl1 as [Hnone _]. specialize (Hnone cL a ltac:(lia) Ha). lia.
  - assert (Hba : b ≠ a).
    { intros ->. assert (S r = cL) by (by eapply NoDup_lookup). lia. }
    assert (Hbn : b ≠ n).
    { intros ->. assert (S r = S c) by (by eapply NoDup_lookup). lia. }
    destruct (Hok (S r) b Hr Hb) as (x1 & w1 & HF1 & HW1 & Hl1).
    exists x1, w1. destruct (Hframe b Hba Hbn) as [-> ->].
    split; [done|]. split; [done|].
    destruct x1 as [q|]; simpl in *.
    + destruct Hl1 as (r1 & Hr1 & Hlt & Hq & Hbetween & ->).
      exists (r1 - 1)%nat. rewrite lookup_del by done.
      rewrite decide_False by lia.
      replace (S (r1 - 1)) with r1 by lia.
      split; [done|]. split; [lia|]. split; [done|]. split.
      * intros j b' Hj. rewrite lookup_del by done.
        rewrite decide_False by lia. apply Hbetween. lia.
      * f_equal. lia.
    + destruct Hl1 as [Hnone _]. split; [|done].
      intros j b' Hj. rewrite lookup_del by done.
      rewrite decide_False by lia. apply Hnone. lia.
Qed.

(** Deleting the node of rank [S c] at a level that jumps over it. *)
Lemma LevelOK_skip F W F' W' sq c cL a n x w :
  NoDup sq → Z.of_nat (length sq) ≤ 2 ^ 64 →
  LevelOK clean F W H sq L →
  sq !! S c = Some n → (H n ≤ L)%nat →
  (cL ≤ c)%nat → sq !! cL = Some a → (L < H a)%nat →
  (∀ j b, (cL < j ≤ c)%nat → sq !! j = Some b → (H b ≤ L)%nat) →
  F a = Some x → W a = Some w →
  (∀ b, b ≠ n → F' b = F b) →
  W' a = Some (if x is Some _ then wrap64 (w - 1) else w) →
  (∀ b, b ≠ a → b ≠ n → W' b = W b) →
  LevelOK false F' W' H (take (S c) sq ++ drop (S (S c)) sq) L.
Proof.
  intros Hnd Hsmall Hok Hn HHn HcL Ha HHa Hfr HFa HWa HF' HW'a HW'.
  assert (Hc : (c < length sq)%nat).
  { apply lookup_lt_Some in Hn. lia. }
  assert (Han : a ≠ n) by (intros ->; lia).
  destruct (Hok cL a Ha HHa) as (x0 & w0 & HFa0 & HWa0 & Hla).
  assert (x0 = x) as -> by congruence.
  assert (w0 = w) as -> by congruence. clear HFa0 HWa0.
  intros r b Hr Hb. rewrite lookup_del in Hr by done.
  assert (Hbn : b ≠ n) by (intros ->; lia).
  destruct (decide (r ≤ c)%nat) as [Hrc|Hrc].
  - destruct (decide (b = a)) as [->|Hba].
    + assert (r = cL) as -> by (by eapply NoDup_lookup).
      exists x, (if x is Some _ then wrap64 (w - 1) else w).
      rewrite HF' by done. split; [done|]. split; [done|].
      destruct x as [q|]; simpl in *.
      * pose proof Hla as (r' & Hr' & Hlt & Hq & Hbetween & ->).
        assert (c < r')%nat
          by exact (link_after_frontier sq cL c a q r' _ Hnd Ha Hfr Hla Hr').
        assert (r' ≠ S c).
        { intros ->. rewrite Hn in Hr'. injection Hr' as ->. lia. }
        assert (r' < length sq)%nat by (by eapply lookup_lt_Some).
        exists (r' - 1)%nat. rewrite lookup_del by done.
        rewrite decide_False by lia.
        replace (S (r' - 1)) with r' by lia.
        split; [done|]. split; [lia|]. split; [done|]. split.
        -- intros j b' Hj. rewrite lookup_del by done. case_decide.
           ++ apply Hfr. lia.
           ++ apply Hbetween. lia.
        -- rewrite wrap64_small; lia.
      * destruct Hla as [Hnone _]. split; [|done].
        intros j b' Hj. rewrite lookup_del by done. case_decide.
        -- apply Hfr. lia.
        -- apply Hnone. lia.
    + assert (r ≠ cL).
      { intros ->. rewrite Ha in Hr. by simplify_eq. }
      assert (r < cL)%nat.
      { destruct (decide (r < cL)%nat); [done|].
        specialize (Hfr r b ltac:(lia) Hr). lia. }
      destruct (Hok r b Hr Hb) as (x1 & w1 & HF1 & HW1 & Hl1).
      exists x1, w1. rewrite HF', HW' by done.
      split; [done|]. split; [done|].
      destruct x1 as [q|]; simpl in *.
      * destruct Hl1 as (r1 & Hr1 & Hlt & Hq & Hbetween & ->).
        assert (r1 ≤ cL)%nat.
        { destruct (decide (r1 ≤ cL)%nat); [done|].
          specialize (Hbetween cL a ltac:(lia) Ha). lia. }
        exists r1. rewrite lookup_del by done. rewrite decide_True by lia.
        split; [done|]. split; [done|]. split; [done|]. split; [|done].
        intros j b' Hj. rewrite lookup_del by done.
        rewrite decide_True by lia. by apply Hbetween.
      * destruct Hl1 as [Hnone _]. specialize (Hnone cL a ltac:(lia) Ha). lia.
  - assert (Hba : b ≠ a).
    { intros ->. assert (S r = cL) by (by eapply NoDup_lookup). lia. }
    destruct (Hok (S r) b Hr Hb) as (x1 & w1 & HF1 & HW1 & Hl1).
    exists x1, w1. rewrite HF', HW' by done.
    split; [done|]. split; [done|].
    destruct x1 as [q|]; simpl in *.
    + destruct Hl1 as (r1 & Hr1 & Hlt & Hq & Hbetween & ->).
      exists (r1 - 1)%nat. rewrite lookup_del by done.
      rewrite decide_False by lia.
      replace (S (r1 - 1)) with r1 by lia.
      split; [done|]. split; [lia|]. split; [done|]. split.
      * intros j b' Hj. rewrite lookup_del by done.
        rewrite decide_False by lia. apply Hbetween. lia.
      * f_equal. lia.
    + destruct Hl1 as [Hnone _]. split; [|done].
      intros j b' Hj. rewrite lookup_del by done.
      rewrite decide_False by lia. apply Hnone. lia.
Qed.

(** Cutting the list after rank [k]: the left part. *)
Lemma LevelOK_cut_left F W F' W' sq k cL a :
  NoDup sq →
  LevelOK clean F W H sq L →
  (cL ≤ k)%nat → sq !! cL = Some a → (L < H a)%nat →
  (∀ j b, (cL < j ≤ k)%nat → sq !! j = Some b → (H b ≤ L)%nat) →
  F' a = Some None → W' a = Some 0 →
  (∀ b, b ∈ sq → b ≠ a → F' b = F b ∧ W' b = W b) →
  LevelOK clean F' W' H (take (S k) sq) L.
Proof.
  intros Hnd Hok HcL Ha HHa Hfr HF'a HW'a Hframe.
  intros r b Hr Hb. rewrite lookup_take_dec in Hr.
  case_decide as Hrk; [|done].
  destruct (decide (b = a)) as [->|Hba].
  - assert (r = cL) as -> by (by eapply NoDup_lookup).
    exists None, 0. split; [done|]. split; [done|]. split; [|done].
    intros j b' Hj. rewrite lookup_take_dec. case_decide; [|done].
    apply Hfr. lia.
  - assert (r ≠ cL).
    { intros ->. rewrite Ha in Hr. by simplify_eq. }
    assert (r < cL)%nat.
    { destruct (decide (r < cL)%nat); [done|].
      specialize (Hfr r b ltac:(lia) Hr). lia. }
    destruct (Hok r b Hr Hb) as (x1 & w1 & HF1 & HW1 & Hl1).
    exists x1, w1.
    destruct (Hframe b) as [-> ->]; [by eapply list_elem_of_lookup_2|done|].
    split; [done|]. split; [done|].
    destruct x1 as [q|]; simpl in *.
    + destruct Hl1 as (r1 & Hr1 & Hlt & Hq & Hbetween & ->).
      assert (r1 ≤ cL)%nat.
      { destruct (decide (r1 ≤ cL)%nat); [done|].
        specialize (Hbetween cL a ltac:(lia) Ha). lia. }
      exists r1. rewrite lookup_take_dec. rewrite decide_True by lia.
      split; [done|]. split; [done|]. split; [done|]. split; [|done].
      intros j b' Hj. rewrite lookup_take_dec.
      rewrite decide_True by lia. by apply Hbetween.
    + destruct Hl1 as [Hnone _]. specialize (Hnone cL a ltac:(lia) Ha). lia.
Qed.

(** Cutting the list after rank [k]: the right part, under its new head. *)
Lemma LevelOK_cut_right F W F' W' sq k cL a rh x w :
  NoDup sq → rh ∉ sq → Z.of_nat (length sq) ≤ 2 ^ 64 →
  LevelOK clean F W H sq L →
  (cL ≤ k)%nat → sq !! cL = Some a → (L < H a)%nat →
  (∀ j b, (cL < j ≤ k)%nat → sq !! j = Some b → (H b ≤ L)%nat) →
  F a = Some x → W a = Some w →
  F' rh = Some x →
  W' rh = Some (if w =? 0 then 0
                else wrap64 (w - wrap64 (Z.of_nat k - Z.of_nat cL))) →
  (∀ b, b ∈ sq → b ≠ a → F' b = F b ∧ W' b = W b) →
  LevelOK clean F' W' H (rh :: drop (S k) sq) L.
Proof.
  intros Hnd Hrh Hsmall Hok HcL Ha HHa Hfr HFa HWa HF'rh HW'rh Hframe.
  destruct (Hok cL a Ha HHa) as (x0 & w0 & HFa0 & HWa0 & Hla).
  assert (x0 = x) as -> by congruence.
  assert (w0 = w) as -> by congruence. clear HFa0 HWa0.
  intros r b Hr Hb. rewrite lookup_cons_drop in Hr.
  destruct r as [|r0].
  - injection Hr as <-.
    exists x, (if w =? 0 then 0
               else wrap64 (w - wrap64 (Z.of_nat k - Z.of_nat cL))).
    split; [done|]. split; [done|].
    destruct x as [q|]; simpl in *.
    + pose proof Hla as (r' & Hr' & Hlt & Hq & Hbetween & ->).
      assert (k < r')%nat
        by exact (link_after_frontier sq cL k a q r' _ Hnd Ha Hfr Hla Hr').
      assert (r' < length sq)%nat by (by eapply lookup_lt_Some).
      exists (r' - k)%nat. rewrite lookup_cons_drop.
      destruct (r' - k)%nat as [|d] eqn:Hd; [lia|].
      replace (S k + d)%nat with r' by lia.
      split; [done|]. split; [lia|]. split; [done|]. split.
      * intros j b' Hj. rewrite lookup_cons_drop.
        destruct j as [|j']; [lia|]. apply Hbetween. lia.
      * destruct (Z.eqb_spec (Z.of_nat (r' - cL)) 0); [lia|].
        rewrite (wrap64_small (Z.of_nat k - Z.of_nat cL)) by lia.
        rewrite wrap64_small; lia.
    + destruct Hla as [Hnone Hcl]. split.
      * intros j b' Hj. rewrite lookup_cons_drop.
        destruct j as [|j']; [lia|]. apply Hnone. lia.
      * intros Hclean. by rewrite (Hcl Hclean).
  - assert (Hba : b ≠ a).
    { intros ->. assert (S k + r0 = cL)%nat by (by eapply NoDup_lookup). lia. }
    destruct (Hok (S k + r0)%nat b Hr Hb) as (x1 & w1 & HF1 & HW1 & Hl1).
    exists x1, w1.
    destruct (Hframe b) as [-> ->]; [by eapply list_elem_of_lookup_2|done|].
    split; [done|]. split; [done|].
    destruct x1 as [q|]; simpl in *.
    + destruct Hl1 as (r1 & Hr1 & Hlt & Hq & Hbetween & ->).
      exists (r1 - k)%nat. rewrite lookup_cons_drop.
      destruct (r1 - k)%nat as [|d] eqn:Hd; [lia|].
      replace (S k + d)%nat with r1 by lia.
      split; [done|]. split; [lia|]. split; [done|]. split.
      * intros j b' Hj. rewrite lookup_cons_drop.
        destruct j as [|j']; [lia|]. apply Hbetween. lia.
      * f_equal. lia.
    + destruct Hl1 as [Hnone Hcl]. split; [|done].
      intros j b' Hj. rewrite lookup_cons_drop.
      destruct j as [|j']; [lia|]. apply Hnone. lia.
Qed.

(** A level that only the head reaches. *)
Lemma LevelOK_top F W sq hd w :
  NoDup sq → sq !! O = Some hd →
  (∀ j b, (0 < j)%nat → sq !! j = Some b → (H b ≤ L)%nat) →
  F hd = Some None → W hd = Some w → (clean = true → w = 0) →
  LevelOK clean F W H sq L.
Proof.
  intros Hnd Hhd Hlow HF HW Hw r b Hr Hb.
  destruct r as [|r].
  2:{ assert (H b ≤ L)%nat; [|lia]. eapply (Hlow (S r)); [lia|done]. }
  assert (b = hd) as -> by congruence.
  exists None, w. split; [done|]. split; [done|]. split; [|done].
  intros j b' Hj. by apply Hlow.
Qed.

(** Conversely, at such a level the head's link is nil. *)
Lemma LevelOK_top_inv F W sq hd :
  sq !! O = Some hd → (L < H hd)%nat →
  (∀ j b, (0 < j)%nat → sq !! j = Some b → (H b ≤ L)%nat) →
  LevelOK clean F W H sq L →
  F hd = Some None ∧ ∃ w, W hd = Some w ∧ (clean = true → w = 0).
Proof.
  intros Hhd HHhd Hlow Hok.
  destruct (Hok O hd Hhd HHhd) as (x & w & HF & HW & Hl).
  destruct x as [q|]; simpl in *.
  - destruct Hl as (r' & Hr' & Hlt & Hq & _).
    specialize (Hlow r' q Hlt Hr'). lia.
  - destruct Hl as [_ Hcl]. eauto.
Qed.

End Levels.

Section LevelsExt.
Context (clean : bool) (L : nat).

(** [LevelOK] looks at the heap only through the nodes of the sequence. *)
Lemma LevelOK_ext_ht F W H F' W' H' (sq : list nat) :
  (∀ a, a ∈ sq → F' a = F a ∧ W' a = W a ∧ H' a = H a) →
  LevelOK clean F W H sq L → LevelOK clean F' W' H' sq L.
Proof.
  intros Hext Hok r a Hr Ha.
  assert (Hin : ∀ j b, sq !! j = Some b → H' b = H b).
  { intros j b Hb. apply Hext. by eapply list_elem_of_lookup_2. }
  destruct (Hext a) as (HF & HW & HH); [by eapply list_elem_of_lookup_2|].
  rewrite HH in Ha. destruct (Hok r a Hr Ha) as (x & w & HFa & HWa & Hl).
  exists x, w. rewrite HF, HW. split; [done|]. split; [done|].
  destruct x as [q|]; simpl in *.
  - destruct Hl as (r' & Hr' & Hlt & Hq & Hbetween & Hw).
    exists r'. split; [done|]. split; [done|].
    rewrite (Hin _ _ Hr'). split; [done|]. split; [|done].
    intros j b Hj Hb. rewrite (Hin _ _ Hb). by eapply Hbetween.
  - destruct Hl as [Hnone Hcl]. split; [|done].
    intros j b Hj Hb. rewrite (Hin _ _ Hb). by eapply Hnone.
Qed.

(** A level above every node of the sequence. *)
Lemma LevelOK_none F W H (sq : list nat) :
  (∀ a, a ∈ sq → (H a ≤ L)%nat) → LevelOK clean F W H sq L.
Proof.
  intros Hlow r a Hr Ha. apply list_elem_of_lookup_2 in Hr.
  specialize (Hlow a Hr). lia.
Qed.

End LevelsExt.

Section LevelsAbove.
Context (clean : bool) (H : nat → nat) (L : nat).

(** A level that only the head may reach survives any change of the rest
    of the sequence that keeps it so. *)
Lemma LevelOK_above F W (sq sq' : list nat) hd :
  sq !! O = Some hd → sq' !! O = Some hd → NoDup sq' →
  (∀ j b, (0 < j)%nat → sq !! j = Some b → (H b ≤ L)%nat) →
  (∀ j b, (0 < j)%nat → sq' !! j = Some b → (H b ≤ L)%nat) →
  LevelOK clean F W H sq L → LevelOK clean F W H sq' L.
Proof.
  intros Hhd Hhd' Hnd Hlow Hlow' Hok.
  destruct (decide (L < H hd)%nat) as [HL|HL].
  - destruct (LevelOK_top_inv clean H L F W sq hd Hhd HL Hlow Hok)
      as (HF & w & HW & Hw).
    by eapply LevelOK_top.
  - apply LevelOK_none. intros a [j Hj]%list_elem_of_lookup_1.
    destruct j as [|j]; [|by apply (Hlow' (S j) a ltac:(lia))].
    assert (a = hd) as -> by congruence. lia.
Qed.

End LevelsAbove.

(** * The two searches leave a frontier in the scratch slices *)

Section InvFacts.
Context {Entry : Type} {cmp : Comparable Entry}.
Implicit Types (h : list (node (Entry:=Entry))) (sl : SkipList).

Lemma NoDup_bounded_length (l : list nat) n :
  NoDup l → (∀ a, a ∈ l → (a < n)%nat) → (length l ≤ n)%nat.
Proof.
  intros Hnd Hlt. trans (length (seq 0 n)); [|by rewrite length_seq].
  apply submseteq_length.
  apply NoDup_submseteq; [done|]. intros a Ha. apply elem_of_seq.
  specialize (Hlt a Ha). lia.
Qed.

Lemma Inv_ht_pos clean h sl hd ps a :
  Inv clean h sl hd ps → a ∈ hd :: ps → (0 < ht h a)%nat.
Proof.
  intros HI [->|Ha]%elem_of_cons.
  - rewrite (inv_hd_ht _ _ _ _ _ HI). pose proof (inv_level _ _ _ _ _ HI). lia.
  - pose proof (inv_ht _ _ _ _ _ HI a Ha). lia.
Qed.

Lemma Inv_length clean h sl hd ps :
  Inv clean h sl hd ps → (length (hd :: ps) ≤ length h)%nat.
Proof.
  intros HI. apply NoDup_bounded_length; [apply HI|].
  intros a Ha. apply ht_lt_length. by eapply Inv_ht_pos.
Qed.

Lemma Inv_lookup_ht clean h sl hd ps j b :
  Inv clean h sl hd ps → (0 < j)%nat → (hd :: ps) !! j = Some b →
  (1 ≤ ht h b ≤ level sl)%nat.
Proof.
  intros HI Hj Hb. destruct j as [|j]; [lia|]. simpl in Hb.
  apply (inv_ht _ _ _ _ _ HI). by eapply list_elem_of_lookup_2.
Qed.

(** At level 0 every node is linked to its immediate successor. *)
Lemma Inv_next0 clean h sl hd ps r a :
  Inv clean h sl hd ps → (hd :: ps) !! r = Some a →
  fw h 0 a = Some ((hd :: ps) !! S r).
Proof.
  intros HI Ha.
  assert (Hpos : (0 < ht h a)%nat).
  { eapply Inv_ht_pos; [done|]. by eapply list_elem_of_lookup_2. }
  destruct (inv_links _ _ _ _ _ HI O r a Ha Hpos) as (x & w & HF & _ & Hl).
  rewrite HF. f_equal. destruct x as [q|]; simpl in Hl.
  - destruct Hl as (r' & Hr' & Hlt & _ & Hbetween & _).
    destruct (decide (r' = S r)) as [->|Hne]; [done|].
    assert (HSr : (S r < length (hd :: ps))%nat).
    { apply lookup_lt_Some in Hr'. lia. }
    destruct (lookup_lt_is_Some_2 _ _ HSr) as [b Hb].
    specialize (Hbetween (S r) b ltac:(lia) Hb).
    pose proof (Inv_lookup_ht _ _ _ _ _ (S r) b HI ltac:(lia) Hb). lia.
  - destruct Hl as [Hnone _].
    destruct ((hd :: ps) !! S r) as [b|] eqn:Hb; [|done].
    specialize (Hnone (S r) b ltac:(lia) Hb).
    pose proof (Inv_lookup_ht _ _ _ _ _ (S r) b HI ltac:(lia) Hb). lia.
Qed.

End InvFacts.

Section Walk.
Context {Entry : Type} {cmp : Comparable Entry}.
Context (clean total : bool) (h : list (node (Entry:=Entry))) (sl : SkipList)
  (hd : nat) (ps : list nat).
Context (HI : Inv clean h sl hd ps).
Context (adv : nat → bool) (cond : nat → ptr * Z → res bool).

Hypothesis cond_link : ∀ L r a x w,
  (hd :: ps) !! r = Some a → fw h L a = Some x → wd h L a = Some w →
  link clean (ht h) (hd :: ps) L r x w →
  wpx total (cond L (Some a, Z.of_nat r)) (λ c,
    match x with
    | Some q => ∀ r', (hd :: ps) !! r' = Some q → c = adv r'
    | None => c = false ∨ total = false
    end).
Hypothesis cond_nil : ∀ L pos, total = false → cond L (None, pos) = Panic.

(** One level of a search, started at rank [r0]: it stops at a rank [r]
    no smaller, having advanced over every tall node in between, with the
    next tall node (if any) refusing the advance. *)
Lemma wpx_walk L r0 a0 :
  (hd :: ps) !! r0 = Some a0 → (L < ht h a0)%nat →
  wpx total
    (while (S (length h)) (cond L) (search_step h L) (Some a0, Z.of_nat r0))
    (λ s, ∃ r a, s = (Some a, Z.of_nat r) ∧ (r0 ≤ r)%nat ∧
        (hd :: ps) !! r = Some a ∧ (L < ht h a)%nat ∧
        (r = r0 ∨ adv r = true) ∧
        (∀ j b, (r0 < j ≤ r)%nat → (hd :: ps) !! j = Some b →
                (L < ht h b)%nat → adv j = true) ∧
        (∀ q r', fw h L a = Some (Some q) → (hd :: ps) !! r' = Some q →
                 adv r' = false)).
Proof.
  intros Ha0 Hht0.
  pose proof (Inv_length _ _ _ _ _ HI) as Hlen.
  set (I := λ s : ptr * Z,
    (∃ r a, s = (Some a, Z.of_nat r) ∧ (r0 ≤ r)%nat ∧
       (hd :: ps) !! r = Some a ∧ (L < ht h a)%nat ∧
       (r = r0 ∨ adv r = true) ∧
       (∀ j b, (r0 < j ≤ r)%nat → (hd :: ps) !! j = Some b →
               (L < ht h b)%nat → adv j = true)) ∨
    (total = false ∧ s.1 = None)).
  set (μ := λ s : ptr * Z,
    match s.1 with
    | Some _ => (length (hd :: ps) - Z.to_nat s.2)%nat
    | None => O
    end).
  apply (wpx_while total I μ).
  - left. exists r0, a0. split; [done|]. split; [done|]. split; [done|].
    split; [done|]. split; [by left|]. intros j b Hj. lia.
  - unfold μ. simpl in *. rewrite Nat2Z.id. lia.
  - intros s [(r & a & -> & Hr0 & Ha & Hht & Hadv & Hpath)|[Htot Hnil]].
    2:{ destruct s as [n pos]. simpl in Hnil. subst n.
        rewrite cond_nil by done. done. }
    destruct (inv_links _ _ _ _ _ HI L r a Ha Hht) as (x & w & HF & HW & Hl).
    eapply wpx_mono; [by eapply cond_link|]. simpl.
    intros c Hc. destruct c.
    + (* advance *)
      unfold search_step. simpl.
      apply wpx_bind. eapply wpx_get_width; [done|].
      apply wpx_bind. eapply wpx_get_forward; [done|].
      simpl. destruct x as [q|]; simpl in Hl.
      * destruct Hl as (r' & Hr' & Hlt & Hq & Hbetween & ->).
        assert (r' < length (hd :: ps))%nat by (by eapply lookup_lt_Some).
        pose proof (inv_small _ _ _ _ _ HI). simpl in *.
        rewrite wrap64_small by lia.
        replace (Z.of_nat r + Z.of_nat (r' - r)) with (Z.of_nat r') by lia.
        split.
        -- left. exists r', q. repeat split; [lia|done|done|..].
           ++ right. symmetry. by apply Hc.
           ++ intros j b Hj Hb Hhb.
              destruct (decide (j ≤ r)%nat); [apply (Hpath j b); [lia|done..]|].
              destruct (decide (j = r')) as [->|]; [symmetry; by apply Hc|].
              specialize (Hbetween j b ltac:(lia) Hb). lia.
        -- unfold μ. simpl. rewrite !Nat2Z.id. lia.
      * destruct Hc as [|Htot]; [done|]. split; [by right|].
        unfold μ. simpl. rewrite !Nat2Z.id.
        apply lookup_lt_Some in Ha. simpl in *. lia.
    + (* stop *)
      exists r, a. repeat split; [done..|].
      intros q r' HFq Hr'. rewrite HF in HFq. injection HFq as ->.
      symmetry. by apply Hc.
Qed.

Local Abbreviation FrontB := (FrontB h (hd :: ps) adv).

Lemma FrontB_extend cch pch r r' L L' :
  (L < L')%nat → (r ≤ r')%nat →
  (∀ j b, (r < j ≤ r')%nat → (hd :: ps) !! j = Some b →
          (L < ht h b)%nat → adv j = true) →
  FrontB cch pch r L' → FrontB cch pch r' L'.
Proof.
  intros HL Hr Hpath (cL & a & HcL & Ha & Hht & Hc & Hp & Hlow & Hblock).
  exists cL, a. split; [lia|]. do 4 (split; [done|]). split; [|done].
  intros j b Hj Hb. destruct (decide (j ≤ r)%nat); [apply (Hlow j b); [lia|done]|].
  destruct (decide (ht h b ≤ L')%nat); [done|]. exfalso.
  destruct (inv_links _ _ _ _ _ HI L' cL a Ha Hht) as (x & w & HF & _ & Hl).
  destruct x as [q|]; simpl in Hl.
  - destruct Hl as (s & Hs & Hlt & Hq & Hbetween & _).
    assert (r < s)%nat.
    { destruct (decide (r < s)%nat); [done|].
      specialize (Hlow s q ltac:(lia) Hs). lia. }
    assert (s ≤ j)%nat.
    { destruct (decide (s ≤ j)%nat); [done|].
      specialize (Hbetween j b ltac:(lia) Hb). lia. }
    specialize (Hpath s q ltac:(lia) Hs ltac:(lia)).
    specialize (Hblock q s HF Hs). congruence.
  - destruct Hl as [Hnone _]. specialize (Hnone j b ltac:(lia) Hb). lia.
Qed.

Context (lvlf : nat → ptr * Z * trail → res (ptr * Z * trail)).
Hypothesis lvlf_eq : ∀ i s,
  lvlf i s =
    let offset := (level sl - i)%nat in
    '(n, pos) ← while (S (length h)) (cond offset) (search_step h offset) s.1;
    t ← record_trail s.2 offset n pos;
    Ret (n, pos, t).

(** The descent through the levels, recording the trail. *)
Lemma wpx_levels :
  wpx total (for_up (S (level sl)) 0 lvlf (head sl, 0, own_trail sl))
    (λ s, ∃ r a cch pch,
       s = (Some a, Z.of_nat r, Some (cch, pch)) ∧
       (hd :: ps) !! r = Some a ∧
       length cch = maxLevel sl ∧ length pch = maxLevel sl ∧
       (r = O ∨ adv r = true) ∧
       (∀ L, (L ≤ level sl)%nat → FrontB cch pch r L) ∧
       (∀ i, (level sl < i)%nat →
             cch !! i = cache sl !! i ∧ pch !! i = posCache sl !! i)).
Proof.
  set (J := λ (i : nat) (s : ptr * Z * trail),
    ∃ r a cch pch,
       s = (Some a, Z.of_nat r, Some (cch, pch)) ∧
       (hd :: ps) !! r = Some a ∧ (level sl - i < ht h a)%nat ∧
       length cch = maxLevel sl ∧ length pch = maxLevel sl ∧
       (r = O ∨ adv r = true) ∧
       (∀ L, (level sl + 1 - i ≤ L ≤ level sl)%nat → FrontB cch pch r L) ∧
       (∀ i, (level sl < i)%nat →
             cch !! i = cache sl !! i ∧ pch !! i = posCache sl !! i)).
  eapply wpx_mono; [apply (wpx_for_up total J)|].
  - exists O, hd, (cache sl), (posCache sl).
    rewrite (inv_head _ _ _ _ _ HI). split; [done|]. split; [done|].
    rewrite (inv_hd_ht _ _ _ _ _ HI). pose proof (inv_level _ _ _ _ _ HI).
    split; [lia|]. split; [apply HI|]. split; [apply HI|].
    split; [by left|]. split; [intros; lia|done].
  - intros i s Hi (r & a & cch & pch & -> & Ha & Hht & Hcl & Hpl & Hadv &
      Hfront & Hstale).
    rewrite lvlf_eq. simpl. apply wpx_bind.
    eapply wpx_mono; [by eapply wpx_walk|]. simpl.
    intros s' (r' & a' & -> & Hrr' & Ha' & Hht' & Hadv' & Hpath & Hblock).
    pose proof (inv_level _ _ _ _ _ HI).
    unfold upd. rewrite Hcl, Hpl.
    rewrite !decide_True by lia. simpl.
    exists r', a', (<[(level sl - i)%nat:=Some a']> cch),
      (<[(level sl - i)%nat:=Z.of_nat r']> pch).
    split; [done|]. split; [done|]. split; [lia|].
    rewrite !length_insert. split; [done|]. split; [done|].
    split; [destruct Hadv' as [->|]; [done|by right]|]. split.
    + intros L HL. destruct (decide (L = level sl - i)%nat) as [->|Hne].
      * exists r', a'. split; [done|]. split; [done|]. split; [done|].
        rewrite !list_lookup_insert_eq by lia.
        split; [done|]. split; [done|]. split; [intros; lia|done].
      * assert (FrontB cch pch r' L) as (cL & a1 & ? & ? & ? & ? & ? & ? & ?).
        { eapply (FrontB_extend _ _ r r' (level sl - i)%nat);
            [lia|done|done|]. apply Hfront. lia. }
        exists cL, a1. rewrite !list_lookup_insert_ne by done. done.
    + intros i' Hi'. rewrite !list_lookup_insert_ne by lia. by apply Hstale.
  - simpl. intros s (r & a & cch & pch & -> & Ha & Hht & Hcl & Hpl & Hadv &
      Hfront & Hstale).
    exists r, a, cch, pch. do 5 (split; [done|]). split; [|done].
    intros L HL. apply Hfront. lia.
Qed.

End Walk.

Section Searches.
Context {Entry : Type} {cmp : Comparable Entry}.
Implicit Types (h : list (node (Entry:=Entry))) (sl : SkipList).

Lemma with_own_trail sl : with_trail sl (own_trail sl) = sl.
Proof. by destruct sl. Qed.

Lemma descent_post clean h sl hd ps adv r a cch pch :
  Inv clean h sl hd ps → (hd :: ps) !! r = Some a →
  length cch = maxLevel sl → length pch = maxLevel sl →
  (r = O ∨ adv r = true) →
  (∀ L, (L ≤ level sl)%nat → FrontB h (hd :: ps) adv cch pch r L) →
  (∀ i, (level sl < i)%nat →
        cch !! i = cache sl !! i ∧ pch !! i = posCache sl !! i) →
  ps ≠ [] →
  SearchPost clean h sl hd ps adv r (Some (cch, pch)) ∧
  cch !! O = Some (Some a).
Proof.
  intros HI Ha Hcl Hpl Hadv Hfront Hstale Hne.
  assert (Hr : (r ≤ length ps)%nat).
  { apply lookup_lt_Some in Ha. simpl in Ha. lia. }
  assert (H0 : cch !! O = Some (Some a) ∧
               ∀ q, (hd :: ps) !! S r = Some q → adv (S r) = false).
  { destruct (Hfront O ltac:(lia)) as (cL & a' & HcL & Ha' & _ & Hc & _ & Hlow & Hbl).
    assert (cL = r) as ->.
    { destruct (decide (cL = r)); [done|].
      specialize (Hlow r a ltac:(lia) Ha).
      assert (0 < ht h a)%nat; [|lia].
      eapply Inv_ht_pos; [done|]. by eapply list_elem_of_lookup_2. }
    assert (a' = a) as -> by congruence. split; [done|].
    intros q Hq. apply (Hbl q); [|done].
    rewrite (Inv_next0 _ _ _ _ _ _ _ HI Ha). by rewrite Hq. }
  split; [|apply H0]. exists cch, pch. split; [done|]. split; [|split; [done|]].
  - destruct HI as [inv_head inv_heap inv_nodup inv_hd_ht inv_hd_entry inv_ht
      inv_entry inv_level inv_max inv_cache inv_posCache inv_num inv_small
      inv_links inv_stale inv_empty].
    split; simpl; try done.
    + intros i Hi. destruct (decide (i = level sl)) as [->|].
      * destruct (Hfront (level sl) ltac:(lia))
          as (cL & a' & _ & Ha' & Hht & _ & Hp & _).
        rewrite Hp. do 2 f_equal. destruct cL as [|cL]; [done|].
        simpl in Ha'. apply list_elem_of_lookup_2 in Ha'.
        specialize (inv_ht a' Ha'). lia.
      * destruct (Hstale i ltac:(lia)) as [_ ->]. apply inv_stale. lia.
  - split; [|split; [done|apply H0]].
    intros L HL. destruct (Hfront L ltac:(lia))
      as (cL & a' & ? & ? & ? & ? & ? & ? & _).
    exists cL, a'. done.
Qed.

Lemma search_cond_link total clean h sl hd ps e L r a x w :
  Inv clean h sl hd ps →
  (hd :: ps) !! r = Some a → fw h L a = Some x → wd h L a = Some w →
  link clean (ht h) (hd :: ps) L r x w →
  wpx total (search_cond h e L (Some a, Z.of_nat r)) (λ c,
    match x with
    | Some q => ∀ r', (hd :: ps) !! r' = Some q → c = adv_key h (hd :: ps) e r'
    | None => c = false ∨ total = false
    end).
Proof.
  intros HI Ha HF HW Hl. unfold search_cond. simpl.
  apply wpx_bind. eapply wpx_get_forward; [done|].
  destruct x as [q|]; simpl in *; [|by left].
  destruct Hl as (r' & Hr' & Hlt & _).
  destruct r' as [|r']; [lia|]. simpl in Hr'.
  destruct (inv_entry _ _ _ _ _ HI q) as [y Hy];
    [by eapply list_elem_of_lookup_2|].
  apply wpx_bind. eapply wpx_node_compare; [done|]. simpl.
  intros r'' Hr''. unfold adv_key. rewrite Hr''. simpl. by rewrite Hy.
Qed.

(** Search by key in a non-empty list. *)
Lemma wpx_search total clean h sl hd ps e :
  Inv clean h sl hd ps → ps ≠ [] →
  wpx total (search h sl e (own_trail sl)) (λ '(n, pos, t),
    ∃ r, SearchPost clean h sl hd ps (adv_key h (hd :: ps) e) r t ∧
         n = (hd :: ps) !! S r ∧ pos = wrap64 (Z.of_nat r + 1)).
Proof.
  intros HI Hne. unfold search.
  assert (num sl ≠ 0).
  { rewrite (inv_num _ _ _ _ _ HI). destruct ps; [done|]. simpl. lia. }
  destruct (Z.eqb_spec (num sl) 0); [done|].
  apply wpx_bind. eapply wpx_mono.
  { eapply (wpx_levels clean total h sl hd ps HI (adv_key h (hd :: ps) e)
              (search_cond h e)).
    - intros. by eapply search_cond_link.
    - done.
    - done. }
  simpl. intros s (r & a & cch & pch & -> & Ha & Hcl & Hpl & Hadv & Hfront & Hst).
  destruct (descent_post _ _ _ _ _ _ _ _ _ _ HI Ha Hcl Hpl Hadv Hfront Hst Hne)
    as [Hpost _].
  apply wpx_bind. eapply wpx_get_forward; [by eapply Inv_next0|]. simpl.
  exists r. done.
Qed.

Lemma searchByPosition_cond_link clean h sl hd ps position L r a x w :
  Inv clean h sl hd ps →
  (hd :: ps) !! r = Some a → fw h L a = Some x → wd h L a = Some w →
  link clean (ht h) (hd :: ps) L r x w →
  wpx clean (searchByPosition_cond h position L (Some a, Z.of_nat r)) (λ c,
    match x with
    | Some q => ∀ r', (hd :: ps) !! r' = Some q → c = adv_pos position r'
    | None => c = false ∨ clean = false
    end).
Proof.
  intros HI Ha HF HW Hl. unfold searchByPosition_cond. simpl.
  apply wpx_bind. eapply wpx_get_width; [done|]. simpl.
  destruct x as [q|]; simpl in *.
  - destruct Hl as (r' & Hr' & Hlt & _ & _ & ->).
    intros r'' Hr''.
    assert (r'' = r') as -> by (eapply NoDup_lookup; [apply HI|done..]).
    assert (r' < length (hd :: ps))%nat by (by eapply lookup_lt_Some).
    pose proof (inv_small _ _ _ _ _ HI). simpl in *.
    destruct (Z.eqb_spec (Z.of_nat (r' - r)) 0); [lia|]. simpl.
    rewrite wrap64_small by lia. unfold adv_pos. f_equal. lia.
  - destruct Hl as [_ Hcl]. destruct clean; [|by right].
    left. by rewrite Hcl.
Qed.

(** Search by rank, for a rank within the list. *)
Lemma wpx_searchByPosition clean h sl hd ps position :
  Inv clean h sl hd ps → ps ≠ [] → 0 ≤ position ≤ Z.of_nat (length ps) →
  wpx clean (searchByPosition h sl position (own_trail sl)) (λ '(n, pos, t),
    ∃ r, SearchPost clean h sl hd ps (adv_pos position) r t ∧
         Z.of_nat r = position ∧
         n = (hd :: ps) !! r ∧ pos = wrap64 (Z.of_nat r + 1)).
Proof.
  intros HI Hne Hpos. unfold searchByPosition.
  assert (num sl ≠ 0).
  { rewrite (inv_num _ _ _ _ _ HI). destruct ps; [done|]. simpl. lia. }
  destruct (Z.eqb_spec (num sl) 0); [done|].
  rewrite (inv_num _ _ _ _ _ HI).
  destruct (Z.ltb_spec (Z.of_nat (length ps)) position); [lia|].
  apply wpx_bind. eapply wpx_mono.
  { eapply (wpx_levels clean clean h sl hd ps HI (adv_pos position)
              (searchByPosition_cond h position)).
    - intros. by eapply searchByPosition_cond_link.
    - done.
    - done. }
  simpl. intros s (r & a & cch & pch & -> & Ha & Hcl & Hpl & Hadv & Hfront & Hst).
  destruct (descent_post _ _ _ _ _ _ _ _ _ _ HI Ha Hcl Hpl Hadv Hfront Hst Hne)
    as [Hpost _].
  simpl. exists r. split; [done|]. split; [|done].
  destruct Hpost as (? & ? & _ & _ & Hr & _ & _ & Hstop).
  assert (Z.of_nat r ≤ position).
  { destruct Hadv as [->|Hadv]; [lia|]. by apply Z.leb_le in Hadv. }
  destruct (decide (r = length ps)) as [->|]; [lia|].
  destruct (lookup_lt_is_Some_2 (hd :: ps) (S r)) as [q Hq]; [simpl; lia|].
  specialize (Hstop q Hq). apply Z.leb_gt in Hstop. lia.
Qed.

End Searches.

(** * Insertion of a fresh node *)

Lemma generateLevel_loop_bound fuel lvl bound coins k :
  (1 ≤ lvl ≤ bound)%nat → (bound ≤ 254)%nat →
  (1 ≤ generateLevel_loop fuel lvl bound coins k ≤ bound)%nat.
Proof.
  revert lvl k. induction fuel as [|fuel IH]; intros lvl k Hl Hb; simpl; [done|].
  destruct (Nat.ltb_spec lvl bound); [|done].
  destruct (coins k); [done|]. apply IH; [|done].
  unfold wrap8. rewrite Nat.mod_small; lia.
Qed.

Lemma generateLevel_bound ml coins :
  (2 ≤ ml ≤ 255)%nat → (1 ≤ generateLevel ml coins ≤ ml - 1)%nat.
Proof.
  intros Hml. unfold generateLevel.
  assert (wrap8 (ml + 255) = (ml - 1)%nat) as ->.
  { unfold wrap8. replace (ml + 255)%nat with (ml - 1 + 1 * 256)%nat by lia.
    rewrite Nat.Div0.mod_add. apply Nat.mod_small. lia. }
  apply generateLevel_loop_bound; lia.
Qed.

Lemma wpx_extend total (cch : list ptr) (hd : ptr) lo n :
  (lo + n ≤ length cch)%nat →
  wpx total (for_up n lo (λ i c, upd c i hd) cch) (λ c',
    length c' = length cch ∧
    ∀ i, c' !! i = if decide (lo ≤ i < lo + n)%nat then Some hd else cch !! i).
Proof.
  intros Hlen.
  eapply wpx_mono; [apply (wpx_for_up total (λ j c',
    length c' = length cch ∧
    ∀ i, c' !! i = if decide (lo ≤ i < j)%nat then Some hd else cch !! i))|];
    [| |by intros c' ?].
  - split; [done|]. intros i. by rewrite decide_False by lia.
  - intros j c' Hj [Hl Hc']. unfold upd. rewrite decide_True by lia. simpl.
    rewrite length_insert. split; [done|]. intros i.
    destruct (decide (i = j)) as [->|Hne].
    + rewrite list_lookup_insert_eq by lia. by rewrite decide_True by lia.
    + rewrite list_lookup_insert_ne by done. rewrite Hc'.
      repeat case_decide; try done; lia.
Qed.

Section Fresh.
Context {Entry : Type} {cmp : Comparable Entry}.
Context (clean : bool) (h : list (node (Entry:=Entry))) (sl : SkipList)
  (hd : nat) (ps : list nat) (c : nat) (e : Entry) (lvl : nat)
  (cch : list ptr).
Context (HI : Inv clean h sl hd ps).
Context (Hc : (c ≤ length ps)%nat).
Context (Hsmall : Z.of_nat (length ps) + 1 < 2 ^ 64).
Context (Hlvl : (1 ≤ lvl < maxLevel sl)%nat).
Context (Hcl : length cch = maxLevel sl).
Context (Hfr : Frontier (ht h) (hd :: ps) cch (posCache sl) c
                 (level sl `max` lvl)).

Local Abbreviation h1 := (h ++ [newNode (Some e) lvl]).
Local Abbreviation nn := (length h).
Local Abbreviation sq := (hd :: ps).
Local Abbreviation sq' := (take (S c) (hd :: ps) ++ length h :: drop (S c) (hd :: ps)).
Local Abbreviation sl' :=
  (MkSkipList (maxLevel sl) (level sl `max` lvl) (head sl)
     (wrap64 (num sl + 1)) cch (posCache sl)).

Lemma fresh_not_in : nn ∉ sq.
Proof.
  intros Hin. apply (Inv_ht_pos _ _ _ _ _ _ HI), ht_lt_length in Hin. lia.
Qed.

Lemma fresh_h1 :
  heap_ok h1 ∧ length h1 = S (length h) ∧ ht h1 nn = lvl ∧
  entry_at h1 nn = Some e ∧
  (∀ L, (L < lvl)%nat → fw h1 L nn = Some None ∧ wd h1 L nn = Some 0) ∧
  (∀ a, a ≠ nn → ht h1 a = ht h a ∧ entry_at h1 a = entry_at h a ∧
                 ∀ L, fw h1 L a = fw h L a ∧ wd h1 L a = wd h L a).
Proof.
  destruct (alloc_spec h (Some e) lvl (inv_heap _ _ _ _ _ HI))
    as (_ & ? & ? & ? & ? & ? & ?). done.
Qed.

Lemma fresh_old a : a ∈ sq → a ≠ nn.
Proof. intros Ha ->. by apply fresh_not_in. Qed.

Lemma fresh_LevelOK L : LevelOK clean (fw h1 L) (wd h1 L) (ht h1) sq L.
Proof.
  destruct fresh_h1 as (_ & _ & _ & _ & _ & Hold).
  eapply LevelOK_ext_ht; [|apply (inv_links _ _ _ _ _ HI L)].
  intros a Ha%fresh_old. destruct (Hold a Ha) as (? & ? & HL).
  by destruct (HL L) as [-> ->].
Qed.

Lemma fresh_frontier L :
  (L < level sl `max` lvl)%nat →
  ∃ cL a, (cL ≤ c)%nat ∧ sq !! cL = Some a ∧ (L < ht h1 a)%nat ∧ a ≠ nn ∧
    cch !! L = Some (Some a) ∧ posCache sl !! L = Some (Z.of_nat cL) ∧
    (∀ j b, (cL < j ≤ c)%nat → sq !! j = Some b → (ht h1 b ≤ L)%nat).
Proof.
  intros HL. destruct (Hfr L HL) as (cL & a & ? & Ha & ? & ? & ? & Hlow).
  destruct fresh_h1 as (_ & _ & _ & _ & _ & Hold).
  assert (a ≠ nn) by (apply fresh_old; by eapply list_elem_of_lookup_2).
  exists cL, a. destruct (Hold a) as (-> & _); [done|].
  do 6 (split; [done|]). intros j b Hj Hb.
  destruct (Hold b) as (-> & _);
    [apply fresh_old; by eapply list_elem_of_lookup_2|]. by eapply Hlow.
Qed.

Lemma splice_step hc i :
  (i < lvl)%nat → LevelsDone clean h1 hc sq' i →
  wpx true (splice_level sl' (Some nn) (Z.of_nat c + 1) i hc)
    (λ hc', LevelsDone clean h1 hc' sq' (S i)).
Proof.
  intros Hi (Hlen & Hok & Hht & Hent & Hdone & Htodo).
  destruct (fresh_frontier i ltac:(lia))
    as (cL & a & HcL & Ha & HhtA & Hann & Hcch & Hpch & Hlow).
  destruct fresh_h1 as (_ & _ & Hhtnn & _ & Hnew & _).
  destruct (fresh_LevelOK i cL a Ha HhtA) as (x & w & HFa & HWa & Hla).
  unfold splice_level. simpl.
  apply wpx_bind. eapply wpx_idx; [done|].
  apply wpx_bind. eapply wpx_get_forward.
  { destruct (Htodo i a ltac:(lia)) as [-> _]. done. }
  apply wpx_bind. apply wpx_set_forward; [rewrite Hht; lia|]. intros hc1 U1.
  apply wpx_bind. apply wpx_set_forward.
  { rewrite (hu_ht _ _ _ _ _ U1), Hht. done. }
  intros hc2 U2.
  assert (Hok2 : heap_ok hc2) by (apply U2, U1, Hok).
  assert (Hht2 : ∀ b, ht hc2 b = ht h1 b).
  { intros b. by rewrite (hu_ht _ _ _ _ _ U2), (hu_ht _ _ _ _ _ U1). }
  assert (HW2 : ∀ L b, wd hc2 L b = wd hc L b).
  { intros L b. by rewrite (hu_wd _ _ _ _ _ U2), (hu_wd _ _ _ _ _ U1). }
  apply wpx_bind. eapply wpx_get_width.
  { rewrite HW2. destruct (Htodo i a ltac:(lia)) as [_ ->]. done. }
  set (v := if w =? 0 then 0
            else wrap64 (Z.of_nat cL + w + 1 - Z.of_nat (S c))).
  apply wpx_bind.
  apply (wpx_mono _ _ (λ hc3, heap_upd hc2 hc3 (fw hc2)
            (λ L' a', if decide (a' = nn ∧ L' = i) then Some v
                      else wd hc2 L' a') (entry_at hc2))).
  { unfold v. destruct (w =? 0).
    - apply wpx_set_width; [done|rewrite Hht2; lia|done].
    - apply wpx_bind. eapply wpx_idx; [done|].
      replace (Z.of_nat c + 1) with (Z.of_nat (S c)) by lia.
      apply wpx_set_width; [done|rewrite Hht2; lia|done]. }
  intros hc3 U3.
  assert (HF3 : ∀ L b, fw hc3 L b =
            if decide (b = a ∧ L = i) then Some (Some nn)
            else if decide (b = nn ∧ L = i) then Some x
            else fw hc L b).
  { intros L b. rewrite (hu_fw _ _ _ _ _ U3), (hu_fw _ _ _ _ _ U2).
    case_decide; [done|]. by rewrite (hu_fw _ _ _ _ _ U1). }
  apply wpx_bind. eapply wpx_get_forward.
  { rewrite HF3. by rewrite decide_True. }
  apply wpx_bind. eapply wpx_idx; [done|].
  apply wpx_set_width; [apply U3, Hok2|
    by rewrite (hu_ht _ _ _ _ _ U3), Hht2|].
  intros hc4 U4.
  split; [|split; [|split; [|split; [|split]]]].
  - by rewrite (hu_length _ _ _ _ _ U4), (hu_length _ _ _ _ _ U3),
      (hu_length _ _ _ _ _ U2), (hu_length _ _ _ _ _ U1).
  - apply U4, U3, Hok2.
  - intros b. by rewrite (hu_ht _ _ _ _ _ U4), (hu_ht _ _ _ _ _ U3), Hht2.
  - intros b. by rewrite (hu_entry _ _ _ _ _ U4), (hu_entry _ _ _ _ _ U3),
      (hu_entry _ _ _ _ _ U2), (hu_entry _ _ _ _ _ U1).
  - intros L HL. destruct (decide (L = i)) as [->|Hne].
    + pose proof (inv_nodup _ _ _ _ _ HI). pose proof fresh_not_in.
      eapply (LevelOK_splice clean (ht h1) i (fw h1 i) (wd h1 i) _ _ sq c cL a nn x w);
        try done.
      * simpl. lia.
      * pose proof (inv_small _ _ _ _ _ HI). simpl. lia.
      * apply fresh_LevelOK.
      * lia.
      * rewrite (hu_fw _ _ _ _ _ U4), HF3.
        rewrite decide_False by (intros [? _]; done).
        by rewrite decide_True.
      * rewrite (hu_fw _ _ _ _ _ U4), HF3. by rewrite decide_True.
      * intros b Hb1 Hb2. rewrite (hu_fw _ _ _ _ _ U4), HF3.
        rewrite !decide_False by (intros [? _]; done).
        by destruct (Htodo i b ltac:(lia)) as [-> _].
      * rewrite (hu_wd _ _ _ _ _ U4).
        rewrite decide_False by (intros [? _]; done).
        rewrite (hu_wd _ _ _ _ _ U3). by rewrite decide_True.
      * rewrite (hu_wd _ _ _ _ _ U4). rewrite decide_True by done.
        do 2 f_equal. lia.
      * intros b Hb1 Hb2. rewrite (hu_wd _ _ _ _ _ U4).
        rewrite decide_False by (intros [? _]; done).
        rewrite (hu_wd _ _ _ _ _ U3).
        rewrite decide_False by (intros [? _]; done).
        rewrite HW2. by destruct (Htodo i b ltac:(lia)) as [_ ->].
    + eapply LevelOK_ext; [|apply Hdone; lia].
      intros b _. rewrite (hu_fw _ _ _ _ _ U4), HF3.
      rewrite !decide_False by (intros [_ ?]; done).
      rewrite (hu_wd _ _ _ _ _ U4).
      rewrite decide_False by (intros [_ ?]; done).
      rewrite (hu_wd _ _ _ _ _ U3).
      rewrite decide_False by (intros [_ ?]; done).
      by rewrite HW2.
  - intros L b HL. rewrite (hu_fw _ _ _ _ _ U4), HF3.
    rewrite !decide_False by (intros [_ ?]; lia).
    rewrite (hu_wd _ _ _ _ _ U4).
    rewrite decide_False by (intros [_ ?]; lia).
    rewrite (hu_wd _ _ _ _ _ U3).
    rewrite decide_False by (intros [_ ?]; lia).
    rewrite HW2. apply Htodo. lia.
Qed.

Lemma widen_step hc i :
  (lvl ≤ i < level sl `max` lvl)%nat → LevelsDone clean h1 hc sq' i →
  wpx true (widen_level sl' i hc) (λ hc', LevelsDone clean h1 hc' sq' (S i)).
Proof.
  intros Hi (Hlen & Hok & Hht & Hent & Hdone & Htodo).
  destruct (fresh_frontier i ltac:(lia))
    as (cL & a & HcL & Ha & HhtA & Hann & Hcch & Hpch & Hlow).
  destruct fresh_h1 as (_ & _ & Hhtnn & _ & Hnew & _).
  destruct (fresh_LevelOK i cL a Ha HhtA) as (x & w & HFa & HWa & Hla).
  pose proof (inv_nodup _ _ _ _ _ HI) as Hnd. pose proof fresh_not_in as Hnn.
  pose proof (inv_small _ _ _ _ _ HI) as Hsm.
  assert (Hstep : ∀ hc', length hc' = length hc → heap_ok hc' →
            (∀ b, ht hc' b = ht hc b) → (∀ b, entry_at hc' b = entry_at hc b) →
            (∀ L b, fw hc' L b = fw hc L b) →
            (∀ L b, wd hc' L b =
               if decide (b = a ∧ L = i)
               then Some (if x is Some _ then wrap64 (w + 1) else w)
               else wd hc L b) →
            LevelsDone clean h1 hc' sq' (S i)).
  { intros hc' Hl' Hok' Hht' Hent' HF' HW'.
    split; [congruence|]. split; [done|].
    split; [intros b; by rewrite Hht'|]. split; [intros b; by rewrite Hent'|].
    split.
    - intros L HL. destruct (decide (L = i)) as [->|Hne].
      + eapply (LevelOK_widen clean (ht h1) i (fw h1 i) (wd h1 i) _ _ sq c cL a nn x w);
          try done.
        * simpl. lia.
        * simpl. lia.
        * apply fresh_LevelOK.
        * lia.
        * intros b _. rewrite HF'. by destruct (Htodo i b ltac:(lia)) as [-> _].
        * rewrite HW'. by rewrite decide_True.
        * intros b _ Hb. rewrite HW'. rewrite decide_False by (intros [? _]; done).
          by destruct (Htodo i b ltac:(lia)) as [_ ->].
      + eapply LevelOK_ext; [|apply Hdone; lia].
        intros b _. rewrite HF', HW'. by rewrite decide_False by (intros [_ ?]; done).
    - intros L b HL. rewrite HF', HW'.
      rewrite decide_False by (intros [_ ?]; lia). apply Htodo. lia. }
  unfold widen_level. simpl.
  apply wpx_bind. eapply wpx_idx; [done|].
  apply wpx_bind. eapply wpx_get_forward.
  { destruct (Htodo i a ltac:(lia)) as [-> _]. done. }
  destruct x as [q|].
  - apply wpx_bind. eapply wpx_get_width.
    { destruct (Htodo i a ltac:(lia)) as [_ ->]. done. }
    apply wpx_set_width; [done|by rewrite Hht|]. intros hc' U.
    apply Hstep; [apply U|by apply U|apply U|apply U|apply U|apply U].
  - simpl. apply Hstep; try done. intros L b. case_decide as Hd; [|done].
    destruct Hd as [-> ->]. by destruct (Htodo i a ltac:(lia)) as [_ ->].
Qed.

Lemma fresh_start : LevelsDone clean h1 h1 sq' 0.
Proof.
  destruct fresh_h1 as (? & _). split; [done|]. split; [done|].
  split; [done|]. split; [done|]. split; [intros; lia|done].
Qed.

(** Once every active level is done the new heap represents the new
    sequence. *)
Lemma fresh_Inv hc :
  LevelsDone clean h1 hc sq' (level sl `max` lvl) →
  Inv clean hc sl' hd (take c ps ++ nn :: drop c ps).
Proof.
  intros (Hlen & Hok & Hht & Hent & Hdone & Htodo).
  destruct fresh_h1 as (_ & _ & Hhtnn & Hentn & Hnew & Hold).
  pose proof (inv_nodup _ _ _ _ _ HI) as Hnd. pose proof fresh_not_in as Hnn.
  pose proof (inv_small _ _ _ _ _ HI) as Hsm.
  pose proof (inv_level _ _ _ _ _ HI) as Hlv.
  assert (Hhd : hd ≠ nn) by (apply fresh_old; left).
  assert (Hps : ∀ a, a ∈ ps → a ≠ nn) by (intros a Ha; apply fresh_old; by right).
  assert (Hsq' : hd :: (take c ps ++ nn :: drop c ps) = sq') by done.
  assert (Hcps : length (take c ps ++ nn :: drop c ps) = S (length ps)).
  { rewrite length_app, length_take. simpl. rewrite length_drop. lia. }
  split; simpl.
  - apply HI.
  - done.
  - rewrite Hsq'. rewrite <- Permutation_middle, take_drop.
    apply NoDup_cons. done.
  - rewrite Hht. destruct (Hold hd Hhd) as (-> & _). apply HI.
  - rewrite Hent. destruct (Hold hd Hhd) as (_ & -> & _). apply HI.
  - intros a Ha. rewrite <- Permutation_middle, take_drop in Ha.
    rewrite Hht. apply elem_of_cons in Ha as [->|Ha]; [lia|].
    destruct (Hold a (Hps a Ha)) as (-> & _).
    pose proof (inv_ht _ _ _ _ _ HI a Ha). lia.
  - intros a Ha. rewrite <- Permutation_middle, take_drop in Ha.
    rewrite Hent. apply elem_of_cons in Ha as [->|Ha]; [by rewrite Hentn|].
    destruct (Hold a (Hps a Ha)) as (_ & -> & _).
    by apply (inv_entry _ _ _ _ _ HI).
  - lia.
  - apply HI.
  - done.
  - apply HI.
  - rewrite (inv_num _ _ _ _ _ HI), Hcps. rewrite wrap64_small; lia.
  - rewrite Hcps. lia.
  - intros L. rewrite Hsq'.
    destruct (decide (L < level sl `max` lvl)%nat) as [HL|HL].
    { eapply LevelOK_ext_ht; [|by apply Hdone].
      intros a _. by rewrite Hht. }
    eapply (LevelOK_ext_ht _ _ (fw h1 L) (wd h1 L) (ht h1)).
    { intros a _. rewrite Hht. by destruct (Htodo L a ltac:(lia)) as [-> ->]. }
    assert (Hlow : ∀ j b, (0 < j)%nat → sq !! j = Some b → (ht h1 b ≤ L)%nat).
    { intros j b Hj Hb. pose proof (Inv_lookup_ht _ _ _ _ _ j b HI Hj Hb).
      destruct (Hold b) as (-> & _);
        [apply fresh_old; by eapply list_elem_of_lookup_2|]. lia. }
    destruct (decide (L < maxLevel sl)%nat) as [HLm|HLm].
    + assert (Hhthd : (L < ht h1 hd)%nat).
      { destruct (Hold hd Hhd) as (-> & _).
        by rewrite (inv_hd_ht _ _ _ _ _ HI). }
      destruct (LevelOK_top_inv clean (ht h1) L (fw h1 L) (wd h1 L) sq hd
                  eq_refl Hhthd Hlow (fresh_LevelOK L)) as (HF & w & HW & _).
      eapply (LevelOK_widen clean (ht h1) L (fw h1 L) (wd h1 L) _ _ sq c O hd nn None w);
        try done.
      * simpl. lia.
      * simpl. lia.
      * apply fresh_LevelOK.
      * lia.
      * lia.
      * intros j b Hj. apply Hlow. lia.
    + apply LevelOK_none. intros a Ha.
      rewrite <- Permutation_middle, take_drop in Ha.
      apply elem_of_cons in Ha as [->|[->|Ha]%elem_of_cons]; [lia| |].
      * destruct (Hold hd Hhd) as (-> & _).
        rewrite (inv_hd_ht _ _ _ _ _ HI). lia.
      * destruct (Hold a (Hps a Ha)) as (-> & _).
        pose proof (inv_ht _ _ _ _ _ HI a Ha). lia.
  - intros i Hi. apply HI. lia.
  - intros Hnil. apply (f_equal length) in Hnil. rewrite Hcps in Hnil. done.
Qed.

End Fresh.

Section InsertNode.
Context {Entry : Type} {cmp : Comparable Entry}.
Implicit Types (h : list (node (Entry:=Entry))) (sl : SkipList).

Lemma wpx_insertNode_fresh clean h sl hd ps c n e allowDup coins :
  Inv clean h sl hd ps → (c ≤ length ps)%nat →
  Frontier (ht h) (hd :: ps) (cache sl) (posCache sl) c (level sl) →
  Z.of_nat (length ps) + 1 < 2 ^ 64 →
  (allowDup = true ∨ n = None ∨
   ∃ a x, n = Some a ∧ entry_at h a = Some x ∧ Compare x e ≠ 0) →
  wpx true (insertNode h sl n e (Z.of_nat c + 1) allowDup coins)
    (λ '(h', sl', o),
       o = None ∧ Inv clean h' sl' hd (take c ps ++ length h :: drop c ps) ∧
       length h' = S (length h) ∧ entry_at h' (length h) = Some e ∧
       (∀ a, a ≠ length h → entry_at h' a = entry_at h a) ∧
       head sl' = head sl ∧ maxLevel sl' = maxLevel sl).
Proof.
  intros HI Hc Hfr Hsmall Hfresh. unfold insertNode.
  apply wpx_bind.
  apply (wpx_mono _ _ (λ b, b = false)).
  { destruct allowDup; [done|]. destruct Hfresh as [?|[->|Hn]]; [done..|].
    destruct Hn as (a & x & -> & Hx & Hcmp).
    apply wpx_bind. eapply wpx_node_compare; [done|]. simpl.
    by apply Z.eqb_neq. }
  intros ? ->.
  pose proof (inv_level _ _ _ _ _ HI) as Hlv.
  pose proof (inv_max _ _ _ _ _ HI) as Hmx.
  pose proof (generateLevel_bound (maxLevel sl) coins ltac:(lia)) as Hgen.
  set (lvl := generateLevel (maxLevel sl) coins) in *.
  apply wpx_bind.
  apply (wpx_mono _ _ (λ cl : list ptr * nat,
    cl.2 = (level sl `max` lvl)%nat ∧ length cl.1 = maxLevel sl ∧
    Frontier (ht h) (hd :: ps) cl.1 (posCache sl) c (level sl `max` lvl))).
  { destruct (Nat.ltb_spec (level sl) lvl) as [Hlt|Hge].
    - apply wpx_bind. eapply wpx_mono.
      { apply wpx_extend. rewrite (inv_cache _ _ _ _ _ HI). lia. }
      simpl. intros cch [Hlen Hcch]. split; [lia|].
      split; [by rewrite Hlen, (inv_cache _ _ _ _ _ HI)|].
      intros L HL. destruct (decide (L < level sl)%nat) as [HLl|HLl].
      + destruct (Hfr L HLl) as (cL & a & ? & ? & ? & ? & ? & ?).
        exists cL, a. rewrite Hcch. rewrite decide_False by lia. done.
      + exists O, hd. split; [lia|]. split; [done|].
        rewrite (inv_hd_ht _ _ _ _ _ HI). split; [lia|].
        rewrite Hcch. rewrite decide_True by lia.
        rewrite (inv_head _ _ _ _ _ HI). split; [done|].
        split; [apply (inv_stale _ _ _ _ _ HI); lia|].
        intros j b Hj Hb.
        pose proof (Inv_lookup_ht _ _ _ _ _ j b HI ltac:(lia) Hb). lia.
    - simpl. split; [lia|]. split; [apply HI|].
      by replace (level sl `max` lvl)%nat with (level sl) by lia. }
  intros [cch lvl'] (Hl' & Hcl & Hfr'). simpl in Hl', Hcl, Hfr'. subst lvl'.
  simpl.
  apply wpx_bind. eapply wpx_mono.
  { apply (wpx_for_up true
      (λ i hc, LevelsDone clean (h ++ [newNode (Some e) lvl]) hc
         (take (S c) (hd :: ps) ++ length h :: drop (S c) (hd :: ps)) i)).
    - eapply (fresh_start clean h sl hd ps c e lvl cch); try done; lia.
    - intros i hc Hi Hdone.
      eapply (splice_step clean h sl hd ps c e lvl cch); try done; lia. }
  simpl. intros h2 Hh2.
  apply wpx_bind. eapply wpx_mono.
  { apply (wpx_for_up true
      (λ i hc, LevelsDone clean (h ++ [newNode (Some e) lvl]) hc
         (take (S c) (hd :: ps) ++ length h :: drop (S c) (hd :: ps)) i)).
    - exact Hh2.
    - intros i hc Hi Hdone.
      eapply (widen_step clean h sl hd ps c e lvl cch); try done; lia. }
  simpl. intros h3 Hh3.
  replace (lvl + (level sl `max` lvl - lvl))%nat
    with (level sl `max` lvl)%nat in Hh3 by lia.
  split; [done|]. split.
  { eapply (fresh_Inv clean h sl hd ps c e lvl cch); try done; lia. }
  destruct Hh3 as (Hlen & _ & _ & Hent & _).
  destruct (fresh_h1 clean h sl hd ps e lvl HI) as (_ & Hl1 & _ & He1 & _ & Hold).
  split; [congruence|]. split; [by rewrite Hent|]. split; [|done].
  intros a Ha. rewrite Hent. by destruct (Hold a Ha) as (_ & -> & _).
Qed.

End InsertNode.

(** * Deletion *)

Section Steps.
Context {Entry : Type} {cmp : Comparable Entry}.
Implicit Types (h : list (node (Entry:=Entry))).

Lemma LevelsDone_start clean h sq' : heap_ok h → LevelsDone clean h h sq' 0.
Proof.
  intros Hok. split; [done|]. split; [done|]. split; [done|].
  split; [done|]. split; [intros; lia|done].
Qed.

(** One more level done: the heap changed at level [i] only, and there
    it now represents the new sequence. *)
Lemma LevelsDone_step clean h0 hc hc' sq' i :
  LevelsDone clean h0 hc sq' i →
  length hc' = length hc → heap_ok hc' →
  (∀ b, ht hc' b = ht hc b) → (∀ b, entry_at hc' b = entry_at hc b) →
  (∀ L b, L ≠ i → fw hc' L b = fw hc L b ∧ wd hc' L b = wd hc L b) →
  LevelOK clean (fw hc' i) (wd hc' i) (ht h0) sq' i →
  LevelsDone clean h0 hc' sq' (S i).
Proof.
  intros (Hlen & Hok & Hht & Hent & Hdone & Htodo) Hl' Hok' Hht' Hent' Hfr Hi.
  split; [congruence|]. split; [done|].
  split; [intros b; by rewrite Hht'|]. split; [intros b; by rewrite Hent'|].
  split.
  - intros L HL. destruct (decide (L = i)) as [->|Hne]; [done|].
    eapply LevelOK_ext; [|apply Hdone; lia].
    intros b _. by apply Hfr.
  - intros L b HL. destruct (Hfr L b ltac:(lia)) as [-> ->]. apply Htodo. lia.
Qed.

End Steps.

Section Unlink.
Context {Entry : Type} {cmp : Comparable Entry}.
Context (clean : bool) (h : list (node (Entry:=Entry))) (sl : SkipList)
  (hd : nat) (ps : list nat) (c q : nat).
Context (HI : Inv clean h sl hd ps).
Context (Hq : (hd :: ps) !! S c = Some q).
Context (Hfr : Frontier (ht h) (hd :: ps) (cache sl) (posCache sl) c
                 (S (level sl))).

Local Abbreviation sq := (hd :: ps).
Local Abbreviation sq' := (take (S c) (hd :: ps) ++ drop (S (S c)) (hd :: ps)).

Lemma unlink_step hc i :
  (i ≤ level sl)%nat → LevelsDone false h hc sq' i →
  wpx true (unlink_level sl (Some q) i hc)
    (λ hc', LevelsDone false h hc' sq' (S i)).
Proof.
  intros Hi Hdone. pose proof Hdone as (Hlen & Hok & Hht & Hent & _ & Htodo).
  destruct (Hfr i ltac:(lia)) as (cL & a & HcL & Ha & HhtA & Hcch & Hpch & Hlow).
  pose proof (inv_nodup _ _ _ _ _ HI) as Hnd.
  pose proof (inv_small _ _ _ _ _ HI) as Hsm.
  destruct (inv_links _ _ _ _ _ HI i cL a Ha HhtA) as (x & w & HFa & HWa & Hla).
  pose proof (frontier_next_victim clean (ht h) i _ _ sq c cL a q Hnd
                (inv_links _ _ _ _ _ HI i) Hq HcL Ha HhtA Hlow) as Hvic.
  assert (Haq : a ≠ q).
  { intros ->. assert (cL = S c) by (by eapply NoDup_lookup). lia. }
  unfold unlink_level.
  apply wpx_bind. eapply wpx_idx; [done|].
  apply wpx_bind. eapply wpx_get_forward.
  { destruct (Htodo i a ltac:(lia)) as [-> _]. done. }
  case_decide as Hx.
  - (* the victim is jumped over at this level *)
    assert (Hhq : (ht h q ≤ i)%nat).
    { destruct (decide (ht h q ≤ i)%nat); [done|]. exfalso. apply Hx.
      assert (fw h i a = Some (Some q)) by (apply Hvic; lia). congruence. }
    assert (Hstep : ∀ hc', length hc' = length hc → heap_ok hc' →
              (∀ b, ht hc' b = ht hc b) →
              (∀ b, entry_at hc' b = entry_at hc b) →
              (∀ L b, fw hc' L b = fw hc L b) →
              (∀ L b, wd hc' L b =
                 if decide (b = a ∧ L = i)
                 then Some (if x is Some _ then wrap64 (w - 1) else w)
                 else wd hc L b) →
              LevelsDone false h hc' sq' (S i)).
    { intros hc' Hl' Hok' Hht' Hent' HF' HW'.
      eapply LevelsDone_step; try done.
      - intros L b HL. rewrite HF', HW'.
        by rewrite decide_False by (intros [_ ?]; done).
      - eapply (LevelOK_skip clean (ht h) i (fw h i) (wd h i) _ _ sq c cL a q x w);
          try done.
        + simpl in *. lia.
        + apply HI.
        + intros b _. rewrite HF'. by destruct (Htodo i b ltac:(lia)) as [-> _].
        + rewrite HW'. by rewrite decide_True.
        + intros b Hb _. rewrite HW'.
          rewrite decide_False by (intros [? _]; done).
          by destruct (Htodo i b ltac:(lia)) as [_ ->]. }
    destruct x as [y|].
    + apply wpx_bind. eapply wpx_get_width.
      { destruct (Htodo i a ltac:(lia)) as [_ ->]. done. }
      apply wpx_set_width; [done|by rewrite Hht|]. intros hc' U.
      apply Hstep; [apply U|by apply U|apply U|apply U|apply U|apply U].
    + simpl. apply Hstep; try done. intros L b. case_decide as Hd; [|done].
      destruct Hd as [-> ->]. by destruct (Htodo i a ltac:(lia)) as [_ ->].
  - (* the victim is linked at this level *)
    assert (x = Some q) as -> by (by destruct (decide (x = Some q))).
    assert (Hhq : (i < ht h q)%nat) by (by apply Hvic).
    destruct (inv_links _ _ _ _ _ HI i (S c) q Hq Hhq)
      as (xn & wn & HFq & HWq & Hlq).
    apply wpx_bind. eapply wpx_get_width.
    { destruct (Htodo i a ltac:(lia)) as [_ ->]. done. }
    apply wpx_bind. eapply wpx_get_width.
    { destruct (Htodo i q ltac:(lia)) as [_ ->]. done. }
    apply wpx_bind. apply wpx_set_width; [done|by rewrite Hht|]. intros hc1 U1.
    apply wpx_bind. eapply wpx_get_forward.
    { rewrite (hu_fw _ _ _ _ _ U1).
      destruct (Htodo i q ltac:(lia)) as [-> _]. done. }
    apply wpx_set_forward; [by rewrite (hu_ht _ _ _ _ _ U1), Hht|].
    intros hc2 U2.
    eapply LevelsDone_step; try done.
    + by rewrite (hu_length _ _ _ _ _ U2), (hu_length _ _ _ _ _ U1).
    + apply U2, U1, Hok.
    + intros b. by rewrite (hu_ht _ _ _ _ _ U2), (hu_ht _ _ _ _ _ U1).
    + intros b. by rewrite (hu_entry _ _ _ _ _ U2), (hu_entry _ _ _ _ _ U1).
    + intros L b HL. rewrite (hu_fw _ _ _ _ _ U2), (hu_wd _ _ _ _ _ U2).
      rewrite decide_False by (intros [_ ?]; done).
      rewrite (hu_fw _ _ _ _ _ U1), (hu_wd _ _ _ _ _ U1).
      by rewrite decide_False by (intros [_ ?]; done).
    + eapply (LevelOK_unlink clean (ht h) i (fw h i) (wd h i) _ _ sq c cL a q xn wn w);
        try done.
      * simpl in *. lia.
      * apply HI.
      * rewrite (hu_fw _ _ _ _ _ U2). by rewrite decide_True.
      * rewrite (hu_wd _ _ _ _ _ U2), (hu_wd _ _ _ _ _ U1).
        by rewrite decide_True.
      * intros b Hb1 Hb2. rewrite (hu_fw _ _ _ _ _ U2), (hu_wd _ _ _ _ _ U2).
        rewrite decide_False by (intros [? _]; done).
        rewrite (hu_fw _ _ _ _ _ U1), (hu_wd _ _ _ _ _ U1).
        rewrite decide_False by (intros [? _]; done).
        by destruct (Htodo i b ltac:(lia)) as [-> ->].
Qed.

Lemma victim_middle : take (S c) sq ++ q :: drop (S (S c)) sq = sq.
Proof. by apply take_drop_middle. Qed.

Lemma victim_in a : a ∈ sq' → a ∈ sq.
Proof.
  intros Ha. rewrite <- victim_middle.
  apply elem_of_app in Ha as [?|?]; apply elem_of_app; [by left|].
  right. by right.
Qed.

Lemma victim_nodup : NoDup sq'.
Proof.
  pose proof (inv_nodup _ _ _ _ _ HI) as Hnd.
  rewrite <- victim_middle, <- Permutation_middle in Hnd.
  by apply NoDup_cons in Hnd as [_ ?].
Qed.

Lemma victim_length : length sq = S (length sq').
Proof.
  rewrite <- victim_middle at 1. rewrite !length_app. simpl. lia.
Qed.

Lemma victim_tail_ht j b :
  (0 < j)%nat → sq' !! j = Some b → (1 ≤ ht h b ≤ level sl)%nat.
Proof.
  intros Hj Hb. assert (Hc : (c < length sq)%nat).
  { apply lookup_lt_Some in Hq. lia. }
  rewrite lookup_del in Hb by done. case_decide.
  - by eapply Inv_lookup_ht.
  - eapply (Inv_lookup_ht _ _ _ _ _ (S j)); [done|lia|done].
Qed.

(** After the unlinking loop every level represents the shorter list. *)
Lemma unlinked_all hc L :
  LevelsDone false h hc sq' (S (level sl)) →
  LevelOK false (fw hc L) (wd hc L) (ht h) sq' L.
Proof.
  intros (_ & _ & _ & _ & Hdone & Htodo).
  destruct (decide (L < S (level sl))%nat) as [HL|HL]; [by apply Hdone|].
  eapply (LevelOK_ext _ _ _ (fw h L) (wd h L)).
  { intros a _. by destruct (Htodo L a ltac:(lia)) as [-> ->]. }
  eapply (LevelOK_above false (ht h) L _ _ sq sq' hd); [done|done| | | |].
  - apply victim_nodup.
  - intros j b Hj Hb. pose proof (Inv_lookup_ht _ _ _ _ _ j b HI Hj Hb). lia.
  - intros j b Hj Hb. pose proof (victim_tail_ht j b Hj Hb). lia.
  - eapply LevelOK_weaken. apply (inv_links _ _ _ _ _ HI).
Qed.

(** The invariant of the loop that lowers [level] after a deletion. *)
Lemma wpx_shrink hc :
  LevelsDone false h hc sq' (S (level sl)) →
  wpx true (while 257 (shrink_cond (Some hd)) (shrink_step (Some hd))
              (hc, level sl))
    (λ s, Inv false s.1
            (MkSkipList (maxLevel sl) s.2 (Some hd) (wrap64 (num sl - 1))
               (cache sl) (posCache sl))
            hd (take c ps ++ drop (S c) ps) ∧
          length s.1 = length h ∧ ∀ a, entry_at s.1 a = entry_at h a).
Proof.
  intros Hdone. pose proof Hdone as (Hlen & Hok & Hht & Hent & _ & _).
  pose proof (inv_level _ _ _ _ _ HI) as Hlv.
  assert (Hc : (c < length sq)%nat).
  { apply lookup_lt_Some in Hq. lia. }
  assert (Hqps : q ∈ ps).
  { simpl in Hq. by eapply list_elem_of_lookup_2. }
  pose proof (inv_ht _ _ _ _ _ HI q Hqps) as Hhq.
  set (K := λ s : list node * nat,
    length s.1 = length h ∧ heap_ok s.1 ∧
    (∀ a, ht s.1 a = ht h a) ∧ (∀ a, entry_at s.1 a = entry_at h a) ∧
    (∀ L, LevelOK false (fw s.1 L) (wd s.1 L) (ht h) sq' L) ∧
    (1 ≤ s.2 ≤ level sl)%nat ∧
    (∀ j b, (0 < j)%nat → sq' !! j = Some b → (ht h b ≤ s.2)%nat)).
  eapply wpx_mono; [apply (wpx_while true K snd K)|].
  - unfold K. simpl. split; [done|]. split; [done|]. split; [done|]. split; [done|].
    split; [intros L; by apply unlinked_all|]. simpl. split; [lia|].
    intros j b Hj Hb. pose proof (victim_tail_ht j b Hj Hb). lia.
  - simpl. lia.
  - intros [hcur lv] (Hl & Hk & Hh & He & Hall & Hlvb & Hlow). simpl in *.
    unfold shrink_cond. simpl.
    destruct (Nat.ltb_spec 1 lv) as [Hlt|Hge]; [|done].
    assert (Hhd : (lv - 1 < ht h hd)%nat).
    { rewrite (inv_hd_ht _ _ _ _ _ HI). lia. }
    destruct (Hall (lv - 1)%nat O hd eq_refl Hhd) as (x & w & HF & HW & Hl1).
    apply wpx_bind. eapply wpx_get_forward; [done|]. simpl.
    case_bool_decide as Hx; [|done]. subst x. simpl in Hl1.
    destruct Hl1 as [Hlow1 _].
    unfold shrink_step. simpl.
    apply wpx_bind. apply wpx_set_width; [done| |].
    { rewrite Hh, (inv_hd_ht _ _ _ _ _ HI). lia. }
    intros h' U. unfold K. simpl. split; [|lia].
    split; [by rewrite (hu_length _ _ _ _ _ U)|]. split; [by apply U|].
    split; [intros a; by rewrite (hu_ht _ _ _ _ _ U)|].
    split; [intros a; by rewrite (hu_entry _ _ _ _ _ U)|].
    split; [|split; [lia|]].
    + intros L. destruct (decide (L = lv)) as [->|Hne].
      * assert (Hhd' : (lv < ht h hd)%nat).
        { rewrite (inv_hd_ht _ _ _ _ _ HI). lia. }
        destruct (LevelOK_top_inv false (ht h) lv _ _ sq' hd eq_refl Hhd'
                    Hlow (Hall lv)) as (HF' & w' & HW' & _).
        eapply (LevelOK_top false (ht h) lv _ _ sq' hd 0);
          [apply victim_nodup|done|done| | |done].
        -- by rewrite (hu_fw _ _ _ _ _ U).
        -- rewrite (hu_wd _ _ _ _ _ U). by rewrite decide_True.
      * eapply LevelOK_ext; [|apply Hall].
        intros a _. rewrite (hu_fw _ _ _ _ _ U), (hu_wd _ _ _ _ _ U).
        by rewrite decide_False by (intros [_ ?]; done).
    + intros j b Hj Hb. by apply (Hlow1 j b).
  - intros [hcur lv] (Hl & Hk & Hh & He & Hall & Hlvb & Hlow). simpl in *.
    split; [|done].
    assert (Hps' : ∀ a, a ∈ take c ps ++ drop (S c) ps →
              ∃ j, (0 < j)%nat ∧ sq' !! j = Some a).
    { intros a [j Hj]%list_elem_of_lookup_1. exists (S j). split; [lia|done]. }
    pose proof victim_length as Hvl. simpl in Hvl.
    split; simpl.
    + done.
    + done.
    + apply victim_nodup.
    + rewrite Hh. apply HI.
    + rewrite He. apply HI.
    + intros a (j & Hj & Ha)%Hps'. rewrite Hh.
      pose proof (victim_tail_ht j a Hj Ha). specialize (Hlow j a Hj Ha). lia.
    + intros a (j & Hj & Ha)%Hps'. rewrite He.
      apply (inv_entry _ _ _ _ _ HI).
      assert (a ∈ sq) as [->|?]%elem_of_cons;
        [apply victim_in; by eapply list_elem_of_lookup_2| |done].
      exfalso. pose proof victim_nodup as Hnd.
      assert (j = O) by (by eapply (NoDup_lookup sq' j O hd)). lia.
    + lia.
    + apply HI.
    + apply HI.
    + apply HI.
    + rewrite (inv_num _ _ _ _ _ HI).
      pose proof (inv_small _ _ _ _ _ HI). rewrite wrap64_small; lia.
    + pose proof (inv_small _ _ _ _ _ HI). lia.
    + intros L. eapply LevelOK_ext_ht; [|apply Hall].
      intros a _. by rewrite Hh.
    + intros i Hi. destruct (decide (level sl ≤ i)%nat) as [Hge|Hlt].
      { apply (inv_stale _ _ _ _ _ HI). lia. }
      destruct (Hfr i ltac:(lia)) as (cL & a & HcL & Ha & HhtA & _ & Hp & _).
      rewrite Hp. destruct cL as [|cL]; [done|]. exfalso.
      assert (Ha' : sq' !! S cL = Some a).
      { rewrite lookup_del by done. by rewrite decide_True by lia. }
      specialize (Hlow (S cL) a ltac:(lia) Ha'). lia.
    + intros Hnil i Hi.
      assert (c = O) as ->.
      { apply (f_equal length) in Hnil.
        rewrite length_app, length_take, length_drop in Hnil.
        apply lookup_lt_Some in Hq. simpl in *. lia. }
      destruct (Hfr i ltac:(lia)) as (cL & a & HcL & Ha & _ & Hcc & Hp & _).
      assert (cL = O) as -> by lia. simpl in Ha. injection Ha as <-. done.
Qed.

End Unlink.

Section Delete.
Context {Entry : Type} {cmp : Comparable Entry}.
Local Arguments for_up : simpl never.
Local Arguments while : simpl never.
Implicit Types (h : list (node (Entry:=Entry))) (sl : SkipList).

(** [delete] looks at the node of the rank [r] its search by key stops
    at: it misses and leaves the list alone when there is none or its key
    differs, and removes that node otherwise. *)
Lemma wpx_delete_at clean h sl hd ps e :
  Inv clean h sl hd ps →
  wpx true (delete h sl e) (λ '(h', sl', o),
    head sl' = head sl ∧ maxLevel sl' = maxLevel sl ∧
    length h' = length h ∧ (∀ a, entry_at h' a = entry_at h a) ∧
    ∃ r, (r ≤ length ps)%nat ∧
      (r = O ∨ adv_key h (hd :: ps) e r = true) ∧
      (∀ q, ps !! r = Some q → adv_key h (hd :: ps) e (S r) = false) ∧
      ((o = None ∧ h' = h ∧ Inv clean h sl' hd ps ∧
        (∀ q x, ps !! r = Some q → entry_at h q = Some x → Compare x e ≠ 0)) ∨
       (∃ q x, ps !! r = Some q ∧ entry_at h q = Some x ∧ Compare x e = 0 ∧
          o = Some x ∧ Inv false h' sl' hd (take r ps ++ drop (S r) ps)))).
Proof.
  intros HI. unfold delete.
  destruct (decide (ps = [])) as [->|Hne].
  { unfold search. rewrite (inv_num _ _ _ _ _ HI).
    destruct sl. simpl. do 4 (split; [done|]). exists O.
    split; [done|]. split; [by left|]. split; [done|]. left. done. }
  apply wpx_bind. eapply wpx_mono; [by apply wpx_search|].
  intros [[n pos] t] (r & Hpost & -> & _).
  destruct Hpost as (cch & pch & -> & HI' & Hr & Hfr & Hadv & Hstop).
  set (sl1 := with_trail sl (Some (cch, pch))) in *.
  set (Q := λ '(h', sl', o),
    head sl' = head sl ∧ maxLevel sl' = maxLevel sl ∧
    length h' = length h ∧ (∀ a, entry_at h' a = entry_at h a) ∧
    ∃ r, (r ≤ length ps)%nat ∧
      (r = O ∨ adv_key h (hd :: ps) e r = true) ∧
      (∀ q, ps !! r = Some q → adv_key h (hd :: ps) e (S r) = false) ∧
      ((o = None ∧ h' = h ∧ Inv clean h sl' hd ps ∧
        (∀ q x, ps !! r = Some q → entry_at h q = Some x → Compare x e ≠ 0)) ∨
       (∃ q x, ps !! r = Some q ∧ entry_at h q = Some x ∧ Compare x e = 0 ∧
          o = Some x ∧ Inv false h' sl' hd (take r ps ++ drop (S r) ps)))).
  assert (Hmiss :
    (∀ q x, ps !! r = Some q → entry_at h q = Some x → Compare x e ≠ 0) →
    wpx true (Ret (h, sl1, @None Entry)) Q).
  { intros Hno. unfold Q. simpl. do 4 (split; [done|]). exists r.
    do 3 (split; [done|]). by left. }
  destruct ((hd :: ps) !! S r) as [q|] eqn:Hq; simpl in Hq;
    [|apply Hmiss; intros ? ? Hq'; by rewrite Hq in Hq'].
  destruct (inv_entry _ _ _ _ _ HI q) as [x Hx];
    [by eapply list_elem_of_lookup_2|].
  apply wpx_bind. apply wpx_bind.
  eapply wpx_node_compare; [done|]. simpl.
  destruct (Z.eqb_spec (Compare x e) 0) as [Hcmp|Hcmp];
    [|apply Hmiss; intros ? ? Hq' Hx'; by simplify_eq]. simpl.
  apply wpx_bind. eapply wpx_mono.
  { apply (wpx_for_up true (λ i hc, LevelsDone false h hc
      (take (S r) (hd :: ps) ++ drop (S (S r)) (hd :: ps)) i)).
    - apply LevelsDone_start, HI.
    - intros i hc Hi Hdone.
      eapply (unlink_step clean h sl1 hd ps r q); try done. simpl. lia. }
  simpl. intros h2 Hh2.
  apply wpx_bind. rewrite (inv_head _ _ _ _ _ HI). eapply wpx_mono.
  { eapply (wpx_shrink clean h sl1 hd ps r q); done. }
  intros [h3 lv] (HI3 & Hl3 & He3). simpl in *.
  apply wpx_bind. eapply wpx_get_entry.
  { rewrite Hl3. apply ht_lt_length.
    pose proof (inv_ht _ _ _ _ _ HI q ltac:(by eapply list_elem_of_lookup_2)).
    lia. }
  unfold Q. simpl. split; [by rewrite (inv_head _ _ _ _ _ HI)|].
  do 3 (split; [done|]). exists r.
  split; [exact Hr|]. split; [exact Hadv|]. rewrite Hq. split; [exact Hstop|].
  right. exists q, x. rewrite He3. do 4 (split; [done|]). exact HI3.
Qed.

(** [delete] either misses and leaves the list alone, or removes the
    node whose key matches. *)
Lemma wpx_delete clean h sl hd ps e :
  Inv clean h sl hd ps →
  wpx true (delete h sl e) (λ '(h', sl', o),
    head sl' = head sl ∧ maxLevel sl' = maxLevel sl ∧
    length h' = length h ∧ (∀ a, entry_at h' a = entry_at h a) ∧
    ((o = None ∧ h' = h ∧ Inv clean h sl' hd ps) ∨
     (∃ c q x, ps !! c = Some q ∧ entry_at h q = Some x ∧ Compare x e = 0 ∧
        o = Some x ∧ Inv false h' sl' hd (take c ps ++ drop (S c) ps)))).
Proof.
  intros HI. eapply wpx_mono; [by apply wpx_delete_at|].
  intros [[h' sl'] o] (? & ? & ? & ? & r & _ & _ & _ & [Hmiss|Hhit]).
  - do 4 (split; [done|]). left. by destruct Hmiss as (? & ? & ? & _).
  - do 4 (split; [done|]). right. destruct Hhit as (q & x & ?). by exists r, q, x.
Qed.

End Delete.

(** * The public mutations preserve the invariant *)

Section Mutations.
Context {Entry : Type} {cmp : Comparable Entry}.
Implicit Types (h : list (node (Entry:=Entry))) (sl : SkipList).
Local Arguments for_up : simpl never.
Local Arguments while : simpl never.

Lemma Inv_empty_frontier clean h sl hd :
  Inv clean h sl hd [] →
  Frontier (ht h) [hd] (cache sl) (posCache sl) 0 (level sl).
Proof.
  intros HI L HL. destruct (inv_empty _ _ _ _ _ HI eq_refl L HL) as [Hc Hp].
  exists O, hd. split; [done|]. split; [done|].
  rewrite (inv_hd_ht _ _ _ _ _ HI). pose proof (inv_level _ _ _ _ _ HI).
  split; [lia|]. split; [done|]. split; [done|]. intros; lia.
Qed.

Lemma Frontier_mono H sq cch pch c K K' :
  (K' ≤ K)%nat → Frontier H sq cch pch c K → Frontier H sq cch pch c K'.
Proof. intros HK Hfr L HL. apply Hfr. lia. Qed.

Lemma insert_empty h sl e coins :
  num sl = 0 → insert h sl e coins = insertNode h sl None e 1 false coins.
Proof. intros Hn. unfold insert, search. rewrite Hn. by destruct sl. Qed.

Lemma insertAtPosition_empty h sl position e coins :
  num sl = 0 →
  insertAtPosition h sl position e coins =
    '(h, sl, _) ← insertNode h sl None e 1 true coins; Ret (h, sl).
Proof.
  intros Hn. unfold insertAtPosition, searchByPosition. rewrite Hn.
  by destruct sl.
Qed.

(** Overwriting the entry of a stored node keeps the structure. *)
Lemma Inv_set_entry clean h h' sl hd ps q e :
  Inv clean h sl hd ps → q ∈ ps →
  heap_upd h h' (fw h) (wd h)
    (λ a, if decide (a = q) then Some e else entry_at h a) →
  Inv clean h' sl hd ps.
Proof.
  intros HI Hq U.
  destruct HI as [inv_head inv_heap inv_nodup inv_hd_ht inv_hd_entry inv_ht
    inv_entry inv_level inv_max inv_cache inv_posCache inv_num inv_small
    inv_links inv_stale inv_empty].
  split; try done.
  - by apply U.
  - by rewrite (hu_ht _ _ _ _ _ U).
  - rewrite (hu_entry _ _ _ _ _ U). rewrite decide_False; [done|].
    intros ->. apply NoDup_cons in inv_nodup as [? _]. done.
  - intros a Ha. rewrite (hu_ht _ _ _ _ _ U). by apply inv_ht.
  - intros a Ha. rewrite (hu_entry _ _ _ _ _ U). case_decide; [done|].
    by apply inv_entry.
  - intros L. eapply LevelOK_ext_ht; [|apply inv_links].
    intros a _. by rewrite (hu_fw _ _ _ _ _ U), (hu_wd _ _ _ _ _ U),
      (hu_ht _ _ _ _ _ U).
Qed.

(** Insert by key: an update in place when the successor found has the
    key, a fresh node right before it otherwise. *)
Lemma wpx_insert clean h sl hd ps e coins :
  Inv clean h sl hd ps → Z.of_nat (length ps) + 1 < 2 ^ 64 →
  wpx true (insert h sl e coins) (λ '(h', sl', o),
    head sl' = head sl ∧ maxLevel sl' = maxLevel sl ∧
    ((∃ r q x, ps !! r = Some q ∧ entry_at h q = Some x ∧ Compare x e = 0 ∧
        o = Some x ∧ (r = O ∨ adv_key h (hd :: ps) e r = true) ∧
        Inv clean h' sl' hd ps ∧ length h' = length h ∧
        level sl' = level sl ∧ num sl' = num sl ∧
        heap_upd h h' (fw h) (wd h)
          (λ a, if decide (a = q) then Some e else entry_at h a)) ∨
     (∃ c, o = None ∧ (c ≤ length ps)%nat ∧
        (c = O ∨ adv_key h (hd :: ps) e c = true) ∧
        (∀ q, ps !! c = Some q → adv_key h (hd :: ps) e (S c) = false ∧
                ∃ x, entry_at h q = Some x ∧ Compare x e ≠ 0) ∧
        Inv clean h' sl' hd (take c ps ++ length h :: drop c ps) ∧
        length h' = S (length h) ∧ entry_at h' (length h) = Some e ∧
        ∀ a, a ≠ length h → entry_at h' a = entry_at h a))).
Proof.
  intros HI Hsmall.
  destruct (decide (ps = [])) as [->|Hne].
  { rewrite insert_empty by (by rewrite (inv_num _ _ _ _ _ HI)).
    eapply wpx_mono.
    { apply (wpx_insertNode_fresh clean h sl hd [] O None e false coins);
        [done|done|by apply (Inv_empty_frontier clean)|done|by right; left]. }
    intros [[h' sl'] o] (-> & HI' & Hl & He & Hold & Hhd & Hml).
    split; [done|]. split; [done|]. right. exists O.
    split; [done|]. split; [done|]. split; [by left|]. split; [done|]. done. }
  unfold insert.
  apply wpx_bind. eapply wpx_mono; [by apply wpx_search|].
  intros [[n pos] t] (r & Hpost & -> & ->).
  destruct Hpost as (cch & pch & -> & HI' & Hr & Hfr & Hadv & Hstop).
  set (sl1 := with_trail sl (Some (cch, pch))) in *.
  rewrite wrap64_small by lia.
  assert (Hfresh : ∀ fresh,
    fresh = (∀ q, ps !! r = Some q → ∃ x, entry_at h q = Some x ∧ Compare x e ≠ 0) →
    fresh →
    wpx true (insertNode h sl1 ((hd :: ps) !! S r) e (Z.of_nat r + 1) false coins)
      (λ '(h', sl', o),
       head sl' = head sl ∧ maxLevel sl' = maxLevel sl ∧
       ((∃ r q x, ps !! r = Some q ∧ entry_at h q = Some x ∧ Compare x e = 0 ∧
           o = Some x ∧ (r = O ∨ adv_key h (hd :: ps) e r = true) ∧
           Inv clean h' sl' hd ps ∧ length h' = length h ∧
           level sl' = level sl ∧ num sl' = num sl ∧
           heap_upd h h' (fw h) (wd h)
             (λ a, if decide (a = q) then Some e else entry_at h a)) ∨
        (∃ c, o = None ∧ (c ≤ length ps)%nat ∧
           (c = O ∨ adv_key h (hd :: ps) e c = true) ∧
           (∀ q, ps !! c = Some q → adv_key h (hd :: ps) e (S c) = false ∧
                   ∃ x, entry_at h q = Some x ∧ Compare x e ≠ 0) ∧
           Inv clean h' sl' hd (take c ps ++ length h :: drop c ps) ∧
           length h' = S (length h) ∧ entry_at h' (length h) = Some e ∧
           ∀ a, a ≠ length h → entry_at h' a = entry_at h a)))).
  { intros fresh -> Hfr'. eapply wpx_mono.
    { apply (wpx_insertNode_fresh clean h sl1 hd ps r _ e false coins);
        [done|done| |done|].
      - eapply Frontier_mono; [|exact Hfr]. simpl. lia.
      - simpl. destruct (ps !! r) as [q|] eqn:Hq; [|by right; left].
        right; right. destruct (Hfr' q eq_refl) as (x & ? & ?). eauto. }
    intros [[h' sl'] o] (-> & HI2 & Hl & He & Hold & Hhd & Hml).
    split; [done|]. split; [done|]. right. exists r.
    split; [done|]. split; [done|]. split; [done|]. split; [|done].
    intros q Hq. split; [by apply (Hstop q)|]. by apply Hfr'. }
  destruct (ps !! r) as [q|] eqn:Hq; [|by eapply Hfresh].
  destruct (inv_entry _ _ _ _ _ HI q) as [x Hx];
    [by eapply list_elem_of_lookup_2|].
  destruct (decide (Compare x e = 0)) as [Hcmp|Hcmp].
  2:{ eapply Hfresh; [done|]. intros q' [= <-]. eauto. }
  (* the update path *)
  simpl. rewrite Hq. unfold insertNode.
  apply wpx_bind. apply wpx_bind.
  eapply wpx_node_compare; [done|]. simpl.
  rewrite Hcmp. simpl.
  assert (Hql : (q < length h)%nat).
  { apply ht_lt_length.
    pose proof (inv_ht _ _ _ _ _ HI q ltac:(by eapply list_elem_of_lookup_2)).
    lia. }
  apply wpx_bind. eapply wpx_get_entry; [done|].
  apply wpx_bind. apply wpx_set_entry; [done|]. intros h' U. simpl.
  split; [done|]. split; [done|]. left. exists r, q, x.
  do 2 (split; [done|]). split; [done|]. split; [by rewrite Hx|].
  split; [done|]. split.
  { eapply Inv_set_entry; [exact HI'| |done]. by eapply list_elem_of_lookup_2. }
  split; [apply U|]. done.
Qed.

(** Insert at a rank: always a fresh node, at the clamped rank. *)
Lemma wpx_insertAtPosition clean h sl hd ps position e coins :
  Inv clean h sl hd ps → Z.of_nat (length ps) + 1 < 2 ^ 64 → 0 ≤ position →
  wpx clean (insertAtPosition h sl position e coins) (λ '(h', sl'),
    let c := Z.to_nat (position `min` Z.of_nat (length ps)) in
    head sl' = head sl ∧ maxLevel sl' = maxLevel sl ∧
    Inv clean h' sl' hd (take c ps ++ length h :: drop c ps) ∧
    length h' = S (length h) ∧ entry_at h' (length h) = Some e ∧
    ∀ a, a ≠ length h → entry_at h' a = entry_at h a).
Proof.
  intros HI Hsmall Hpos.
  destruct (decide (ps = [])) as [->|Hne].
  { rewrite insertAtPosition_empty by (by rewrite (inv_num _ _ _ _ _ HI)).
    apply wpx_bind. apply wpx_total. eapply wpx_mono.
    { apply (wpx_insertNode_fresh clean h sl hd [] O None e true coins);
        [done|done|by apply (Inv_empty_frontier clean)|done|by left]. }
    intros [[h' sl'] o] (-> & HI' & Hl & He & Hold & Hhd & Hml). simpl.
    replace (Z.to_nat (position `min` Z.of_nat 0)) with O by lia. done. }
  unfold insertAtPosition. rewrite (inv_num _ _ _ _ _ HI).
  set (p := if Z.of_nat (length ps) <? position
            then Z.of_nat (length ps) else position).
  assert (Hp : p = position `min` Z.of_nat (length ps)).
  { unfold p. destruct (Z.ltb_spec (Z.of_nat (length ps)) position); lia. }
  apply wpx_bind. eapply wpx_mono.
  { apply (wpx_searchByPosition clean h sl hd ps p); [done|done|lia]. }
  intros [[n pos] t] (r & Hpost & Hrp & -> & ->).
  destruct Hpost as (cch & pch & -> & HI' & Hr & Hfr & Hadv & Hstop).
  set (sl1 := with_trail sl (Some (cch, pch))) in *.
  rewrite wrap64_small by lia.
  apply wpx_bind. apply wpx_total. eapply wpx_mono.
  { apply (wpx_insertNode_fresh clean h sl1 hd ps r _ e true coins);
      [done|done| |done|by left].
    eapply Frontier_mono; [|exact Hfr]. simpl. lia. }
  intros [[h' sl'] o] (-> & HI2 & Hl & He & Hold & Hhd & Hml). simpl.
  replace (Z.to_nat (position `min` Z.of_nat (length ps))) with r by lia.
  done.
Qed.

(** A freshly constructed list. *)
Lemma Inv_New t :
  t ≠ OtherType →
  Inv true (New (Entry:=Entry) [] t).1 (New (Entry:=Entry) [] t).2 O [].
Proof.
  intros Ht. unfold New, init. simpl.
  set (ml := match t with
             | Uint8 => 8%nat | Uint16 => 16%nat | Uint32 => 32%nat
             | Uint64 | Uint => 64%nat | OtherType => O end).
  assert (Hml : (2 ≤ ml ≤ 255)%nat) by (destruct t; simpl; done || lia).
  split; simpl; try done.
  - intros a nd. destruct a as [|a]; [|done]. intros [= <-]. simpl.
    by rewrite !length_replicate.
  - apply NoDup_singleton.
  - unfold ht. simpl. by rewrite length_replicate.
  - intros a Ha. by apply elem_of_nil in Ha.
  - intros a Ha. by apply elem_of_nil in Ha.
  - lia.
  - lia.
  - by rewrite length_replicate.
  - by rewrite length_replicate.
  - intros L. destruct (decide (L < ml)%nat) as [HL|HL].
    + eapply (LevelOK_top true _ L _ _ [O] O 0); try done.
      * apply NoDup_singleton.
      * intros j b Hj Hb. destruct j; [lia|done].
      * unfold fw. simpl. by rewrite lookup_replicate_2.
      * unfold wd. simpl. by rewrite lookup_replicate_2.
    + apply LevelOK_none. intros a ->%list_elem_of_singleton.
      unfold ht. simpl. rewrite length_replicate. lia.
  - intros i Hi. apply lookup_replicate_2. lia.
  - intros _ i Hi. lia.
Qed.

End Mutations.

(** * Split *)

Section Reset.
Context {Entry : Type} {cmp : Comparable Entry}.
Implicit Types (h : list (node (Entry:=Entry))) (sl : SkipList).
Local Arguments while : simpl never.

Lemma wrap8_pred lv : (1 ≤ lv ≤ 255)%nat → wrap8 (lv + 255) = (lv - 1)%nat.
Proof.
  intros Hlv. unfold wrap8.
  replace (lv + 255)%nat with (lv - 1 + 1 * 256)%nat by lia.
  rewrite Nat.Div0.mod_add. apply Nat.mod_small. lia.
Qed.

(** [resetMaxLevel] lowers [level] to the height of the tallest node (at
    least 1); the caller tells why the invariant holds at any level that
    covers every node. *)
Lemma wpx_resetMaxLevel clean h sl hd ps :
  head sl = Some hd → (level sl ≤ 254)%nat →
  (∀ a, a ∈ ps → (ht h a ≤ level sl `max` 1)%nat) →
  (∀ lv, (1 ≤ lv ≤ level sl `max` 1)%nat → (∀ a, a ∈ ps → (ht h a ≤ lv)%nat) →
     Inv clean h (MkSkipList (maxLevel sl) lv (head sl) (num sl) (cache sl)
                    (posCache sl)) hd ps) →
  wpx true (resetMaxLevel h sl) (λ sl',
    Inv clean h sl' hd ps ∧ head sl' = head sl ∧ num sl' = num sl ∧
    maxLevel sl' = maxLevel sl).
Proof.
  intros Hhd Hlv Hlow Hmk. unfold resetMaxLevel.
  destruct (Nat.ltb_spec (level sl) 1) as [Hlt|Hge].
  { simpl. split; [|done]. apply Hmk; [lia|].
    intros a Ha. specialize (Hlow a Ha). lia. }
  apply wpx_bind.
  set (K := λ s : list node * nat,
    s.1 = h ∧ (1 ≤ s.2 ≤ level sl)%nat ∧ ∀ a, a ∈ ps → (ht h a ≤ s.2)%nat).
  eapply wpx_mono; [apply (wpx_while true K snd K)|].
  - unfold K. simpl. split; [done|]. split; [lia|].
    intros a Ha. specialize (Hlow a Ha). lia.
  - simpl. lia.
  - intros [h' lv] (Heq & Hlvb & Hall). simpl in *. subst h'.
    unfold resetMaxLevel_cond. simpl. rewrite wrap8_pred by lia.
    pose proof (Hmk lv ltac:(lia) Hall) as HIlv.
    pose proof (inv_level _ _ _ _ _ HIlv) as Hb. simpl in Hb.
    assert (Hhdht : (lv - 1 < ht h hd)%nat).
    { rewrite (inv_hd_ht _ _ _ _ _ HIlv). simpl. lia. }
    destruct (inv_links _ _ _ _ _ HIlv (lv - 1)%nat O hd eq_refl Hhdht)
      as (x & w & HF & HW & Hl).
    rewrite Hhd. apply wpx_bind. eapply wpx_get_forward; [done|]. simpl.
    case_bool_decide as Hx; simpl; [|done].
    destruct (Nat.ltb_spec 1 lv) as [Hlt|Hge']; [|done].
    subst x. simpl in Hl. destruct Hl as [Hnone _]. unfold K. simpl.
    split; [|lia]. split; [done|]. split; [lia|].
    intros a [j Hj]%list_elem_of_lookup_1. apply (Hnone (S j) a); [lia|done].
  - intros [h' lv] (Heq & Hlvb & Hall). simpl in *. subst h'.
    split; [|done]. apply Hmk; [lia|done].
Qed.

End Reset.

Section Cut.
Context {Entry : Type} {cmp : Comparable Entry}.
Context (clean : bool) (h : list (node (Entry:=Entry))) (sl : SkipList)
  (hd : nat) (ps : list nat) (k rh : nat).
Context (HI : Inv clean h sl hd ps).
Context (Hk : (k < length ps)%nat).
Context (Hfr : Frontier (ht h) (hd :: ps) (cache sl) (posCache sl) k
                 (S (level sl))).
Context (Hrh : rh ∉ hd :: ps).
Context (Hrh_ht : ht h rh = maxLevel sl).
Context (Hrh_entry : entry_at h rh = None).
Context (Hrh_new : ∀ L, (L < maxLevel sl)%nat →
                     fw h L rh = Some None ∧ wd h L rh = Some 0).

Local Abbreviation sq := (hd :: ps).
Local Abbreviation lsq := (take (S k) (hd :: ps)).
Local Abbreviation rsq := (rh :: drop (S k) (hd :: ps)).

Lemma cut_step hc i :
  (i ≤ level sl)%nat →
  LevelsDone clean h hc lsq i ∧ LevelsDone clean h hc rsq i →
  wpx true (cut_level sl (Some rh) (Z.of_nat k) i hc)
    (λ hc', LevelsDone clean h hc' lsq (S i) ∧ LevelsDone clean h hc' rsq (S i)).
Proof.
  intros Hi [Hdl Hdr]. pose proof Hdl as (Hlen & Hok & Hht & Hent & _ & Htodo).
  destruct (Hfr i ltac:(lia)) as (cL & a & HcL & Ha & HhtA & Hcch & Hpch & Hlow).
  pose proof (inv_nodup _ _ _ _ _ HI) as Hnd.
  pose proof (inv_small _ _ _ _ _ HI) as Hsm.
  pose proof (inv_level _ _ _ _ _ HI) as Hlv.
  destruct (inv_links _ _ _ _ _ HI i cL a Ha HhtA) as (x & w & HFa & HWa & Hla).
  assert (Harh : a ≠ rh).
  { intros ->. apply Hrh. by eapply list_elem_of_lookup_2. }
  unfold cut_level.
  apply wpx_bind. eapply wpx_idx; [done|].
  apply wpx_bind. eapply wpx_get_forward.
  { destruct (Htodo i a ltac:(lia)) as [-> _]. done. }
  apply wpx_bind. apply wpx_set_forward; [rewrite Hht, Hrh_ht; lia|].
  intros hc1 U1.
  apply wpx_bind. eapply wpx_get_width.
  { rewrite (hu_wd _ _ _ _ _ U1).
    destruct (Htodo i a ltac:(lia)) as [_ ->]. done. }
  set (v := if w =? 0 then 0
            else wrap64 (w - wrap64 (Z.of_nat k - Z.of_nat cL))).
  apply wpx_bind.
  apply (wpx_mono _ _ (λ hc2, length hc2 = length hc1 ∧ heap_ok hc2 ∧
            (∀ b, ht hc2 b = ht hc1 b) ∧
            (∀ b, entry_at hc2 b = entry_at hc1 b) ∧
            (∀ L b, fw hc2 L b = fw hc1 L b) ∧
            (∀ L b, wd hc2 L b = if decide (b = rh ∧ L = i) then Some v
                                 else wd hc1 L b))).
  { unfold v. destruct (w =? 0); simpl.
    - split; [done|]. split; [apply U1, Hok|]. do 3 (split; [done|]).
      intros L b. case_decide as Hd; [|done]. destruct Hd as [-> ->].
      rewrite (hu_wd _ _ _ _ _ U1).
      destruct (Htodo i rh ltac:(lia)) as [_ ->]. apply Hrh_new. lia.
    - apply wpx_bind. eapply wpx_idx; [done|].
      apply wpx_set_width; [apply U1, Hok|
        rewrite (hu_ht _ _ _ _ _ U1), Hht, Hrh_ht; lia|].
      intros hc2 U2. split; [apply U2|]. split; [apply U2, U1, Hok|].
      split; [apply U2|]. split; [apply U2|]. split; [apply U2|apply U2]. }
  intros hc2 (Hl2 & Hok2 & Hht2 & Hent2 & HF2 & HW2).
  apply wpx_bind. apply wpx_set_width;
    [done|by rewrite Hht2, (hu_ht _ _ _ _ _ U1), Hht|].
  intros hc3 U3.
  apply wpx_set_forward;
    [by rewrite (hu_ht _ _ _ _ _ U3), Hht2, (hu_ht _ _ _ _ _ U1), Hht|].
  intros hc4 U4.
  assert (HF4 : ∀ L b, fw hc4 L b =
            if decide (b = a ∧ L = i) then Some None
            else if decide (b = rh ∧ L = i) then Some x
            else fw hc L b).
  { intros L b. rewrite (hu_fw _ _ _ _ _ U4). case_decide; [done|].
    by rewrite (hu_fw _ _ _ _ _ U3), HF2, (hu_fw _ _ _ _ _ U1). }
  assert (HW4 : ∀ L b, wd hc4 L b =
            if decide (b = a ∧ L = i) then Some 0
            else if decide (b = rh ∧ L = i) then Some v
            else wd hc L b).
  { intros L b. rewrite (hu_wd _ _ _ _ _ U4), (hu_wd _ _ _ _ _ U3).
    case_decide; [done|]. rewrite HW2. case_decide; [done|].
    by rewrite (hu_wd _ _ _ _ _ U1). }
  assert (Hl4 : length hc4 = length hc).
  { by rewrite (hu_length _ _ _ _ _ U4), (hu_length _ _ _ _ _ U3), Hl2,
      (hu_length _ _ _ _ _ U1). }
  assert (Hok4 : heap_ok hc4) by (apply U4, U3, Hok2).
  assert (Hht4 : ∀ b, ht hc4 b = ht hc b).
  { intros b. by rewrite (hu_ht _ _ _ _ _ U4), (hu_ht _ _ _ _ _ U3), Hht2,
      (hu_ht _ _ _ _ _ U1). }
  assert (Hent4 : ∀ b, entry_at hc4 b = entry_at hc b).
  { intros b. by rewrite (hu_entry _ _ _ _ _ U4), (hu_entry _ _ _ _ _ U3),
      Hent2, (hu_entry _ _ _ _ _ U1). }
  assert (Hother : ∀ L b, L ≠ i →
            fw hc4 L b = fw hc L b ∧ wd hc4 L b = wd hc L b).
  { intros L b HL. rewrite HF4, HW4.
    by rewrite !decide_False by (intros [_ ?]; done). }
  split.
  - eapply LevelsDone_step; try done.
    eapply (LevelOK_cut_left clean (ht h) i (fw h i) (wd h i) _ _ sq k cL a);
      try done.
    + apply HI.
    + rewrite HF4. by rewrite decide_True.
    + rewrite HW4. by rewrite decide_True.
    + intros b Hb Hba. rewrite HF4, HW4.
      rewrite decide_False by (intros [? _]; done).
      rewrite decide_False by (intros [-> _]; done).
      rewrite !decide_False by (intros [-> _]; done).
      apply Htodo. lia.
  - eapply LevelsDone_step; try done.
    eapply (LevelOK_cut_right clean (ht h) i (fw h i) (wd h i) _ _ sq k cL a rh x w);
      try done.
    + simpl in *. lia.
    + apply HI.
    + rewrite HF4. rewrite decide_False by (intros [? _]; done).
      by rewrite decide_True.
    + rewrite HW4. rewrite decide_False by (intros [? _]; done).
      by rewrite decide_True.
    + intros b Hb Hba. rewrite HF4, HW4.
      rewrite decide_False by (intros [? _]; done).
      rewrite !decide_False by (intros [-> _]; done).
      apply Htodo. lia.
Qed.

Lemma cut_start :
  LevelsDone clean h h lsq 0 ∧ LevelsDone clean h h rsq 0.
Proof. split; apply LevelsDone_start, HI. Qed.

Lemma cut_left_in a : a ∈ take k ps → a ∈ ps.
Proof. apply subseteq_take. Qed.

Lemma cut_right_in a : a ∈ drop k ps → a ∈ ps.
Proof. apply subseteq_drop. Qed.

Lemma cut_left_nodup : NoDup lsq.
Proof.
  eapply sublist_NoDup; [|apply sublist_take]. apply (inv_nodup _ _ _ _ _ HI).
Qed.

Lemma cut_right_nodup : NoDup rsq.
Proof.
  apply NoDup_cons. split.
  - intros Hin. apply Hrh. by eapply (subseteq_drop (S k) sq).
  - eapply sublist_NoDup; [|apply (sublist_drop sq)].
    apply (inv_nodup _ _ _ _ _ HI).
Qed.

(** The left part keeps the handle, with any level that covers its nodes. *)
Lemma cut_left_Inv hc lv :
  LevelsDone clean h hc lsq (S (level sl)) →
  (1 ≤ lv ≤ level sl `max` 1)%nat → (∀ a, a ∈ take k ps → (ht hc a ≤ lv)%nat) →
  Inv clean hc
    (MkSkipList (maxLevel sl) lv (head sl)
       (wrap64 (num sl - wrap64 (num sl - Z.of_nat k))) (cache sl) (posCache sl))
    hd (take k ps).
Proof.
  intros (Hlen & Hok & Hht & Hent & Hdone & Htodo) Hlv Hlow.
  pose proof (inv_nodup _ _ _ _ _ HI) as Hnd.
  pose proof (inv_small _ _ _ _ _ HI) as Hsm.
  pose proof (inv_level _ _ _ _ _ HI) as Hlvl.
  assert (Hlevel : (1 ≤ level sl)%nat).
  { destruct ps as [|p ps']; [simpl in Hk; lia|].
    pose proof (inv_ht _ _ _ _ _ HI p ltac:(left)). lia. }
  split; simpl.
  - apply HI.
  - done.
  - apply cut_left_nodup.
  - rewrite Hht. apply HI.
  - rewrite Hent. apply HI.
  - intros a Ha. specialize (Hlow a Ha). rewrite Hht in *.
    pose proof (inv_ht _ _ _ _ _ HI a (cut_left_in a Ha)). lia.
  - intros a Ha. rewrite Hent. by apply (inv_entry _ _ _ _ _ HI), cut_left_in.
  - lia.
  - apply HI.
  - apply HI.
  - apply HI.
  - rewrite (inv_num _ _ _ _ _ HI), length_take.
    rewrite (wrap64_small (_ - Z.of_nat k)) by lia. rewrite wrap64_small; lia.
  - rewrite length_take. lia.
  - intros L. destruct (decide (L < S (level sl))%nat) as [HL|HL].
    { eapply LevelOK_ext_ht; [|by apply Hdone]. intros a _. by rewrite Hht. }
    eapply (LevelOK_ext_ht _ _ (fw h L) (wd h L) (ht h)).
    { intros a _. rewrite Hht. by destruct (Htodo L a ltac:(lia)) as [-> ->]. }
    eapply (LevelOK_above clean (ht h) L _ _ sq lsq hd); [done|done| | | |].
    + apply cut_left_nodup.
    + intros j b Hj Hb. pose proof (Inv_lookup_ht _ _ _ _ _ j b HI Hj Hb). lia.
    + intros j b Hj Hb. rewrite lookup_take_dec in Hb. case_decide; [|done].
      pose proof (Inv_lookup_ht _ _ _ _ _ j b HI Hj Hb). lia.
    + apply (inv_links _ _ _ _ _ HI).
  - intros i Hi. destruct (decide (level sl ≤ i)%nat) as [Hge|Hlt].
    { apply (inv_stale _ _ _ _ _ HI). lia. }
    destruct (Hfr i ltac:(lia)) as (cL & a & HcL & Ha & HhtA & _ & Hp & _).
    rewrite Hp. destruct cL as [|cL]; [done|]. exfalso.
    assert (a ∈ take k ps).
    { simpl in Ha. apply (list_elem_of_lookup_2 _ cL).
      rewrite lookup_take_lt by lia. done. }
    specialize (Hlow a ltac:(done)). rewrite Hht in Hlow. lia.
  - intros Hnil i Hi.
    assert (k = O) as ->.
    { apply (f_equal length) in Hnil. rewrite length_take in Hnil.
      simpl in *. lia. }
    destruct (Hfr i ltac:(lia)) as (cL & a & HcL & Ha & _ & Hcc & Hp & _).
    assert (cL = O) as -> by lia. simpl in Ha. injection Ha as <-. done.
Qed.

(** The right part hangs under the new head. *)
Lemma cut_right_Inv hc lv :
  LevelsDone clean h hc rsq (S (level sl)) →
  (1 ≤ lv ≤ level sl `max` 1)%nat → (∀ a, a ∈ drop k ps → (ht hc a ≤ lv)%nat) →
  Inv clean hc
    (MkSkipList (maxLevel sl) lv (Some rh) (wrap64 (num sl - Z.of_nat k))
       (replicate (maxLevel sl) None) (replicate (maxLevel sl) 0))
    rh (drop k ps).
Proof.
  intros (Hlen & Hok & Hht & Hent & Hdone & Htodo) Hlv Hlow.
  pose proof (inv_nodup _ _ _ _ _ HI) as Hnd.
  pose proof (inv_small _ _ _ _ _ HI) as Hsm.
  pose proof (inv_level _ _ _ _ _ HI) as Hlvl.
  assert (Hlevel : (1 ≤ level sl)%nat).
  { destruct ps as [|p ps']; [simpl in Hk; lia|].
    pose proof (inv_ht _ _ _ _ _ HI p ltac:(left)). lia. }
  pose proof cut_right_nodup as Hrnd.
  split; simpl.
  - done.
  - done.
  - exact Hrnd.
  - by rewrite Hht.
  - by rewrite Hent.
  - intros a Ha. specialize (Hlow a Ha). rewrite Hht in *.
    pose proof (inv_ht _ _ _ _ _ HI a (cut_right_in a Ha)). lia.
  - intros a Ha. rewrite Hent. by apply (inv_entry _ _ _ _ _ HI), cut_right_in.
  - lia.
  - apply HI.
  - by rewrite length_replicate.
  - by rewrite length_replicate.
  - rewrite (inv_num _ _ _ _ _ HI), length_drop. rewrite wrap64_small; lia.
  - rewrite length_drop. lia.
  - intros L. destruct (decide (L < S (level sl))%nat) as [HL|HL].
    { eapply LevelOK_ext_ht; [|by apply Hdone]. intros a _. by rewrite Hht. }
    eapply (LevelOK_ext_ht _ _ (fw h L) (wd h L) (ht h)).
    { intros a _. rewrite Hht. by destruct (Htodo L a ltac:(lia)) as [-> ->]. }
    assert (Hlo : ∀ j b, (0 < j)%nat → rsq !! j = Some b → (ht h b ≤ L)%nat).
    { intros j b Hj Hb. rewrite lookup_cons_drop in Hb.
      destruct j as [|j]; [lia|].
      pose proof (Inv_lookup_ht _ _ _ _ _ (S k + j)%nat b HI ltac:(lia) Hb).
      lia. }
    destruct (decide (L < maxLevel sl)%nat) as [HLm|HLm].
    + destruct (Hrh_new L HLm) as [HF HW].
      by eapply (LevelOK_top clean (ht h) L _ _ rsq rh 0).
    + apply LevelOK_none. intros a [->|Ha]%elem_of_cons; [lia|].
      apply list_elem_of_lookup_1 in Ha as [j Hj].
      apply (Hlo (S j) a); [lia|done].
  - intros i Hi. apply lookup_replicate_2. lia.
  - intros Hnil. apply (f_equal length) in Hnil. rewrite length_drop in Hnil.
    simpl in Hnil. lia.
Qed.

End Cut.

Section SplitAt.
Context {Entry : Type} {cmp : Comparable Entry}.
Implicit Types (h : list (node (Entry:=Entry))) (sl : SkipList).
Local Arguments for_up : simpl never.
Local Arguments while : simpl never.

(** Allocation does not disturb a list. *)
Lemma Inv_alloc clean h sl hd ps e n :
  Inv clean h sl hd ps → Inv clean (h ++ [newNode e n]) sl hd ps.
Proof.
  intros HI.
  destruct (alloc_spec h e n (inv_heap _ _ _ _ _ HI))
    as (_ & _ & Hok & _ & _ & _ & Hold).
  unfold alloc in Hok, Hold. simpl in Hok, Hold.
  assert (Hne : ∀ a, a ∈ hd :: ps → a ≠ length h).
  { intros a Ha ->.
    apply (Inv_ht_pos _ _ _ _ _ _ HI), ht_lt_length in Ha. lia. }
  destruct HI as [inv_head inv_heap inv_nodup inv_hd_ht inv_hd_entry inv_ht
    inv_entry inv_level inv_max inv_cache inv_posCache inv_num inv_small
    inv_links inv_stale inv_empty].
  split; try done.
  - destruct (Hold hd) as (-> & _); [apply Hne; left|done].
  - destruct (Hold hd) as (_ & -> & _); [apply Hne; left|done].
  - intros a Ha. destruct (Hold a) as (-> & _); [apply Hne; by right|].
    by apply inv_ht.
  - intros a Ha. destruct (Hold a) as (_ & -> & _); [apply Hne; by right|].
    by apply inv_entry.
  - intros L. eapply LevelOK_ext_ht; [|apply inv_links].
    intros a Ha. destruct (Hold a (Hne a Ha)) as (-> & _ & HL).
    by destruct (HL L) as [-> ->].
Qed.

(** [splitAt] at a rank inside the list. *)
Lemma wpx_splitAt clean h sl hd ps k :
  Inv clean h sl hd ps → (k < length ps)%nat →
  wpx clean (splitAt h sl (Z.of_nat k)) (λ '(h', l, r),
    Inv clean h' l hd (take k ps) ∧ Inv clean h' r (length h) (drop k ps) ∧
    length h' = S (length h) ∧
    (∀ a, a ≠ length h → entry_at h' a = entry_at h a)).
Proof.
  intros HI Hk. unfold splitAt. simpl.
  set (h1 := h ++ [newNode None (maxLevel sl)]).
  pose proof (Inv_alloc clean h sl hd ps None (maxLevel sl) HI) as HI1.
  fold h1 in HI1.
  destruct (alloc_spec h None (maxLevel sl) (inv_heap _ _ _ _ _ HI))
    as (_ & Hl1 & Hok1 & Hht1 & Hent1 & Hnew & Hold).
  unfold alloc in Hl1, Hok1, Hht1, Hent1, Hnew, Hold.
  simpl in Hl1, Hok1, Hht1, Hent1, Hnew, Hold.
  fold h1 in Hl1, Hok1, Hht1, Hent1, Hnew, Hold.
  assert (Hne : ps ≠ []) by (intros ->; simpl in Hk; lia).
  assert (Hrh : length h ∉ hd :: ps).
  { intros Ha. apply (Inv_ht_pos _ _ _ _ _ _ HI), ht_lt_length in Ha. lia. }
  apply wpx_bind. eapply wpx_mono.
  { apply (wpx_searchByPosition clean h1 sl hd ps (Z.of_nat k)); [done|done|lia]. }
  intros [[n pos] t] (r & Hpost & Hrk & _ & _).
  apply Nat2Z.inj in Hrk. subst r.
  destruct Hpost as (cch & pch & -> & HI' & _ & Hfr & _ & _).
  set (sl1 := with_trail sl (Some (cch, pch))) in *.
  pose proof (inv_level _ _ _ _ _ HI) as Hlv.
  apply wpx_bind. apply wpx_total. eapply wpx_mono.
  { apply (wpx_for_up true (λ i hc,
      LevelsDone clean h1 hc (take (S k) (hd :: ps)) i ∧
      LevelsDone clean h1 hc (length h :: drop (S k) (hd :: ps)) i)).
    - eapply (cut_start clean h1 sl1 hd ps k (length h)); done.
    - intros i hc Hi Hdone.
      eapply (cut_step clean h1 sl1 hd ps k (length h)); try done.
      unfold sl1 in Hi. simpl in Hi. simpl. lia. }
  simpl. intros h4 [Hdl Hdr].
  pose proof Hdl as (Hl4 & Hok4 & Hht4 & Hent4 & _ & _).
  assert (Hold_ht : ∀ a, a ∈ ps → (ht h4 a ≤ level sl `max` 1)%nat).
  { intros a Ha. rewrite Hht4.
    pose proof (inv_ht _ _ _ _ _ HI1 a Ha). lia. }
  apply wpx_bind. apply wpx_total. eapply wpx_mono.
  { eapply (wpx_resetMaxLevel clean h4 _ hd (take k ps)); simpl.
    - apply HI.
    - lia.
    - intros a Ha. apply Hold_ht. by eapply subseteq_take.
    - intros lv Hlvb Hlow.
      eapply (cut_left_Inv clean h1 sl1 hd ps k (length h)); done. }
  intros l (HIl & Hhl & Hnl & Hml).
  apply wpx_bind. apply wpx_total. eapply wpx_mono.
  { eapply (wpx_resetMaxLevel clean h4 _ (length h) (drop k ps)); simpl.
    - done.
    - lia.
    - intros a Ha. apply Hold_ht. by eapply subseteq_drop.
    - intros lv Hlvb Hlow. rewrite (inv_num _ _ _ _ _ HI).
      rewrite <- (inv_num _ _ _ _ _ HI').
      eapply (cut_right_Inv clean h1 sl1 hd ps k (length h)); done. }
  intros rr (HIr & Hhr & Hnr & Hmr). simpl.
  split; [done|]. split; [done|]. split; [congruence|].
  intros a Ha. rewrite Hent4. by destruct (Hold a Ha) as (_ & -> & _).
Qed.

End SplitAt.

(** * From the representation invariant to the invariants of the spec *)

Section Readout.
Context {Entry : Type} {cmp : Comparable Entry}.
Implicit Types (h : list (node (Entry:=Entry))) (sl : SkipList).

Lemma chain_nil fuel h : chain fuel h None = [].
Proof. by destruct fuel. Qed.

Lemma Inv_chain clean h sl hd ps fuel r :
  Inv clean h sl hd ps → (length (hd :: ps) - r ≤ fuel)%nat →
  chain fuel h ((hd :: ps) !! r) = drop r (hd :: ps).
Proof.
  intros HI. revert r. induction fuel as [|fuel IH]; intros r Hfuel.
  - rewrite drop_ge by lia. rewrite lookup_ge_None_2 by lia. done.
  - destruct ((hd :: ps) !! r) as [a|] eqn:Ha.
    2:{ rewrite drop_ge; [done|]. by apply lookup_ge_None. }
    pose proof (Inv_next0 _ _ _ _ _ _ _ HI Ha) as Hn.
    apply fw_Some in Hn as (nd & Hnd & Hf).
    cbn [chain]. rewrite Hnd, Hf. cbn [default from_option].
    unfold id. rewrite IH by lia. symmetry. by apply drop_S.
Qed.

Lemma Inv_rank_seq clean h sl hd ps :
  Inv clean h sl hd ps → rank_seq h sl = hd :: ps.
Proof.
  intros HI. unfold rank_seq. rewrite (inv_head _ _ _ _ _ HI).
  pose proof (Inv_length _ _ _ _ _ HI).
  apply (Inv_chain clean h sl hd ps (length h) 0 HI). lia.
Qed.

Lemma Inv_nodes_of clean h sl hd ps :
  Inv clean h sl hd ps → nodes_of h sl = ps.
Proof.
  intros HI. unfold nodes_of. fold (rank_seq h sl).
  by rewrite (Inv_rank_seq _ _ _ _ _ HI).
Qed.

Lemma Inv_to_list clean h sl hd ps :
  Inv clean h sl hd ps → to_list h sl = entries_at h ps.
Proof. intros HI. unfold to_list. by rewrite (Inv_nodes_of _ _ _ _ _ HI). Qed.

Lemma Inv_Len clean h sl hd ps :
  Inv clean h sl hd ps → Len sl = Z.of_nat (length (to_list h sl)).
Proof.
  intros HI. rewrite (Inv_to_list _ _ _ _ _ HI). unfold entries_at, Len.
  rewrite length_fmap. apply HI.
Qed.

Lemma Inv_I2 clean h sl hd ps : Inv clean h sl hd ps → I2 h sl.
Proof.
  intros HI r a L q. rewrite (Inv_rank_seq _ _ _ _ _ HI). intros Ha HF.
  assert (HL : (L < ht h a)%nat) by (apply fw_is_Some; eauto).
  destruct (inv_links _ _ _ _ _ HI L r a Ha HL) as (x & w & HF' & HW & Hl).
  assert (x = Some q) as -> by congruence. simpl in Hl.
  destruct Hl as (r' & Hr' & Hlt & _ & _ & ->). eauto.
Qed.

Lemma Inv_acc_width clean h sl hd ps L fuel r r' a q acc :
  Inv clean h sl hd ps →
  (hd :: ps) !! r = Some a → (hd :: ps) !! r' = Some q →
  (L < ht h a)%nat → (L < ht h q)%nat → (r ≤ r')%nat → (r' - r ≤ fuel)%nat →
  acc_width fuel h L a q acc = Some (acc + Z.of_nat (r' - r)).
Proof.
  intros HI. revert r a acc.
  induction fuel as [|fuel IH]; intros r a acc Ha Hq HLa HLq Hle Hfuel.
  - assert (r = r') as -> by lia. assert (a = q) as -> by congruence.
    simpl. rewrite decide_True by done. f_equal. lia.
  - simpl. case_decide as Heq.
    + subst a. assert (r = r') as ->.
      { eapply NoDup_lookup; [apply (inv_nodup _ _ _ _ _ HI)|done..]. }
      f_equal. lia.
    + assert (r ≠ r') by (intros ->; congruence).
      destruct (inv_links _ _ _ _ _ HI L r a Ha HLa) as (x & w & HF & HW & Hl).
      rewrite HF, HW. destruct x as [b|]; simpl in Hl.
      * destruct Hl as (r1 & Hr1 & Hlt & Hb & Hbetween & ->).
        assert (r1 ≤ r')%nat.
        { destruct (decide (r1 ≤ r')%nat); [done|].
          specialize (Hbetween r' q ltac:(lia) Hq). lia. }
        rewrite (IH r1 b) by (done || lia). f_equal. lia.
      * destruct Hl as [Hnone _]. specialize (Hnone r' q ltac:(lia) Hq). lia.
Qed.

Lemma Inv_RankSum clean h sl hd ps : Inv clean h sl hd ps → RankSum h sl.
Proof.
  intros HI hd' r q L Hhd. rewrite (Inv_rank_seq _ _ _ _ _ HI). intros Hq HL.
  assert (hd' = hd) as -> by (rewrite (inv_head _ _ _ _ _ HI) in Hhd; congruence).
  pose proof (Inv_length _ _ _ _ _ HI). pose proof (lookup_lt_Some _ _ _ Hq).
  rewrite (Inv_acc_width clean h sl hd ps L (length h) 0 r hd q 0 HI);
    try done; try lia.
  - f_equal. lia.
  - rewrite (inv_hd_ht _ _ _ _ _ HI).
    destruct r as [|r].
    + injection Hq as <-. by rewrite (inv_hd_ht _ _ _ _ _ HI) in HL.
    + pose proof (Inv_lookup_ht _ _ _ _ _ (S r) q HI ltac:(lia) Hq).
      pose proof (inv_level _ _ _ _ _ HI). lia.
Qed.

(** A list without stale widths satisfies the strong form of the
    invariant, and conversely. *)
Lemma Inv_clean h sl hd ps :
  Inv false h sl hd ps → clean_widths h sl → Inv true h sl hd ps.
Proof.
  intros HI Hcl. pose proof (Inv_rank_seq _ _ _ _ _ HI) as Hseq.
  destruct HI as [inv_head inv_heap inv_nodup inv_hd_ht inv_hd_entry inv_ht
    inv_entry inv_level inv_max inv_cache inv_posCache inv_num inv_small
    inv_links inv_stale inv_empty].
  split; try done.
  intros L r a Hr Ha. destruct (inv_links L r a Hr Ha) as (x & w & HF & HW & Hl).
  exists x, w. split; [done|]. split; [done|].
  destruct x as [q|]; simpl in *; [done|]. destruct Hl as [Hnone _].
  split; [done|]. intros _.
  assert (wd h L a = Some 0); [|congruence].
  apply Hcl; [|done]. rewrite Hseq. by eapply list_elem_of_lookup_2.
Qed.

Lemma Inv_weaken clean h sl hd ps :
  Inv clean h sl hd ps → Inv false h sl hd ps.
Proof.
  intros HI.
  destruct HI as [inv_head inv_heap inv_nodup inv_hd_ht inv_hd_entry inv_ht
    inv_entry inv_level inv_max inv_cache inv_posCache inv_num inv_small
    inv_links inv_stale inv_empty].
  split; try done.
  intros L. by eapply LevelOK_weaken.
Qed.

Lemma Inv_clean_widths h sl hd ps : Inv true h sl hd ps → clean_widths h sl.
Proof.
  intros HI a L. rewrite (Inv_rank_seq _ _ _ _ _ HI).
  intros [r Hr]%list_elem_of_lookup_1 HF.
  assert (HL : (L < ht h a)%nat) by (apply fw_is_Some; eauto).
  destruct (inv_links _ _ _ _ _ HI L r a Hr HL) as (x & w & HF' & HW & Hl).
  assert (x = None) as -> by congruence. simpl in Hl.
  destruct Hl as [_ Hw]. by rewrite HW, Hw.
Qed.

End Readout.

(** * Order *)

Section Order.
Context {Entry : Type} {cmp : Comparable Entry} {laws : CompareLaws Entry}.
Implicit Types (l : list (option Entry)).

Lemma lt_entry_trans (x y z : option Entry) :
  lt_entry x y → lt_entry y z → lt_entry x z.
Proof.
  destruct x as [a|], y as [b|], z as [c|]; simpl; try done. apply cmp_trans.
Qed.

Lemma ascending_lookup l :
  ascending l ↔
  ∀ i j x y, (i < j)%nat → l !! i = Some x → l !! j = Some y → lt_entry x y.
Proof.
  unfold ascending. induction l as [|a l IH].
  - split; [intros _ i j x y _ Hx; done|constructor].
  - rewrite StronglySorted_cons, IH, Forall_lookup. split.
    + intros [Hall Hrest] i j x y Hij Hx Hy.
      destruct j as [|j]; [lia|]. destruct i as [|i]; simpl in *.
      * injection Hx as <-. by eapply Hall.
      * eapply (Hrest i j); [lia|done..].
    + intros Hidx. split.
      * intros j y Hy. by apply (Hidx O (S j) a y ltac:(lia)).
      * intros i j x y Hij Hx Hy. by apply (Hidx (S i) (S j) x y ltac:(lia)).
Qed.

Lemma lookup_ins0 {A : Type} (l : list A) c x j :
  (c ≤ length l)%nat →
  (take c l ++ x :: drop c l) !! j =
    if decide (j < c)%nat then l !! j
    else if decide (j = c) then Some x else l !! (j - 1)%nat.
Proof.
  intros Hc. assert (Hlen : length (take c l) = c).
  { rewrite length_take. lia. }
  repeat case_decide.
  - rewrite lookup_app_l by lia. apply lookup_take_lt. lia.
  - subst. rewrite lookup_app_r by lia. by rewrite Hlen, Nat.sub_diag.
  - rewrite lookup_app_r by lia. rewrite Hlen.
    replace (j - c)%nat with (S (j - c - 1)) by lia. simpl.
    rewrite lookup_drop. f_equal. lia.
Qed.

Lemma lookup_del0 {A : Type} (l : list A) c j :
  (take c l ++ drop (S c) l) !! j =
    if decide (j < c)%nat then l !! j else l !! (S j).
Proof.
  case_decide.
  - assert (j < length l ∨ length l ≤ j)%nat as [?|?] by lia.
    + rewrite lookup_app_l by (rewrite length_take; lia).
      apply lookup_take_lt. lia.
    + rewrite !lookup_ge_None_2; [done|lia|].
      rewrite length_app, length_take, length_drop. lia.
  - assert (c ≤ length l ∨ length l < c)%nat as [?|?] by lia.
    + rewrite lookup_app_r by (rewrite length_take; lia).
      rewrite length_take, lookup_drop. f_equal. lia.
    + rewrite !lookup_ge_None_2; [done|lia|].
      rewrite length_app, length_take, length_drop. lia.
Qed.

(** A new entry between a smaller predecessor and a larger successor. *)
Lemma ascending_ins l c e :
  ascending l → (c ≤ length l)%nat →
  (∀ x, (1 ≤ c)%nat → l !! (c - 1)%nat = Some x → lt_entry x (Some e)) →
  (∀ y, l !! c = Some y → lt_entry (Some e) y) →
  ascending (take c l ++ Some e :: drop c l).
Proof.
  rewrite !ascending_lookup. intros Hasc Hc Hpred Hsucc i j x y Hij.
  rewrite !lookup_ins0 by done. repeat case_decide; try lia.
  - by apply Hasc.
  - intros Hx [= <-]. destruct (decide (i = c - 1)%nat) as [->|].
    + apply Hpred; [lia|done].
    + destruct (lookup_lt_is_Some_2 l (c - 1)%nat ltac:(lia)) as [z Hz].
      eapply lt_entry_trans; [|apply (Hpred z); [lia|done]].
      by apply (Hasc i (c - 1)%nat); [lia|..].
  - apply Hasc. lia.
  - intros [= <-] Hy. destruct (decide (j - 1 = c)%nat) as [Heq|].
    + rewrite Heq in Hy. by apply Hsucc.
    + destruct (lookup_lt_is_Some_2 l c) as [z Hz].
      { apply lookup_lt_Some in Hy. lia. }
      eapply lt_entry_trans; [by apply (Hsucc z)|].
      by apply (Hasc c (j - 1)%nat); [lia|..].
  - apply Hasc. lia.
Qed.

(** Replacing an entry by one with the same key. *)
Lemma ascending_upd l r x e :
  ascending l → l !! r = Some (Some x) → Compare x e = 0 →
  ascending (<[r:=Some e]> l).
Proof.
  rewrite !ascending_lookup. intros Hasc Hr Hcmp i j a b Hij.
  pose proof (lookup_lt_Some _ _ _ Hr) as Hlt.
  destruct (decide (i = r)) as [->|Hi], (decide (j = r)) as [->|Hj]; try lia.
  - rewrite list_lookup_insert_eq by done.
    rewrite list_lookup_insert_ne by done. intros [= <-] Hb.
    specialize (Hasc r j _ b Hij Hr Hb). destruct b as [b|]; simpl in *; [|done].
    by eapply cmp_eq_lt.
  - rewrite list_lookup_insert_ne by done.
    rewrite list_lookup_insert_eq by done. intros Ha [= <-].
    specialize (Hasc i r a _ Hij Ha Hr). destruct a as [a|]; simpl in *; [|done].
    by eapply cmp_lt_eq.
  - rewrite !list_lookup_insert_ne by done. by apply Hasc.
Qed.

Lemma ascending_del l c : ascending l → ascending (take c l ++ drop (S c) l).
Proof.
  rewrite !ascending_lookup. intros Hasc i j x y Hij.
  rewrite !lookup_del0. repeat case_decide; try lia; apply Hasc; lia.
Qed.

Lemma ascending_take l c : ascending l → ascending (take c l).
Proof.
  intros Hasc. rewrite <- (take_drop c l) in Hasc.
  by apply StronglySorted_app_1_l in Hasc.
Qed.

Lemma ascending_drop l c : ascending l → ascending (drop c l).
Proof.
  intros Hasc. rewrite <- (take_drop c l) in Hasc.
  by apply StronglySorted_app_1_r in Hasc.
Qed.

End Order.

(** * Sequences of operations *)

Section Runs.
Context {Entry : Type} {cmp : Comparable Entry}.
Implicit Types (h : list (node (Entry:=Entry))) (sl : SkipList).

Lemma Inv_fresh_addr clean h sl hd ps a :
  Inv clean h sl hd ps → a ∈ ps → a ≠ length h.
Proof.
  intros HI Ha ->. pose proof (inv_ht _ _ _ _ _ HI _ Ha).
  assert (length h < length h)%nat; [|lia]. apply ht_lt_length. lia.
Qed.

Lemma entries_at_frame h h' (ps : list nat) :
  (∀ a, a ∈ ps → entry_at h' a = entry_at h a) →
  entries_at h' ps = entries_at h ps.
Proof.
  intros Hsame. unfold entries_at. apply list_fmap_ext.
  intros i a Ha. apply Hsame. by eapply list_elem_of_lookup_2.
Qed.

Lemma entries_at_ins h h' (ps : list nat) c nn e :
  (∀ a, a ∈ ps → entry_at h' a = entry_at h a) → entry_at h' nn = Some e →
  entries_at h' (take c ps ++ nn :: drop c ps) =
    take c (entries_at h ps) ++ Some e :: drop c (entries_at h ps).
Proof.
  intros Hsame Hnn. unfold entries_at.
  rewrite fmap_app, fmap_cons, fmap_take, fmap_drop, Hnn.
  fold (entries_at h' ps). fold (entries_at h ps).
  by rewrite (entries_at_frame h h' ps Hsame).
Qed.

Lemma entries_at_del h h' (ps : list nat) c :
  (∀ a, entry_at h' a = entry_at h a) →
  entries_at h' (take c ps ++ drop (S c) ps) =
    take c (entries_at h ps) ++ drop (S c) (entries_at h ps).
Proof.
  intros Hsame. unfold entries_at.
  rewrite fmap_app, fmap_take, fmap_drop.
  fold (entries_at h' ps). fold (entries_at h ps).
  by rewrite (entries_at_frame h h' ps) by done.
Qed.

Lemma entries_at_upd h h' (ps : list nat) r q e :
  NoDup ps → ps !! r = Some q →
  (∀ a, entry_at h' a = if decide (a = q) then Some e else entry_at h a) →
  entries_at h' ps = <[r:=Some e]> (entries_at h ps).
Proof.
  intros Hnd Hr Hent. unfold entries_at. apply list_eq. intros i.
  destruct (decide (i = r)) as [->|Hne].
  - rewrite list_lookup_insert_eq
      by (rewrite length_fmap; by eapply lookup_lt_Some).
    rewrite list_lookup_fmap, Hr. simpl. rewrite Hent.
    by rewrite decide_True.
  - rewrite list_lookup_insert_ne by done. rewrite !list_lookup_fmap.
    destruct (ps !! i) as [a|] eqn:Ha; [|done]. simpl. rewrite Hent.
    rewrite decide_False; [done|]. intros ->.
    apply Hne. by eapply NoDup_lookup.
Qed.

Lemma adv_key_true h (hd : nat) (ps : list nat) e c :
  adv_key h (hd :: ps) e c = true →
  ∃ a x, (hd :: ps) !! c = Some a ∧ entry_at h a = Some x ∧ Compare x e < 0.
Proof.
  unfold adv_key. destruct ((hd :: ps) !! c) as [a|]; [|done]. simpl.
  destruct (entry_at h a) as [x|] eqn:Hx; [|done]. intros ?%Z.ltb_lt.
  by exists a, x.
Qed.

Lemma adv_key_false h (hd : nat) (ps : list nat) e c a x :
  adv_key h (hd :: ps) e c = false → (hd :: ps) !! c = Some a →
  entry_at h a = Some x → 0 ≤ Compare x e.
Proof.
  unfold adv_key. intros Hadv Ha Hx. rewrite Ha in Hadv. simpl in Hadv.
  rewrite Hx in Hadv. by apply Z.ltb_ge in Hadv.
Qed.

(** What one insertion by key does to the invariant, the size and the
    order. *)
Lemma wpx_insert_step h sl hd ps e coins :
  Inv false h sl hd ps → Z.of_nat (length ps) + 1 < 2 ^ 64 →
  wpx true (insert h sl e coins) (λ '(h', sl', _),
    ∃ ps', Inv false h' sl' hd ps' ∧ (length ps' ≤ length ps + 1)%nat ∧
      (CompareLaws Entry → ascending (entries_at h ps) →
       ascending (entries_at h' ps'))).
Proof.
  intros HI Hsmall. eapply wpx_mono; [by apply wpx_insert|].
  intros [[h' sl'] o] (_ & _ & [Hupd|Hfresh]).
  - destruct Hupd as (r & q & x & Hq & Hx & Hcmp & _ & _ & HI' & _ & _ & _ & U).
    exists ps. split; [done|]. split; [lia|]. intros laws Hasc.
    pose proof (inv_nodup _ _ _ _ _ HI) as [_ Hnd]%NoDup_cons.
    rewrite (entries_at_upd h h' ps r q e Hnd Hq (hu_entry _ _ _ _ _ U)).
    eapply ascending_upd; [done| |done].
    unfold entries_at. by rewrite list_lookup_fmap, Hq; simpl; rewrite Hx.
  - destruct Hfresh as (c & _ & Hc & Hadv & Hstop & HI' & _ & Hnn & Hold).
    exists (take c ps ++ length h :: drop c ps). split; [done|]. split.
    { rewrite length_app, length_take. simpl. rewrite length_drop. lia. }
    intros laws Hasc.
    rewrite (entries_at_ins h h' ps c (length h) e); [|intros a Ha|done].
    2:{ apply Hold. by eapply Inv_fresh_addr. }
    apply ascending_ins; [done|unfold entries_at; by rewrite length_fmap| |].
    + intros y Hc1 Hy. destruct Hadv as [->|Hadv]; [lia|].
      apply adv_key_true in Hadv as (a & x & Ha & Hx & Hlt).
      destruct c as [|c]; [lia|]. simpl in *.
      rewrite Nat.sub_0_r in Hy. unfold entries_at in Hy.
      rewrite list_lookup_fmap, Ha in Hy. simpl in Hy.
      injection Hy as <-. by rewrite Hx.
    + intros y Hy. unfold entries_at in Hy. rewrite list_lookup_fmap in Hy.
      destruct (ps !! c) as [q|] eqn:Hq; [|done]. simpl in Hy.
      injection Hy as <-.
      destruct (Hstop q eq_refl) as (Hadv' & x & Hx & Hne).
      rewrite Hx. simpl. apply cmp_gt_lt.
      pose proof (adv_key_false h hd ps e (S c) q x Hadv' Hq Hx). lia.
Qed.

Lemma wpx_Insert_steps h sl hd ps entries :
  Inv false h sl hd ps →
  Z.of_nat (length ps + length entries) + 1 < 2 ^ 64 →
  wpx true (Insert h sl entries) (λ '(h', sl', _),
    ∃ ps', Inv false h' sl' hd ps' ∧
      (length ps' ≤ length ps + length entries)%nat ∧
      (CompareLaws Entry → ascending (entries_at h ps) →
       ascending (entries_at h' ps'))).
Proof.
  revert h sl ps. induction entries as [|[e coins] rest IH];
    intros h sl ps HI Hsmall; simpl.
  - exists ps. split; [done|]. split; [lia|done].
  - apply wpx_bind. eapply wpx_mono.
    { apply wpx_insert_step; [done|]. simpl in Hsmall. lia. }
    intros [[h1 sl1] o] (ps1 & HI1 & Hl1 & Hasc1). simpl.
    apply wpx_bind. eapply wpx_mono.
    { apply (IH h1 sl1 ps1 HI1). simpl in Hsmall. lia. }
    intros [[h2 sl2] os] (ps2 & HI2 & Hl2 & Hasc2). simpl.
    exists ps2. split; [done|]. split; [lia|]. auto.
Qed.

Lemma wpx_delete_step h sl hd ps e :
  Inv false h sl hd ps →
  wpx true (delete h sl e) (λ '(h', sl', _),
    ∃ ps', Inv false h' sl' hd ps' ∧ (length ps' ≤ length ps)%nat ∧
      (ascending (entries_at h ps) → ascending (entries_at h' ps'))).
Proof.
  intros HI. eapply wpx_mono; [by apply wpx_delete|].
  intros [[h' sl'] o] (_ & _ & _ & Hent & [Hmiss|Hhit]).
  - destruct Hmiss as (_ & -> & HI'). exists ps. split; [done|]. split; [lia|done].
  - destruct Hhit as (c & q & x & Hq & _ & _ & _ & HI').
    exists (take c ps ++ drop (S c) ps). split; [done|]. split.
    { rewrite length_app, length_take, length_drop. lia. }
    intros Hasc. rewrite (entries_at_del h h' ps c Hent).
    by apply ascending_del.
Qed.

Lemma wpx_Delete_steps h sl hd ps entries :
  Inv false h sl hd ps →
  wpx true (Delete h sl entries) (λ '(h', sl', _),
    ∃ ps', Inv false h' sl' hd ps' ∧ (length ps' ≤ length ps)%nat ∧
      (ascending (entries_at h ps) → ascending (entries_at h' ps'))).
Proof.
  revert h sl ps. induction entries as [|e rest IH]; intros h sl ps HI; simpl.
  - exists ps. split; [done|]. split; [lia|done].
  - apply wpx_bind. eapply wpx_mono; [by apply wpx_delete_step|].
    intros [[h1 sl1] o] (ps1 & HI1 & Hl1 & Hasc1). simpl.
    apply wpx_bind. eapply wpx_mono; [by apply (IH h1 sl1 ps1)|].
    intros [[h2 sl2] os] (ps2 & HI2 & Hl2 & Hasc2). simpl.
    exists ps2. split; [done|]. split; [lia|]. auto.
Qed.

(** Any sequence of calls keeps the invariant, as long as it returns. *)
Lemma wpx_run h sl hd ps ops :
  Inv false h sl hd ps → Forall op_wf ops →
  Z.of_nat (length ps + inserts ops) + 1 < 2 ^ 64 →
  wpx false (run h sl ops) (λ '(h', sl'),
    ∃ ps', Inv false h' sl' hd ps' ∧
           (length ps' ≤ length ps + inserts ops)%nat).
Proof.
  revert h sl ps. induction ops as [|o rest IH];
    intros h sl ps HI Hwf Hsmall; simpl.
  - exists ps. split; [done|lia].
  - apply Forall_cons in Hwf as [Hwf1 Hwf]. simpl in Hsmall.
    apply wpx_bind.
    apply (wpx_mono _ _ (λ '(h1, sl1), ∃ ps1, Inv false h1 sl1 hd ps1 ∧
             (length ps1 ≤ length ps + op_inserts o)%nat)).
    { destruct o as [entries|position e coins|entries]; simpl in *.
      - apply wpx_bind. apply wpx_total. eapply wpx_mono.
        { apply (wpx_Insert_steps h sl hd ps entries); [done|lia]. }
        intros [[h1 sl1] os] (ps1 & ? & ? & _). simpl. eauto.
      - unfold InsertAtPosition. eapply wpx_mono.
        { apply (wpx_insertAtPosition false h sl hd ps position e coins);
            [done|lia|lia]. }
        intros [h1 sl1] (_ & _ & HI1 & _). simpl. eexists. split; [done|].
        rewrite length_app, length_take. simpl. rewrite length_drop. lia.
      - apply wpx_bind. apply wpx_total. eapply wpx_mono.
        { by apply (wpx_Delete_steps h sl hd ps entries). }
        intros [[h1 sl1] os] (ps1 & ? & ? & _). simpl. exists ps1.
        split; [done|lia]. }
    intros [h1 sl1] (ps1 & HI1 & Hl1).
    eapply wpx_mono; [apply (IH h1 sl1 ps1 HI1 Hwf); lia|].
    intros [h2 sl2] (ps2 & HI2 & Hl2). exists ps2. split; [done|lia].
Qed.

(** A sequence of by-key calls always returns and keeps the order. *)
Lemma wpx_run_by_key `{!CompareLaws Entry} h sl hd ps ops :
  Inv false h sl hd ps → Forall by_key ops →
  Z.of_nat (length ps + inserts ops) + 1 < 2 ^ 64 →
  ascending (entries_at h ps) →
  wpx true (run h sl ops) (λ '(h', sl'),
    ∃ ps', Inv false h' sl' hd ps' ∧ ascending (entries_at h' ps')).
Proof.
  revert h sl ps. induction ops as [|o rest IH];
    intros h sl ps HI Hbk Hsmall Hasc; simpl.
  - exists ps. done.
  - apply Forall_cons in Hbk as [Hbk1 Hbk]. simpl in Hsmall.
    apply wpx_bind.
    apply (wpx_mono _ _ (λ '(h1, sl1), ∃ ps1, Inv false h1 sl1 hd ps1 ∧
             (length ps1 ≤ length ps + op_inserts o)%nat ∧
             ascending (entries_at h1 ps1))).
    { destruct o as [entries|position e coins|entries]; simpl in *; [|done|].
      - apply wpx_bind. eapply wpx_mono.
        { apply (wpx_Insert_steps h sl hd ps entries); [done|lia]. }
        intros [[h1 sl1] os] (ps1 & ? & ? & Ha). simpl. exists ps1.
        split; [done|]. split; [done|]. by apply Ha.
      - apply wpx_bind. eapply wpx_mono.
        { by apply (wpx_Delete_steps h sl hd ps entries). }
        intros [[h1 sl1] os] (ps1 & ? & ? & Ha). simpl. exists ps1.
        split; [done|]. split; [lia|]. by apply Ha. }
    intros [h1 sl1] (ps1 & HI1 & Hl1 & Hasc1).
    apply (IH h1 sl1 ps1 HI1 Hbk); [lia|done].
Qed.

(** What is known of a list built by calls on a fresh list. *)
Lemma built_Inv t ops h sl :
  built t ops h sl →
  ∃ ps, Inv false h sl O ps ∧ (length ps ≤ inserts ops)%nat.
Proof.
  intros (Ht & Hwf & Hsmall & Hrun).
  pose proof (Inv_weaken _ _ _ _ _ (Inv_New (Entry:=Entry) t Ht)) as HI.
  pose proof (wpx_run _ _ _ _ ops HI Hwf ltac:(simpl; lia)) as Hw.
  rewrite Hrun in Hw. simpl in Hw. destruct Hw as (ps & ? & ?). eauto.
Qed.

End Runs.

(** * The integer entries obey the comparison laws *)

Lemma Z_Compare_lt (a b : Z) : Compare a b < 0 ↔ a < b.
Proof.
  unfold Compare, Z_Comparable. destruct (Z.compare_spec a b); lia.
Qed.

Lemma Z_Compare_eq (a b : Z) : Compare a b = 0 ↔ a = b.
Proof.
  unfold Compare, Z_Comparable. destruct (Z.compare_spec a b); lia.
Qed.

Lemma Z_Compare_gt (a b : Z) : 0 < Compare a b ↔ b < a.
Proof.
  unfold Compare, Z_Comparable. destruct (Z.compare_spec a b); lia.
Qed.

Global Instance Z_CompareLaws : CompareLaws Z.
Proof.
  split.
  - intros a b c. rewrite !Z_Compare_lt. lia.
  - intros a b. rewrite Z_Compare_gt, Z_Compare_lt. lia.
  - intros a b c. rewrite !Z_Compare_lt, Z_Compare_eq. lia.
  - intros a b c. rewrite !Z_Compare_lt, Z_Compare_eq. lia.
Defined.

(** * The claims *)

Section Claims.
Context {Entry : Type} {cmp : Comparable Entry}.
Implicit Types (h : list (node (Entry:=Entry))) (sl : SkipList).

(** C1 (width conservation, I2).  In every list built from a fresh one by
    any calls of Insert, InsertAtPosition and Delete that return, every
    non-nil forward link of every node, at every level, leads to a node
    of higher rank, its width is the rank distance (the number of level-0
    nodes strictly in between, plus one), and so the widths accumulated
    from the head along any level a node takes part in add up to the
    node's 1-based rank. *)
Theorem width_conservation t ops h sl :
  built t ops h sl → I2 h sl ∧ RankSum h sl.
Proof.
  intros (ps & HI & _)%built_Inv. split.
  - by eapply Inv_I2.
  - by eapply Inv_RankSum.
Qed.

(** C3 (order invariant, I1).  Any sequence of by-key Insert and Delete
    calls on a fresh list returns, and leaves a list whose level-0
    traversal is in strictly ascending key order (hence without duplicate
    keys) and has [Len()] entries. *)
Theorem order_invariant `{!CompareLaws Entry} t (ops : list op) :
  t ≠ OtherType → Forall by_key ops → Z.of_nat (inserts ops) + 1 < 2 ^ 64 →
  ∃ h sl, run (New [] t).1 (New (Entry:=Entry) [] t).2 ops = Ret (h, sl) ∧
          ascending (to_list h sl) ∧
          Len sl = Z.of_nat (length (to_list h sl)).
Proof.
  intros Ht Hbk Hsmall.
  pose proof (Inv_weaken _ _ _ _ _ (Inv_New (Entry:=Entry) t Ht)) as HI.
  destruct (wpx_returns _ _
    (wpx_run_by_key _ _ _ _ ops HI Hbk ltac:(simpl; lia) ltac:(constructor)))
    as ([h sl] & Hrun & ps & HI' & Hasc).
  exists h, sl. split; [done|]. split.
  - by rewrite (Inv_to_list _ _ _ _ _ HI').
  - by eapply Inv_Len.
Qed.

(** C5, amended (update semantics of Insert).  In a built list whose
    level-0 traversal is in strictly ascending key order, inserting an
    entry whose key equals that of a stored entry overwrites that node's
    entry in place and returns the previous one: no node is allocated,
    [Len()], [level], every forward link and every width are unchanged,
    and so is the level-0 sequence, hence the rank of every entry. *)
Theorem insert_updates_in_place `{!CompareLaws Entry} t ops h sl q x e coins :
  built t ops h sl → ascending (to_list h sl) →
  q ∈ nodes_of h sl → entry_at h q = Some x → Compare x e = 0 →
  ∃ h' sl', Insert h sl [(e, coins)] = Ret (h', sl', [Some x]) ∧
    Len sl' = Len sl ∧ level sl' = level sl ∧ length h' = length h ∧
    rank_seq h' sl' = rank_seq h sl ∧
    entry_at h' q = Some e ∧ (∀ a, a ≠ q → entry_at h' a = entry_at h a) ∧
    (∀ L a, fw h' L a = fw h L a ∧ wd h' L a = wd h L a).
Proof.
  intros Hb Hasc Hq Hx Hcmp.
  destruct (built_Inv _ _ _ _ Hb) as (ps & HI & Hlen).
  destruct Hb as (_ & _ & Hsmall & _).
  rewrite (Inv_to_list _ _ _ _ _ HI) in Hasc.
  rewrite (Inv_nodes_of _ _ _ _ _ HI) in Hq.
  apply list_elem_of_lookup_1 in Hq as [m Hm].
  assert (Hem : entries_at h ps !! m = Some (Some x)).
  { unfold entries_at. by rewrite list_lookup_fmap, Hm; simpl; rewrite Hx. }
  pose proof (proj1 (ascending_lookup _) Hasc) as Hidx.
  destruct (wpx_returns _ _ (wpx_insert false h sl O ps e coins HI ltac:(lia)))
    as ([[h' sl'] o] & Hins & _ & _ & [Hupd|Hfresh]).
  - destruct Hupd as (r & q' & x' & Hq' & Hx' & Hcmp' & -> & _ & HI' & Hl &
      Hlv & Hnum & U).
    assert (Her : entries_at h ps !! r = Some (Some x')).
    { unfold entries_at. by rewrite list_lookup_fmap, Hq'; simpl; rewrite Hx'. }
    assert (r = m) as ->.
    { destruct (Nat.lt_total r m) as [Hlt|[?|Hlt]]; [|done|]; exfalso.
      - specialize (Hidx r m _ _ Hlt Her Hem). simpl in Hidx.
        pose proof (cmp_lt_eq _ _ _ Hidx Hcmp). lia.
      - specialize (Hidx m r _ _ Hlt Hem Her). simpl in Hidx.
        pose proof (cmp_lt_eq _ _ _ Hidx Hcmp'). lia. }
    assert (q' = q) as -> by congruence. assert (x' = x) as -> by congruence.
    exists h', sl'. simpl. rewrite Hins. simpl. split; [done|].
    split; [done|]. split; [done|]. split; [done|]. split.
    { by rewrite (Inv_rank_seq _ _ _ _ _ HI), (Inv_rank_seq _ _ _ _ _ HI'). }
    split; [rewrite (hu_entry _ _ _ _ _ U); by rewrite decide_True|].
    split.
    + intros a Ha. rewrite (hu_entry _ _ _ _ _ U). by rewrite decide_False.
    + intros L a. by rewrite (hu_fw _ _ _ _ _ U), (hu_wd _ _ _ _ _ U).
  - exfalso. destruct Hfresh as (c & _ & Hc & Hadv & Hstop & _).
    destruct (Nat.lt_total m c) as [Hlt|[->|Hlt]].
    + destruct Hadv as [->|Hadv]; [lia|].
      apply adv_key_true in Hadv as (a & y & Ha & Hy & Hylt).
      destruct c as [|c]; [lia|]. simpl in Ha.
      destruct (decide (m = c)) as [->|Hne].
      * assert (y = x) as -> by congruence. lia.
      * assert (Hec : entries_at h ps !! c = Some (Some y)).
        { unfold entries_at. by rewrite list_lookup_fmap, Ha; simpl; rewrite Hy. }
        specialize (Hidx m c _ _ ltac:(lia) Hem Hec). simpl in Hidx.
        pose proof (cmp_trans _ _ _ Hidx Hylt). lia.
    + destruct (Hstop q Hm) as (_ & y & Hy & Hne).
      assert (y = x) as -> by congruence. done.
    + destruct (lookup_lt_is_Some_2 ps c) as [q' Hq'].
      { apply lookup_lt_Some in Hm. lia. }
      destruct (Hstop q' Hq') as (Hadv' & y & Hy & Hne).
      pose proof (adv_key_false h O ps e (S c) q' y Hadv' Hq' Hy) as Hge.
      assert (Hec : entries_at h ps !! c = Some (Some y)).
      { unfold entries_at. by rewrite list_lookup_fmap, Hq'; simpl; rewrite Hy. }
      specialize (Hidx c m _ _ Hlt Hec Hem). simpl in Hidx.
      pose proof (cmp_lt_eq _ _ _ Hidx Hcmp). lia.
Qed.

(** C2, amended (split correctness).  In a built list of length [n]
    without stale widths, for every [k] with [k + 1 < n], [SplitAt(k)]
    returns a left and a right list with [k + 1] and [n - (k + 1)]
    entries, whose level-0 traversals, left then right, make up the
    original one; both satisfy the width invariant (I2, with the widths
    adding up to the ranks) and carry no stale width, and both are in
    ascending order when the original is. *)
Theorem split_correct t ops h sl k :
  built t ops h sl → clean_widths h sl → 0 ≤ k → k + 1 < Len sl →
  ∃ h' l r, SplitAt h sl k = Ret (h', l, Some r) ∧
    Len l = k + 1 ∧ Len r = Len sl - (k + 1) ∧
    to_list h' l ++ to_list h' r = to_list h sl ∧
    (ascending (to_list h sl) →
     ascending (to_list h' l) ∧ ascending (to_list h' r)) ∧
    (I2 h' l ∧ RankSum h' l ∧ clean_widths h' l) ∧
    (I2 h' r ∧ RankSum h' r ∧ clean_widths h' r).
Proof.
  intros Hb Hcl Hk0 Hk.
  destruct (built_Inv _ _ _ _ Hb) as (ps & HI0 & Hlen).
  pose proof (Inv_clean _ _ _ _ HI0 Hcl) as HI.
  pose proof (inv_num _ _ _ _ _ HI) as Hnum. unfold Len in *.
  pose proof (inv_small _ _ _ _ _ HI) as Hsm.
  assert (Hkn : (Z.to_nat (k + 1) < length ps)%nat) by lia.
  destruct (wpx_returns _ _ (wpx_splitAt true h sl O ps _ HI Hkn))
    as ([[h' l] r] & Hsp & HIl & HIr & Hl' & Hent).
  rewrite Z2Nat.id in Hsp by lia.
  exists h', l, r. unfold SplitAt. rewrite wrap64_small by lia.
  destruct (Z.leb_spec (num sl) (k + 1)); [lia|]. rewrite Hsp. simpl.
  split; [done|].
  split; [rewrite (inv_num _ _ _ _ _ HIl), length_take; lia|].
  split; [rewrite (inv_num _ _ _ _ _ HIr), length_drop; lia|].
  assert (Hframe : ∀ ps', ps' ⊆ ps → entries_at h' ps' = entries_at h ps').
  { intros ps' Hsub. apply entries_at_frame. intros a Ha. apply Hent.
    eapply Inv_fresh_addr; [exact HI|]. by apply Hsub. }
  assert (Hcat : to_list h' l ++ to_list h' r = to_list h sl).
  { rewrite (Inv_to_list _ _ _ _ _ HIl), (Inv_to_list _ _ _ _ _ HIr),
      (Inv_to_list _ _ _ _ _ HI).
    rewrite !Hframe by (apply subseteq_take || apply subseteq_drop).
    unfold entries_at. by rewrite <- fmap_app, take_drop. }
  split; [done|]. split.
  { rewrite <- Hcat. intros Hasc.
    split; [by eapply StronglySorted_app_1_l|by eapply StronglySorted_app_1_r]. }
  split.
  - split; [by eapply Inv_I2|]. split; [by eapply Inv_RankSum|].
    by eapply Inv_clean_widths.
  - split; [by eapply Inv_I2|]. split; [by eapply Inv_RankSum|].
    by eapply Inv_clean_widths.
Qed.


(** C9, amended (construction).  [New] has no failure result: it returns
    a handle for every argument, empty, with a head sentinel of
    [maxLevel] levels; [maxLevel] is 8, 16, 32 or 64 for the supported
    classes and stays 0 for any other argument. *)
Theorem New_always_constructs (h : list (node (Entry:=Entry))) (t : ifc) :
  ∃ sl, New h t = (h ++ [newNode None (maxLevel sl)], sl) ∧
    head sl = Some (length h) ∧ Len sl = 0 ∧ level sl = O ∧
    maxLevel sl = match t with
                  | Uint8 => 8%nat
                  | Uint16 => 16%nat
                  | Uint32 => 32%nat
                  | Uint64 | Uint => 64%nat
                  | OtherType => O
                  end.
Proof. exists (New h t).2. by destruct t. Qed.

End Claims.

(** * The claims on concrete lists *)

Lemma built_state_after ops :
  Forall op_wf ops → Z.of_nat (inserts ops) + 1 < 2 ^ 64 →
  run h0 sl0 ops = Ret (state_after ops) →
  built Uint8 ops (state_after ops).1 (state_after ops).2.
Proof.
  intros Hwf Hsmall Hrun. split; [done|]. split; [done|]. split; [done|].
  fold h0. fold sl0. rewrite Hrun. by destruct (state_after ops).
Qed.

Lemma built_stale :
  built Uint8 stale_ops (state_after stale_ops).1 (state_after stale_ops).2.
Proof.
  apply built_state_after; [repeat constructor|by vm_compute|by vm_compute].
Qed.

Lemma built_sorted :
  built Uint8 sorted_ops (state_after sorted_ops).1 (state_after sorted_ops).2.
Proof.
  apply built_state_after; [repeat constructor|by vm_compute|by vm_compute].
Qed.

Lemma built_unsorted :
  built Uint8 unsorted_ops (state_after unsorted_ops).1
    (state_after unsorted_ops).2.
Proof.
  apply built_state_after; [|by vm_compute|by vm_compute].
  repeat constructor; by vm_compute.
Qed.

Lemma built_single :
  built Uint8 single_ops (state_after single_ops).1 (state_after single_ops).2.
Proof.
  apply built_state_after; [repeat constructor|by vm_compute|by vm_compute].
Qed.

Ltac each_level L HF :=
  do 8 (destruct L as [|L];
    [vm_compute in HF; try discriminate HF; by vm_compute|]);
  vm_compute in HF; discriminate HF.

Lemma clean_sorted :
  clean_widths (state_after sorted_ops).1 (state_after sorted_ops).2.
Proof.
  intros a L Ha HF.
  assert (Hseq : rank_seq (state_after sorted_ops).1 (state_after sorted_ops).2
                 = [0; 2; 1; 3; 4]%nat) by (by vm_compute).
  rewrite Hseq in Ha. clear Hseq.
  repeat (apply elem_of_cons in Ha as [->|Ha]; [each_level L HF|]).
  destruct (not_elem_of_nil _ Ha).
Qed.

Lemma ascending_sorted :
  ascending (to_list (state_after sorted_ops).1 (state_after sorted_ops).2).
Proof.
  assert (Hl : to_list (state_after sorted_ops).1 (state_after sorted_ops).2
               = [Some 1; Some 3; Some 4; Some 5]) by (by vm_compute).
  rewrite Hl. repeat constructor; by vm_compute.
Qed.

Lemma width_conservation_witness :
  built Uint8 stale_ops (state_after stale_ops).1 (state_after stale_ops).2 ∧
  I2 (state_after stale_ops).1 (state_after stale_ops).2 ∧
  RankSum (state_after stale_ops).1 (state_after stale_ops).2.
Proof.
  split; [exact built_stale|].
  exact (width_conservation Uint8 stale_ops _ _ built_stale).
Defined.

Lemma order_invariant_witness :
  ∃ h sl, run (New [] Uint8).1 (New (Entry:=Z) [] Uint8).2 sorted_ops
            = Ret (h, sl) ∧
          ascending (to_list h sl) ∧
          Len sl = Z.of_nat (length (to_list h sl)).
Proof.
  apply (order_invariant Uint8 sorted_ops).
  - discriminate.
  - repeat constructor.
  - by vm_compute.
Defined.

Lemma insert_updates_in_place_witness :
  ∃ h' sl',
    Insert (state_after sorted_ops).1 (state_after sorted_ops).2
      [(3, draws 2)] = Ret (h', sl', [Some 3]) ∧
    Len sl' = Len (state_after sorted_ops).2 ∧
    level sl' = level (state_after sorted_ops).2 ∧
    length h' = length (state_after sorted_ops).1 ∧
    rank_seq h' sl' =
      rank_seq (state_after sorted_ops).1 (state_after sorted_ops).2 ∧
    entry_at h' 1%nat = Some 3 ∧
    (∀ a, a ≠ 1%nat →
          entry_at h' a = entry_at (state_after sorted_ops).1 a) ∧
    (∀ L a, fw h' L a = fw (state_after sorted_ops).1 L a ∧
            wd h' L a = wd (state_after sorted_ops).1 L a).
Proof.
  apply (insert_updates_in_place Uint8 sorted_ops _ _ 1%nat 3 3 (draws 2)).
  - exact built_sorted.
  - exact ascending_sorted.
  - apply (list_elem_of_lookup_2 _ 1%nat). by vm_compute.
  - by vm_compute.
  - by vm_compute.
Defined.

Lemma split_correct_witness :
  ∃ h' l r,
    SplitAt (state_after sorted_ops).1 (state_after sorted_ops).2 1
      = Ret (h', l, Some r) ∧
    Len l = 1 + 1 ∧ Len r = Len (state_after sorted_ops).2 - (1 + 1) ∧
    to_list h' l ++ to_list h' r =
      to_list (state_after sorted_ops).1 (state_after sorted_ops).2 ∧
    (ascending (to_list (state_after sorted_ops).1 (state_after sorted_ops).2) →
     ascending (to_list h' l) ∧ ascending (to_list h' r)) ∧
    (I2 h' l ∧ RankSum h' l ∧ clean_widths h' l) ∧
    (I2 h' r ∧ RankSum h' r ∧ clean_widths h' r).
Proof.
  apply (split_correct Uint8 sorted_ops).
  - exact built_sorted.
  - exact clean_sorted.
  - lia.
  - by vm_compute.
Defined.


(** Counterexample to C2 as stated: the last rank is a [k] in [0, n), yet
    splitting there yields no right list at all, let alone one of length
    0. *)
Lemma split_at_last_rank_has_no_right :
  Len (state_after sorted_ops).2 = 4 ∧
  ¬ ∃ h' l r,
      SplitAt (state_after sorted_ops).1 (state_after sorted_ops).2 3
        = Ret (h', l, Some r).
Proof.
  split; [by vm_compute|]. intros (h' & l & r & Heq).
  vm_compute in Heq. discriminate Heq.
Qed.

(** Counterexample to C5 as stated: a list built with InsertAtPosition
    holds 5 then 1; inserting key 1 by key does not find the stored 1, adds
    a node and returns nothing. *)
Lemma insert_misses_key_in_unordered_list :
  to_list (state_after unsorted_ops).1 (state_after unsorted_ops).2
    = [Some 5; Some 1] ∧
  ∃ h' sl',
    Insert (state_after unsorted_ops).1 (state_after unsorted_ops).2
      [(1, draws 1)] = Ret (h', sl', [None]) ∧
    Len sl' = Len (state_after unsorted_ops).2 + 1 ∧
    to_list h' sl' = [Some 1; Some 5; Some 1].
Proof.
  split; [by vm_compute|].
  destruct (Insert (state_after unsorted_ops).1 (state_after unsorted_ops).2
              [(1, draws 1)]) as [[[h' sl'] o]| |] eqn:Heq;
    vm_compute in Heq; try discriminate Heq.
  exists h', sl'. injection Heq as <- <- <-. by vm_compute.
Qed.


(** Counterexample to C9 as stated: for an unsupported argument [New]
    reports nothing and hands out a handle, with [maxLevel = 0]. *)
Lemma New_unsupported_returns_handle :
  New (Entry:=Z) [] OtherType =
    ([Node None [] []], MkSkipList 0 0 (Some 0%nat) 0 [] []).
Proof. reflexivity. Qed.

(** C4: after Insert(1), Insert(2) (drawn two levels high) and Delete(2),
    the list holds the single entry 1, and [ByPosition(0)] panics instead
    of returning it. *)
Theorem ByPosition_panics_after_delete :
  to_list (state_after stale_ops).1 (state_after stale_ops).2 = [Some 1] ∧
  Len (state_after stale_ops).2 = 1 ∧
  ByPosition (state_after stale_ops).1 (state_after stale_ops).2 0 = Panic.
Proof. repeat split; by vm_compute. Qed.

(** C6: in the same list [InsertAtPosition(1, 9)] panics instead of
    appending. *)
Theorem InsertAtPosition_panics_after_delete :
  Len (state_after stale_ops).2 = 1 ∧
  InsertAtPosition (state_after stale_ops).1 (state_after stale_ops).2 1 9
    (draws 1) = Panic.
Proof. split; by vm_compute. Qed.

(** C8: with 1, 3, 4, 5 stored, key 2 is absent ([Get] says so), yet
    [GetWithPosition(2)] returns the successor 3 and its rank 1. *)
Theorem GetWithPosition_returns_successor :
  to_list (state_after sorted_ops).1 (state_after sorted_ops).2
    = [Some 1; Some 3; Some 4; Some 5] ∧
  Get (state_after sorted_ops).1 (state_after sorted_ops).2 [2] = Ret [None] ∧
  GetWithPosition (state_after sorted_ops).1 (state_after sorted_ops).2 2
    = Ret (Some 3, 1).
Proof. repeat split; by vm_compute. Qed.

(** C10: the list left by Insert(1), Insert(2), Delete(2) is reachable,
    its head has a nil forward link at level 1 with the stale width 1, and
    the search by rank steps onto that nil node and panics. *)
Theorem stale_width_after_delete :
  built Uint8 stale_ops (state_after stale_ops).1 (state_after stale_ops).2 ∧
  fw (state_after stale_ops).1 1 0 = Some None ∧
  wd (state_after stale_ops).1 1 0 = Some 1 ∧
  searchByPosition (state_after stale_ops).1 (state_after stale_ops).2 1 None
    = Panic.
Proof. split; [exact built_stale|]. repeat split; by vm_compute. Qed.

(** * Reads: the searches without scratch slices *)

Section Reads.
Context {Entry : Type} {cmp : Comparable Entry}.
Implicit Types (h : list (node (Entry:=Entry))) (sl : SkipList).

Local Arguments for_up : simpl never.
Local Arguments while : simpl never.
Local Arguments record_trail : simpl never.

(** A search that is handed no scratch slices walks exactly as one that
    is. *)
Lemma for_up_erase (body : nat → ptr * Z * trail → res (ptr * Z * trail)) :
  (∀ i p z t r, body i (p, z, Some t) = Ret r →
     ∃ t', r.2 = Some t' ∧ body i (p, z, None) = Ret (r.1, None)) →
  ∀ n i p z t r, for_up n i body (p, z, Some t) = Ret r →
    for_up n i body (p, z, None) = Ret (r.1, None).
Proof.
  intros Hbody n. induction n as [|n IH]; intros i p z t r Hr.
  - unfold for_up in *. by simplify_eq.
  - unfold for_up in *; fold @for_up in *. simpl in *.
    destruct (body i (p, z, Some t)) as [[[p1 z1] t1]| |] eqn:Hb;
      simpl in Hr; try done.
    destruct (Hbody _ _ _ _ _ Hb) as (t' & Ht' & ->). simpl in *. subst t1.
    by eapply IH.
Qed.

Lemma record_trail_erase (t : list ptr * list Z) offset n pos r :
  record_trail (Some t) offset n pos = Ret r → ∃ t', r = Some t'.
Proof.
  destruct t as [u ws]. unfold record_trail. intros Hr.
  destruct (upd u offset n); simpl in Hr; try done.
  destruct (upd ws offset pos); simpl in Hr; try done.
  simplify_eq. by eexists.
Qed.

Lemma search_erase h sl e n pos t :
  search h sl e (own_trail sl) = Ret (n, pos, t) →
  search h sl e None = Ret (n, pos, None).
Proof.
  unfold search. destruct (num sl =? 0); [intros; by simplify_eq|].
  intros Hs.
  destruct (for_up (S (level sl)) 0 (search_level h sl e)
              (head sl, 0, own_trail sl)) as [[[n1 p1] t1]| |] eqn:Hf;
    simpl in Hs; try done.
  erewrite for_up_erase; [| |exact Hf].
  - simpl. destruct (get_forward h n1 0); simpl in *; by simplify_eq.
  - clear. intros i p z t r. unfold search_level. simpl.
    destruct (while _ _ _ _) as [[n' p']| |]; simpl; try done.
    intros Hr.
    destruct (record_trail (Some t) _ _ _) as [t'| |] eqn:Ht; simpl in Hr;
      try done.
    apply record_trail_erase in Ht as [t'' ->]. simplify_eq. simpl. by eexists.
Qed.

Lemma searchByPosition_erase h sl position n pos t :
  searchByPosition h sl position (own_trail sl) = Ret (n, pos, t) →
  searchByPosition h sl position None = Ret (n, pos, None).
Proof.
  unfold searchByPosition. destruct (num sl =? 0); [intros; by simplify_eq|].
  destruct (num sl <? position); [intros; by simplify_eq|].
  intros Hs.
  destruct (for_up (S (level sl)) 0 (searchByPosition_level h sl position)
              (head sl, 0, own_trail sl)) as [[[n1 p1] t1]| |] eqn:Hf;
    simpl in Hs; try done.
  erewrite for_up_erase; [| |exact Hf].
  - simpl. by simplify_eq.
  - clear. intros i p z t r. unfold searchByPosition_level. simpl.
    destruct (while _ _ _ _) as [[n' p']| |]; simpl; try done.
    intros Hr.
    destruct (record_trail (Some t) _ _ _) as [t'| |] eqn:Ht; simpl in Hr;
      try done.
    apply record_trail_erase in Ht as [t'' ->]. simplify_eq. simpl. by eexists.
Qed.

(** Search by key, as the reads call it: the rank [r] the descent stops at
    is a boundary of the advance test. *)
Lemma search_read clean h sl hd ps e :
  Inv clean h sl hd ps →
  ∃ r, (r ≤ length ps)%nat ∧
    search h sl e None = Ret (ps !! r, wrap64 (Z.of_nat r + 1), None) ∧
    (r = O ∨ adv_key h (hd :: ps) e r = true) ∧
    (∀ q, ps !! r = Some q → adv_key h (hd :: ps) e (S r) = false).
Proof.
  intros HI. destruct (decide (ps = [])) as [->|Hne].
  - exists O. split; [done|]. split; [|split; [by left|done]].
    unfold search. rewrite (inv_num _ _ _ _ _ HI). done.
  - destruct (wpx_returns _ _ (wpx_search true clean h sl hd ps e HI Hne))
      as ([[n pos] t] & Hs & r & Hpost & -> & ->).
    destruct Hpost as (cch & pch & _ & _ & Hr & _ & Hadv & Hstop).
    exists r. split; [done|]. split; [by apply search_erase in Hs|done].
Qed.

(** Search by rank without scratch slices, in a list without stale
    widths. *)
Lemma searchByPosition_read h sl hd ps position :
  Inv true h sl hd ps → ps ≠ [] → 0 ≤ position ≤ Z.of_nat (length ps) →
  searchByPosition h sl position None =
    Ret ((hd :: ps) !! Z.to_nat position, wrap64 (position + 1), None).
Proof.
  intros HI Hne Hpos.
  destruct (wpx_returns _ _
    (wpx_searchByPosition true h sl hd ps position HI Hne Hpos))
    as ([[n pos] t] & Hs & r & _ & <- & -> & ->).
  apply searchByPosition_erase in Hs. by rewrite Nat2Z.id.
Qed.

Lemma entries_at_lookup h (ps : list nat) j x :
  entries_at h ps !! j = Some x ↔ ∃ q, ps !! j = Some q ∧ entry_at h q = x.
Proof.
  unfold entries_at. rewrite list_lookup_fmap.
  destruct (ps !! j) as [q|]; simpl; split.
  - intros [= <-]. by exists q.
  - intros (q' & [= <-] & <-). done.
  - done.
  - by intros (? & ? & _).
Qed.

Lemma Inv_entries_Some clean h sl hd ps j o :
  Inv clean h sl hd ps → entries_at h ps !! j = Some o → is_Some o.
Proof.
  intros HI (q & Hq & <-)%entries_at_lookup.
  eapply inv_entry; [done|]. by eapply list_elem_of_lookup_2.
Qed.

End Reads.

Section KeyOrder.
Context {Entry : Type} {cmp : Comparable Entry} {laws : CompareLaws Entry}.
Implicit Types (h : list (node (Entry:=Entry))) (sl : SkipList).

(** In an ascending list the boundary a search by key stops at splits
    the list into the entries below the key and the entries not below
    it. *)
Lemma boundary_split clean h sl hd ps e r :
  Inv clean h sl hd ps → ascending (entries_at h ps) →
  (r = O ∨ adv_key h (hd :: ps) e r = true) →
  (∀ q, ps !! r = Some q → adv_key h (hd :: ps) e (S r) = false) →
  (∀ j x, (j < r)%nat → entries_at h ps !! j = Some (Some x) →
          Compare x e < 0) ∧
  (∀ j x, (r ≤ j)%nat → entries_at h ps !! j = Some (Some x) →
          0 ≤ Compare x e).
Proof.
  intros HI Hasc Hadv Hstop.
  pose proof (proj1 (ascending_lookup _) Hasc) as Hidx. split.
  - intros j x Hj Hx. destruct Hadv as [->|Hadv]; [lia|].
    apply adv_key_true in Hadv as (a & y & Ha & Hy & Hlt).
    destruct r as [|r]; [lia|]. simpl in Ha.
    assert (Hr : entries_at h ps !! r = Some (Some y)).
    { apply entries_at_lookup. by exists a. }
    destruct (decide (j = r)) as [->|]; [by simplify_eq|].
    specialize (Hidx j r _ _ ltac:(lia) Hx Hr). simpl in Hidx.
    by eapply cmp_trans.
  - intros j x Hj Hx.
    destruct (lookup_lt_is_Some_2 ps r) as [q Hq].
    { apply lookup_lt_Some in Hx. unfold entries_at in Hx.
      rewrite length_fmap in Hx. lia. }
    destruct (inv_entry _ _ _ _ _ HI q) as [y Hy];
      [by eapply list_elem_of_lookup_2|].
    pose proof (adv_key_false h hd ps e (S r) q y (Hstop q Hq) Hq Hy) as Hge.
    assert (Hr : entries_at h ps !! r = Some (Some y)).
    { apply entries_at_lookup. by exists q. }
    destruct (decide (j = r)) as [->|]; [by simplify_eq|].
    specialize (Hidx r j _ _ ltac:(lia) Hr Hx). simpl in Hidx.
    destruct (Z.lt_ge_cases (Compare x e) 0) as [Hlt|]; [|lia].
    pose proof (cmp_trans _ _ _ Hidx Hlt). lia.
Qed.

(** A stored entry that compares equal to the key sits exactly at the
    boundary. *)
Lemma boundary_hit clean h sl hd ps e r m x :
  Inv clean h sl hd ps → ascending (entries_at h ps) →
  (r = O ∨ adv_key h (hd :: ps) e r = true) →
  (∀ q, ps !! r = Some q → adv_key h (hd :: ps) e (S r) = false) →
  entries_at h ps !! m = Some (Some x) → Compare x e = 0 → m = r.
Proof.
  intros HI Hasc Hadv Hstop Hm Hx.
  destruct (boundary_split _ _ _ _ _ _ _ HI Hasc Hadv Hstop) as [Hlo Hhi].
  pose proof (proj1 (ascending_lookup _) Hasc) as Hidx.
  destruct (Nat.lt_total m r) as [Hlt|[->|Hlt]]; [|done|]; exfalso.
  - specialize (Hlo m x Hlt Hm). lia.
  - destruct (lookup_lt_is_Some_2 (entries_at h ps) r) as [o Ho].
    { apply lookup_lt_Some in Hm. lia. }
    destruct (Inv_entries_Some _ _ _ _ _ _ _ HI Ho) as [y ->].
    specialize (Hhi r y ltac:(lia) Ho).
    specialize (Hidx r m _ _ Hlt Ho Hm). simpl in Hidx.
    pose proof (cmp_lt_eq _ _ _ Hidx Hx). lia.
Qed.

End KeyOrder.

Section ReadSpecs.
Context {Entry : Type} {cmp : Comparable Entry}.
Implicit Types (h : list (node (Entry:=Entry))) (sl : SkipList).

Lemma node_compare_eq h a x e :
  entry_at h a = Some x → node_compare h (Some a) e = Ret (Compare x e).
Proof.
  intros (nd & Hnd & Hx)%entry_at_Some.
  unfold node_compare, load, idx. rewrite Hnd. simpl. by rewrite Hx.
Qed.

Lemma get_entry_eq h a :
  (a < length h)%nat → get_entry h (Some a) = Ret (entry_at h a).
Proof.
  intros [nd Hnd]%lookup_lt_is_Some_2.
  unfold get_entry, entry_at, load, idx. by rewrite Hnd.
Qed.

Lemma Inv_addr_lt clean h sl hd ps a :
  Inv clean h sl hd ps → a ∈ hd :: ps → (a < length h)%nat.
Proof. intros HI Ha. apply ht_lt_length. by eapply Inv_ht_pos. Qed.

(** What [Get] answers for one key, in terms of the boundary rank. *)
Lemma get1_spec clean h sl hd ps e :
  Inv clean h sl hd ps →
  ∃ r, (r ≤ length ps)%nat ∧
    (r = O ∨ adv_key h (hd :: ps) e r = true) ∧
    (∀ q, ps !! r = Some q → adv_key h (hd :: ps) e (S r) = false) ∧
    get1 h sl e = Ret (match entries_at h ps !! r with
                       | Some (Some x) =>
                           if Compare x e =? 0 then Some x else None
                       | _ => None
                       end).
Proof.
  intros HI. destruct (search_read clean h sl hd ps e HI)
    as (r & Hr & Hs & Hadv & Hstop).
  exists r. do 3 (split; [done|]).
  unfold get1. rewrite Hs. simpl. unfold entries_at.
  rewrite list_lookup_fmap. destruct (ps !! r) as [q|] eqn:Hq; simpl; [|done].
  assert (Hin : q ∈ ps) by (by eapply list_elem_of_lookup_2).
  destruct (inv_entry _ _ _ _ _ HI q Hin) as [x Hx].
  rewrite (node_compare_eq _ _ _ _ Hx), Hx. simpl.
  destruct (Compare x e =? 0); [|done].
  rewrite get_entry_eq, Hx; [done|].
  eapply Inv_addr_lt; [done|]. by right.
Qed.

(** [GetWithPosition] returns whatever sits at the boundary rank, and
    that rank. *)
Lemma GetWithPosition_spec clean h sl hd ps e :
  Inv clean h sl hd ps →
  ∃ r, (r ≤ length ps)%nat ∧
    (r = O ∨ adv_key h (hd :: ps) e r = true) ∧
    (∀ q, ps !! r = Some q → adv_key h (hd :: ps) e (S r) = false) ∧
    GetWithPosition h sl e = Ret (match entries_at h ps !! r with
                                  | Some o => (o, Z.of_nat r)
                                  | None => (None, 0)
                                  end).
Proof.
  intros HI. destruct (search_read clean h sl hd ps e HI)
    as (r & Hr & Hs & Hadv & Hstop).
  exists r. do 3 (split; [done|]).
  unfold GetWithPosition. rewrite Hs. simpl. unfold entries_at.
  rewrite list_lookup_fmap. destruct (ps !! r) as [q|] eqn:Hq; simpl; [|done].
  assert (Hin : q ∈ ps) by (by eapply list_elem_of_lookup_2).
  rewrite get_entry_eq by (eapply Inv_addr_lt; [done|by right]). simpl.
  pose proof (inv_small _ _ _ _ _ HI).
  apply lookup_lt_Some in Hq.
  rewrite (wrap64_small (Z.of_nat r + 1)) by lia.
  rewrite wrap64_small by lia. do 3 f_equal. lia.
Qed.

(** [ByPosition] in a list without stale widths: the entry at the rank,
    nil beyond the end. *)
Lemma ByPosition_spec h sl hd ps p :
  Inv true h sl hd ps → 0 ≤ p < 2 ^ 64 →
  ByPosition h sl p = Ret (mjoin (entries_at h ps !! Z.to_nat p)).
Proof.
  intros HI Hp. unfold ByPosition.
  pose proof (inv_small _ _ _ _ _ HI) as Hsm.
  pose proof (inv_num _ _ _ _ _ HI) as Hnum.
  assert (Hout : (length ps ≤ Z.to_nat p)%nat →
                 mjoin (entries_at h ps !! Z.to_nat p) = None).
  { intros Hle. rewrite lookup_ge_None_2; [done|].
    unfold entries_at. by rewrite length_fmap. }
  destruct (decide (ps = [])) as [->|Hne].
  { rewrite Hout by (simpl; lia).
    unfold searchByPosition. rewrite Hnum. done. }
  destruct (decide (p + 1 = 2 ^ 64)) as [Hmax|Hmax].
  - rewrite Hmax. replace (wrap64 (2 ^ 64)) with 0 by done.
    rewrite (searchByPosition_read h sl hd ps 0 HI Hne) by lia. simpl.
    rewrite get_entry_eq by (eapply Inv_addr_lt; [done|by left]).
    rewrite (inv_hd_entry _ _ _ _ _ HI). rewrite Hout; [done|lia].
  - rewrite wrap64_small by lia.
    destruct (decide (p + 1 ≤ Z.of_nat (length ps))) as [Hin|Hbig].
    + rewrite (searchByPosition_read h sl hd ps (p + 1) HI Hne) by lia.
      replace (Z.to_nat (p + 1)) with (S (Z.to_nat p)) by lia. simpl.
      destruct (lookup_lt_is_Some_2 ps (Z.to_nat p)) as [q Hq]; [lia|].
      rewrite Hq. unfold entries_at. rewrite list_lookup_fmap, Hq. simpl.
      rewrite get_entry_eq; [done|].
      eapply Inv_addr_lt; [done|]. right. by eapply list_elem_of_lookup_2.
    + unfold searchByPosition. rewrite Hnum.
      destruct (Z.eqb_spec (Z.of_nat (length ps)) 0).
      { rewrite Hout by lia. done. }
      destruct (Z.ltb_spec (Z.of_nat (length ps)) (p + 1)); [|lia].
      rewrite Hout by lia. done.
Qed.

End ReadSpecs.

(** * Mutations by key, in terms of the entry sequence *)

Section KeyMutations.
Context {Entry : Type} {cmp : Comparable Entry} {laws : CompareLaws Entry}.
Implicit Types (h : list (node (Entry:=Entry))) (sl : SkipList).

(** In an ascending list at most one entry compares equal to a key. *)
Lemma ascending_key_unique (l : list (option Entry)) e i j x y :
  ascending l → l !! i = Some (Some x) → l !! j = Some (Some y) →
  Compare x e = 0 → Compare y e = 0 → i = j.
Proof.
  intros Hasc Hi Hj Hx Hy.
  pose proof (proj1 (ascending_lookup _) Hasc) as Hidx.
  destruct (Nat.lt_total i j) as [Hlt|[->|Hlt]]; [|done|]; exfalso.
  - specialize (Hidx i j _ _ Hlt Hi Hj). simpl in Hidx.
    pose proof (cmp_lt_eq _ _ _ Hidx Hy). lia.
  - specialize (Hidx j i _ _ Hlt Hj Hi). simpl in Hidx.
    pose proof (cmp_lt_eq _ _ _ Hidx Hx). lia.
Qed.

(** One insertion by key into an ascending list: an update in place at
    the rank of the equal key, or a new entry at the rank that keeps the
    order. *)
Lemma insert_shape clean h sl hd ps e coins :
  Inv clean h sl hd ps → Z.of_nat (length ps) + 1 < 2 ^ 64 →
  ascending (entries_at h ps) →
  ∃ h' sl' o ps', insert h sl e coins = Ret (h', sl', o) ∧
    Inv clean h' sl' hd ps' ∧ ascending (entries_at h' ps') ∧
    ((∃ r x, entries_at h ps !! r = Some (Some x) ∧ Compare x e = 0 ∧
        o = Some x ∧ ps' = ps ∧
        entries_at h' ps' = <[r:=Some e]> (entries_at h ps)) ∨
     (o = None ∧ (∀ x, Some x ∈ entries_at h ps → Compare x e ≠ 0) ∧
      ∃ c, (c ≤ length ps)%nat ∧
        entries_at h' ps' =
          take c (entries_at h ps) ++ Some e :: drop c (entries_at h ps))).
Proof.
  intros HI Hsmall Hasc.
  destruct (wpx_returns _ _ (wpx_insert clean h sl hd ps e coins HI Hsmall))
    as ([[h' sl'] o] & Hins & _ & _ & [Hupd|Hfresh]).
  - destruct Hupd as (r & q & x & Hq & Hx & Hcmp & -> & _ & HI' & _ & _ & _ & U).
    exists h', sl', (Some x), ps. split; [done|]. split; [done|].
    pose proof (inv_nodup _ _ _ _ _ HI) as [_ Hnd]%NoDup_cons.
    assert (Hr : entries_at h ps !! r = Some (Some x)).
    { apply entries_at_lookup. by exists q. }
    rewrite (entries_at_upd h h' ps r q e Hnd Hq (hu_entry _ _ _ _ _ U)).
    split; [by eapply ascending_upd|]. left. by exists r, x.
  - destruct Hfresh as (c & -> & Hc & Hadv & Hstop & HI' & _ & Hnn & Hold).
    exists h', sl', None, (take c ps ++ length h :: drop c ps).
    split; [done|]. split; [done|].
    rewrite (entries_at_ins h h' ps c (length h) e); [|intros a Ha|done].
    2:{ apply Hold. by eapply Inv_fresh_addr. }
    split.
    { apply ascending_ins; [done|unfold entries_at; by rewrite length_fmap| |].
      + intros y Hc1 Hy. destruct Hadv as [->|Hadv]; [lia|].
        apply adv_key_true in Hadv as (a & x & Ha & Hx & Hlt).
        destruct c as [|c]; [lia|]. simpl in *.
        rewrite Nat.sub_0_r in Hy.
        apply entries_at_lookup in Hy as (q & Hq & <-).
        assert (q = a) as -> by congruence. by rewrite Hx.
      + intros y (q & Hq & <-)%entries_at_lookup.
        destruct (Hstop q Hq) as (Hadv' & x & Hx & Hne).
        rewrite Hx. simpl. apply cmp_gt_lt.
        pose proof (adv_key_false h hd ps e (S c) q x Hadv' Hq Hx). lia. }
    right. split; [done|]. split; [|by exists c].
    intros x [m Hm]%list_elem_of_lookup_1 Hx.
    assert (m = c) as ->.
    { eapply (boundary_hit clean h sl hd ps e c m x); try done.
      intros q Hq. by destruct (Hstop q Hq). }
    apply entries_at_lookup in Hm as (q & Hq & Hqx).
    destruct (Hstop q Hq) as (_ & y & Hy & Hne). congruence.
Qed.

(** One deletion by key from an ascending list. *)
Lemma delete_shape clean h sl hd ps e :
  Inv clean h sl hd ps → ascending (entries_at h ps) →
  ∃ h' sl' o, delete h sl e = Ret (h', sl', o) ∧
    ((o = None ∧ h' = h ∧ Inv clean h sl' hd ps ∧
      (∀ x, Some x ∈ entries_at h ps → Compare x e ≠ 0)) ∨
     (∃ c x ps', entries_at h ps !! c = Some (Some x) ∧ Compare x e = 0 ∧
        o = Some x ∧ Inv false h' sl' hd ps' ∧
        ps' = take c ps ++ drop (S c) ps ∧
        entries_at h' ps' =
          take c (entries_at h ps) ++ drop (S c) (entries_at h ps))).
Proof.
  intros HI Hasc.
  destruct (wpx_returns _ _ (wpx_delete_at clean h sl hd ps e HI))
    as ([[h' sl'] o] & Hdel & _ & _ & _ & Hent & r & Hr & Hadv & Hstop & Hcase).
  exists h', sl', o. split; [done|]. destruct Hcase as [Hmiss|Hhit].
  - left. destruct Hmiss as (-> & -> & HI' & Hno). do 3 (split; [done|]).
    intros x [m Hm]%list_elem_of_lookup_1 Hx.
    assert (m = r) as -> by (by eapply (boundary_hit clean h sl hd ps e r m x)).
    apply entries_at_lookup in Hm as (q & Hq & Hqx). by eapply Hno.
  - right. destruct Hhit as (q & x & Hq & Hx & Hcmp & -> & HI').
    exists r, x, (take r ps ++ drop (S r) ps).
    split; [apply entries_at_lookup; by exists q|].
    do 4 (split; [done|]). by apply entries_at_del.
Qed.

End KeyMutations.

Section KeyMisses.
Context {Entry : Type} {cmp : Comparable Entry}.
Implicit Types (h : list (node (Entry:=Entry))) (sl : SkipList).

(** Deleting a key no stored entry compares equal to, in any list. *)
Lemma delete_absent clean h sl hd ps e :
  Inv clean h sl hd ps →
  (∀ x, Some x ∈ entries_at h ps → Compare x e ≠ 0) →
  ∃ sl', delete h sl e = Ret (h, sl', None) ∧ Inv clean h sl' hd ps.
Proof.
  intros HI Hno.
  destruct (wpx_returns _ _ (wpx_delete_at clean h sl hd ps e HI))
    as ([[h' sl'] o] & Hdel & _ & _ & _ & Hent & r & Hr & Hadv & Hstop & Hcase).
  destruct Hcase as [Hmiss|Hhit].
  - destruct Hmiss as (-> & -> & HI' & _). by exists sl'.
  - exfalso. destruct Hhit as (q & x & Hq & Hx & Hcmp & _).
    apply (Hno x); [|done]. apply (list_elem_of_lookup_2 _ r).
    apply entries_at_lookup. by exists q.
Qed.

End KeyMisses.

(** * Sequences of calls without a deletion *)

Section CleanRuns.
Context {Entry : Type} {cmp : Comparable Entry}.
Implicit Types (h : list (node (Entry:=Entry))) (sl : SkipList).

Lemma length_ins {A : Type} (l : list A) c x :
  (c ≤ length l)%nat → length (take c l ++ x :: drop c l) = S (length l).
Proof.
  intros Hc. rewrite length_app, length_take. simpl. rewrite length_drop. lia.
Qed.

Lemma wpx_insert_keep clean h sl hd ps e coins :
  Inv clean h sl hd ps → Z.of_nat (length ps) + 1 < 2 ^ 64 →
  wpx true (insert h sl e coins) (λ '(h', sl', _),
    ∃ ps', Inv clean h' sl' hd ps' ∧ (length ps' ≤ length ps + 1)%nat).
Proof.
  intros HI Hsmall. eapply wpx_mono; [by apply wpx_insert|].
  intros [[h' sl'] o] (_ & _ & [Hupd|Hfresh]).
  - destruct Hupd as (r & q & x & _ & _ & _ & _ & _ & HI' & _).
    exists ps. split; [done|lia].
  - destruct Hfresh as (c & _ & Hc & _ & _ & HI' & _).
    eexists. split; [done|]. rewrite length_ins by done. lia.
Qed.

Lemma wpx_Insert_keep clean h sl hd ps entries :
  Inv clean h sl hd ps →
  Z.of_nat (length ps + length entries) + 1 < 2 ^ 64 →
  wpx true (Insert h sl entries) (λ '(h', sl', _),
    ∃ ps', Inv clean h' sl' hd ps' ∧
      (length ps' ≤ length ps + length entries)%nat).
Proof.
  revert h sl ps. induction entries as [|[e coins] rest IH];
    intros h sl ps HI Hsmall; simpl.
  - exists ps. split; [done|lia].
  - apply wpx_bind. eapply wpx_mono.
    { apply wpx_insert_keep; [done|]. simpl in Hsmall. lia. }
    intros [[h1 sl1] o] (ps1 & HI1 & Hl1). simpl.
    apply wpx_bind. eapply wpx_mono.
    { apply (IH h1 sl1 ps1 HI1). simpl in Hsmall. lia. }
    intros [[h2 sl2] os] (ps2 & HI2 & Hl2). simpl.
    exists ps2. split; [done|lia].
Qed.

(** Without a deletion every call returns and no stale width arises. *)
Lemma wpx_run_clean h sl hd ps ops :
  Inv true h sl hd ps → Forall op_wf ops → Forall no_delete ops →
  Z.of_nat (length ps + inserts ops) + 1 < 2 ^ 64 →
  wpx true (run h sl ops) (λ '(h', sl'),
    ∃ ps', Inv true h' sl' hd ps' ∧
           (length ps' ≤ length ps + inserts ops)%nat).
Proof.
  revert h sl ps. induction ops as [|o rest IH];
    intros h sl ps HI Hwf Hnd Hsmall; simpl.
  - exists ps. split; [done|lia].
  - apply Forall_cons in Hwf as [Hwf1 Hwf].
    apply Forall_cons in Hnd as [Hnd1 Hnd]. simpl in Hsmall.
    apply wpx_bind.
    apply (wpx_mono _ _ (λ '(h1, sl1), ∃ ps1, Inv true h1 sl1 hd ps1 ∧
             (length ps1 ≤ length ps + op_inserts o)%nat)).
    { destruct o as [entries|position e coins|entries]; simpl in *; [| |done].
      - apply wpx_bind. eapply wpx_mono.
        { apply (wpx_Insert_keep true h sl hd ps entries); [done|lia]. }
        intros [[h1 sl1] os] (ps1 & ? & ?). simpl. eauto.
      - unfold InsertAtPosition. eapply wpx_mono.
        { apply (wpx_insertAtPosition true h sl hd ps position e coins);
            [done|lia|lia]. }
        intros [h1 sl1] (_ & _ & HI1 & _). simpl. eexists. split; [done|].
        rewrite length_ins by lia. lia. }
    intros [h1 sl1] (ps1 & HI1 & Hl1).
    eapply wpx_mono; [apply (IH h1 sl1 ps1 HI1 Hwf Hnd); lia|].
    intros [h2 sl2] (ps2 & HI2 & Hl2). exists ps2. split; [done|lia].
Qed.

(** [ReplaceAtPosition] in a list without stale widths. *)
Lemma replaceAtPosition_spec h sl hd ps p e :
  Inv true h sl hd ps → 0 ≤ p → p + 1 < 2 ^ 64 →
  ∃ h', replaceAtPosition h sl p e = Ret h' ∧ Inv true h' sl hd ps ∧
    entries_at h' ps = <[Z.to_nat p:=Some e]> (entries_at h ps).
Proof.
  intros HI Hp0 Hp. unfold replaceAtPosition. rewrite wrap64_small by lia.
  pose proof (inv_num _ _ _ _ _ HI) as Hnum.
  assert (Hout : (length ps ≤ Z.to_nat p)%nat →
    entries_at h ps = <[Z.to_nat p:=Some e]> (entries_at h ps)).
  { intros Hle. rewrite list_insert_ge; [done|].
    unfold entries_at. by rewrite length_fmap. }
  destruct (decide (p + 1 ≤ Z.of_nat (length ps))) as [Hin|Hbig].
  - assert (Hne : ps ≠ []) by (intros ->; simpl in Hin; lia).
    rewrite (searchByPosition_read h sl hd ps (p + 1) HI Hne) by lia.
    replace (Z.to_nat (p + 1)) with (S (Z.to_nat p)) by lia. simpl.
    destruct (lookup_lt_is_Some_2 ps (Z.to_nat p)) as [q Hq]; [lia|].
    rewrite Hq.
    assert (Hqin : q ∈ ps) by (by eapply list_elem_of_lookup_2).
    destruct (wpx_returns _ _ (wpx_set_entry true h q (Some e)
      (λ h', heap_upd h h' (fw h) (wd h)
               (λ a', if decide (a' = q) then Some e else entry_at h a'))
      ltac:(eapply Inv_addr_lt; [exact HI|by right]) ltac:(done)))
      as (h' & Hset & U).
    exists h'. split; [done|]. split; [by eapply Inv_set_entry|].
    pose proof (inv_nodup _ _ _ _ _ HI) as [_ Hnd]%NoDup_cons.
    by apply (entries_at_upd h h' ps (Z.to_nat p) q e Hnd Hq
                (hu_entry _ _ _ _ _ U)).
  - exists h. split; [|split; [done|apply Hout; lia]].
    unfold searchByPosition. rewrite Hnum.
    destruct (Z.eqb_spec (Z.of_nat (length ps)) 0); [done|].
    by destruct (Z.ltb_spec (Z.of_nat (length ps)) (p + 1)); [|lia].
Qed.

(** [Iter] stands at the node of the boundary rank. *)
Lemma iter_spec clean h sl hd ps e :
  Inv clean h sl hd ps →
  ∃ r, (r ≤ length ps)%nat ∧
    (r = O ∨ adv_key h (hd :: ps) e r = true) ∧
    (∀ q, ps !! r = Some q → adv_key h (hd :: ps) e (S r) = false) ∧
    iter h sl e = Ret (match ps !! r with
                       | Some q => MkIterator true (Some q)
                       | None => NilIterator
                       end).
Proof.
  intros HI. destruct (search_read clean h sl hd ps e HI)
    as (r & Hr & Hs & Hadv & Hstop).
  exists r. do 3 (split; [done|]).
  unfold iter. rewrite Hs. simpl. by destruct (ps !! r).
Qed.

End CleanRuns.

(** * The level generator *)

Lemma generateLevel_loop_spec fuel lvl bound coins k :
  (1 ≤ lvl ≤ bound)%nat → (bound ≤ 255)%nat → (bound - lvl < fuel)%nat →
  (lvl ≤ generateLevel_loop fuel lvl bound coins k ≤ bound)%nat ∧
  (∀ j, (j < generateLevel_loop fuel lvl bound coins k - lvl)%nat →
        coins (k + j)%nat = false) ∧
  ((generateLevel_loop fuel lvl bound coins k < bound)%nat →
   coins (k + (generateLevel_loop fuel lvl bound coins k - lvl))%nat = true).
Proof.
  revert lvl k. induction fuel as [|fuel IH]; intros lvl k Hl Hb Hf; [lia|].
  simpl. destruct (Nat.ltb_spec lvl bound) as [Hlt|Hge].
  - destruct (coins k) eqn:Hk.
    + split; [lia|]. split; [intros j Hj; lia|].
      intros _. by rewrite Nat.sub_diag, Nat.add_0_r.
    + assert (Hw : wrap8 (lvl + 1) = S lvl).
      { unfold wrap8. rewrite Nat.mod_small by lia. lia. }
      rewrite Hw.
      destruct (IH (S lvl) (S k) ltac:(lia) Hb ltac:(lia)) as (Hr & Hlow & Hhit).
      set (r := generateLevel_loop fuel (S lvl) bound coins (S k)) in *.
      split; [lia|]. split.
      * intros j Hj. destruct j as [|j]; [by rewrite Nat.add_0_r|].
        replace (k + S j)%nat with (S k + j)%nat by lia. apply Hlow. lia.
      * intros Hrb. specialize (Hhit Hrb).
        replace (k + (r - lvl))%nat with (S k + (r - S lvl))%nat by lia. done.
  - split; [lia|]. split; [intros j Hj; lia|]. lia.
Qed.

(** * Further properties of the operations *)

Section Reading.
Context {Entry : Type} {cmp : Comparable Entry}.
Implicit Types (h : list (node (Entry:=Entry))) (sl : SkipList).

Lemma built_Inv_small t ops h sl :
  built t ops h sl →
  ∃ ps, Inv false h sl O ps ∧ Z.of_nat (length ps) + 1 < 2 ^ 64.
Proof.
  intros Hb. destruct (built_Inv _ _ _ _ Hb) as (ps & HI & Hlen).
  destruct Hb as (_ & _ & Hsmall & _). exists ps. split; [done|lia].
Qed.

Lemma built_Inv_clean t ops h sl :
  built t ops h sl → clean_widths h sl →
  ∃ ps, Inv true h sl O ps ∧ Z.of_nat (length ps) + 1 < 2 ^ 64.
Proof.
  intros Hb Hcl. destruct (built_Inv_small _ _ _ _ Hb) as (ps & HI & Hsm).
  exists ps. split; [by apply Inv_clean|done].
Qed.

(** X1.  In every list built by Insert, InsertAtPosition and Delete, out
    of order or with stale widths as it may be, [Get] returns, with one
    answer per key, and an answer that is not nil is an entry stored in
    the list whose key compares equal to the key asked for. *)
Theorem Get_answers_are_stored t ops h sl es :
  built t ops h sl →
  ∃ rs, Get h sl es = Ret rs ∧
    Forall2 (λ e r, ∀ x, r = Some x →
               Some x ∈ to_list h sl ∧ Compare x e = 0) es rs.
Proof.
  intros (ps & HI & _)%built_Inv_small.
  rewrite (Inv_to_list _ _ _ _ _ HI).
  induction es as [|e es (rs & Hrs & Hall)]; [by exists []|].
  destruct (get1_spec false h sl O ps e HI) as (r & _ & _ & _ & Hg).
  eexists (_ :: rs). simpl. rewrite Hg, Hrs. simpl. split; [done|].
  constructor; [|done]. intros x Hx.
  destruct (entries_at h ps !! r) as [[y|]|] eqn:Hy; try done.
  destruct (Z.eqb_spec (Compare y e) 0); [|done]. simplify_eq.
  split; [by eapply list_elem_of_lookup_2|done].
Qed.

(** X2.  In a built list whose level-0 traversal is in ascending key
    order, [Get] finds every stored key: the answer for a key is the
    stored entry that compares equal to it, and it is nil only when no
    stored entry does. *)
Theorem Get_finds_stored_keys `{!CompareLaws Entry} t ops h sl es :
  built t ops h sl → ascending (to_list h sl) →
  ∃ rs, Get h sl es = Ret rs ∧
    Forall2 (λ e r,
      match r with
      | Some x => Some x ∈ to_list h sl ∧ Compare x e = 0
      | None => ∀ x, Some x ∈ to_list h sl → Compare x e ≠ 0
      end) es rs.
Proof.
  intros (ps & HI & _)%built_Inv_small.
  rewrite (Inv_to_list _ _ _ _ _ HI). intros Hasc.
  induction es as [|e es (rs & Hrs & Hall)]; [by exists []|].
  destruct (get1_spec false h sl O ps e HI) as (r & _ & Hadv & Hstop & Hg).
  eexists (_ :: rs). simpl. rewrite Hg, Hrs. simpl. split; [done|].
  constructor; [|done].
  assert (Hmiss : (∀ y, entries_at h ps !! r = Some (Some y) →
                        Compare y e ≠ 0) →
                  ∀ x, Some x ∈ entries_at h ps → Compare x e ≠ 0).
  { intros Hr x [m Hm]%list_elem_of_lookup_1 Hx.
    assert (m = r) as -> by (by eapply (boundary_hit false h sl O ps e r m x)).
    by eapply Hr. }
  destruct (entries_at h ps !! r) as [[y|]|] eqn:Hy.
  - destruct (Z.eqb_spec (Compare y e) 0).
    + split; [by eapply list_elem_of_lookup_2|done].
    + apply Hmiss. intros ? [= <-]. done.
  - by apply Hmiss.
  - by apply Hmiss.
Qed.

(** X3.  In a built list in ascending key order [GetWithPosition(e)]
    answers with the lower bound of [e]: the rank [r] it reports is the
    number of stored entries below [e], every entry from rank [r] on is
    not below [e], and the entry returned is the one at rank [r]; when
    every stored entry is below [e] it returns nil and rank 0. *)
Theorem GetWithPosition_lower_bound `{!CompareLaws Entry} t ops h sl e :
  built t ops h sl → ascending (to_list h sl) →
  ∃ r, (r ≤ length (to_list h sl))%nat ∧
    (∀ j x, (j < r)%nat → to_list h sl !! j = Some (Some x) →
            Compare x e < 0) ∧
    (∀ j x, (r ≤ j)%nat → to_list h sl !! j = Some (Some x) →
            0 ≤ Compare x e) ∧
    GetWithPosition h sl e = Ret (match to_list h sl !! r with
                                  | Some o => (o, Z.of_nat r)
                                  | None => (None, 0)
                                  end).
Proof.
  intros (ps & HI & _)%built_Inv_small.
  rewrite (Inv_to_list _ _ _ _ _ HI). intros Hasc.
  destruct (GetWithPosition_spec false h sl O ps e HI)
    as (r & Hr & Hadv & Hstop & Hg).
  exists r. split; [unfold entries_at; by rewrite length_fmap|].
  destruct (boundary_split _ _ _ _ _ _ _ HI Hasc Hadv Hstop) as [Hlo Hhi].
  done.
Qed.

(** X4.  In a built list without stale widths [ByPosition(p)] returns
    the entry at rank [p] of the level-0 traversal when there is one, and
    nil for every position at or beyond [Len()]. *)
Theorem ByPosition_reads_rank t ops h sl p :
  built t ops h sl → clean_widths h sl → 0 ≤ p < 2 ^ 64 →
  ByPosition h sl p = Ret (mjoin (to_list h sl !! Z.to_nat p)).
Proof.
  intros Hb Hcl Hp. destruct (built_Inv_clean _ _ _ _ Hb Hcl) as (ps & HI & _).
  rewrite (Inv_to_list _ _ _ _ _ HI). by eapply ByPosition_spec.
Qed.

(** X5.  In a built list in ascending key order and without stale
    widths, the rank [GetWithPosition] reports for a stored key is the
    position at which [ByPosition] reads that very entry. *)
Theorem GetWithPosition_agrees_with_ByPosition `{!CompareLaws Entry}
    t ops h sl e x :
  built t ops h sl → clean_widths h sl → ascending (to_list h sl) →
  Some x ∈ to_list h sl → Compare x e = 0 →
  ∃ r, 0 ≤ r < Len sl ∧ GetWithPosition h sl e = Ret (Some x, r) ∧
       ByPosition h sl r = Ret (Some x).
Proof.
  intros Hb Hcl. destruct (built_Inv_clean _ _ _ _ Hb Hcl) as (ps & HI & Hsm).
  rewrite (Inv_to_list _ _ _ _ _ HI). intros Hasc [m Hm]%list_elem_of_lookup_1 Hx.
  destruct (GetWithPosition_spec true h sl O ps e HI)
    as (r & Hr & Hadv & Hstop & Hg).
  assert (m = r) as -> by (by eapply (boundary_hit true h sl O ps e r m x)).
  exists (Z.of_nat r). rewrite Hm in Hg.
  pose proof (lookup_lt_Some _ _ _ Hm) as Hlt.
  unfold entries_at in Hlt. rewrite length_fmap in Hlt.
  unfold Len. rewrite (inv_num _ _ _ _ _ HI). split; [lia|]. split; [done|].
  rewrite (ByPosition_spec h sl O ps (Z.of_nat r) HI) by lia.
  by rewrite Nat2Z.id, Hm.
Qed.

(** X6.  In every built list [Len()] is the number of nodes on the
    level-0 chain, every node on the chain carries an entry (none is nil),
    and no node occurs twice on it. *)
Theorem Len_counts_chain t ops h sl :
  built t ops h sl →
  Len sl = Z.of_nat (length (to_list h sl)) ∧
  Forall is_Some (to_list h sl) ∧ NoDup (nodes_of h sl).
Proof.
  intros (ps & HI & _)%built_Inv_small. split; [by eapply Inv_Len|].
  rewrite (Inv_to_list _ _ _ _ _ HI), (Inv_nodes_of _ _ _ _ _ HI). split.
  - apply Forall_forall. intros o [j Hj]%list_elem_of_lookup_1.
    by eapply Inv_entries_Some.
  - by pose proof (inv_nodup _ _ _ _ _ HI) as [_ ?]%NoDup_cons.
Qed.

(** X7.  In every built list the current level stays below [maxLevel],
    the head sentinel has [maxLevel] levels, every node on the chain has
    between 1 and [level] levels, and every allocated node has as many
    widths as forward links: the loops over [0..level] of the searches and
    of [delete] never index a slice out of range. *)
Theorem towers_fit_level t ops h sl :
  built t ops h sl →
  (level sl < maxLevel sl)%nat ∧
  (∃ hd, head sl = Some hd ∧ ht h hd = maxLevel sl) ∧
  length (cache sl) = maxLevel sl ∧ length (posCache sl) = maxLevel sl ∧
  Forall (λ a, (1 ≤ ht h a ≤ level sl)%nat) (nodes_of h sl) ∧
  heap_ok h.
Proof.
  intros (ps & HI & _)%built_Inv_small.
  rewrite (Inv_nodes_of _ _ _ _ _ HI).
  split; [apply (inv_level _ _ _ _ _ HI)|].
  split; [exists O; split; [apply HI|apply (inv_hd_ht _ _ _ _ _ HI)]|].
  split; [apply (inv_cache _ _ _ _ _ HI)|].
  split; [apply (inv_posCache _ _ _ _ _ HI)|].
  split; [|apply (inv_heap _ _ _ _ _ HI)].
  apply Forall_forall. intros a Ha. by apply (inv_ht _ _ _ _ _ HI).
Qed.

End Reading.

Section Writing.
Context {Entry : Type} {cmp : Comparable Entry}.
Implicit Types (h : list (node (Entry:=Entry))) (sl : SkipList).

(** X8.  A sequence of Insert and InsertAtPosition calls on a fresh list
    (no Delete among them) always returns, and leaves a list without
    stale widths: every nil forward link of a node on the chain has
    width 0. *)
Theorem insert_only_runs_stay_clean t (ops : list op) :
  t ≠ OtherType → Forall op_wf ops → Forall no_delete ops →
  Z.of_nat (inserts ops) + 1 < 2 ^ 64 →
  ∃ h sl, run (New [] t).1 (New (Entry:=Entry) [] t).2 ops = Ret (h, sl) ∧
          clean_widths h sl.
Proof.
  intros Ht Hwf Hnd Hsmall.
  destruct (wpx_returns _ _
    (wpx_run_clean _ _ _ _ ops (Inv_New (Entry:=Entry) t Ht) Hwf Hnd
       ltac:(simpl; lia))) as ([h sl] & Hrun & ps & HI & _).
  exists h, sl. split; [done|]. by eapply Inv_clean_widths.
Qed.

(** X9.  In a built list without stale widths [InsertAtPosition(p, e)]
    returns and puts [e] as a new entry at rank [min(p, Len())], whatever
    the stored keys are: [Len()] grows by one, the entries before and
    after keep their order, and no stale width arises. *)
Theorem InsertAtPosition_inserts_at_rank t ops h sl p e coins :
  built t ops h sl → clean_widths h sl → 0 ≤ p < 2 ^ 64 →
  ∃ h' sl', InsertAtPosition h sl p e coins = Ret (h', sl') ∧
    Len sl' = Len sl + 1 ∧
    to_list h' sl' =
      take (Z.to_nat (p `min` Len sl)) (to_list h sl) ++
      Some e :: drop (Z.to_nat (p `min` Len sl)) (to_list h sl) ∧
    clean_widths h' sl'.
Proof.
  intros Hb Hcl Hp. destruct (built_Inv_clean _ _ _ _ Hb Hcl) as (ps & HI & Hsm).
  destruct (wpx_returns _ _
    (wpx_insertAtPosition true h sl O ps p e coins HI Hsm ltac:(lia)))
    as ([h' sl'] & Hins & _ & _ & HI' & _ & Hnn & Hold).
  exists h', sl'. split; [done|].
  unfold Len. rewrite (inv_num _ _ _ _ _ HI'), (inv_num _ _ _ _ _ HI).
  split; [rewrite length_ins by lia; lia|].
  split; [|by eapply Inv_clean_widths].
  rewrite (Inv_to_list _ _ _ _ _ HI'), (Inv_to_list _ _ _ _ _ HI).
  apply entries_at_ins; [|done]. intros a Ha. apply Hold.
  by eapply Inv_fresh_addr.
Qed.

(** X10.  In a built list without stale widths [ReplaceAtPosition(p, e)]
    returns and overwrites the entry at rank [p] when [p < Len()], and
    changes no entry when [p] is at or beyond [Len()]; the chain, and so
    [Len()], stay as they are. *)
Theorem ReplaceAtPosition_overwrites_rank t ops h sl p e :
  built t ops h sl → clean_widths h sl → 0 ≤ p → p + 1 < 2 ^ 64 →
  ∃ h', ReplaceAtPosition h sl p e = Ret h' ∧
    nodes_of h' sl = nodes_of h sl ∧
    to_list h' sl = <[Z.to_nat p:=Some e]> (to_list h sl).
Proof.
  intros Hb Hcl Hp0 Hp.
  destruct (built_Inv_clean _ _ _ _ Hb Hcl) as (ps & HI & Hsm).
  destruct (replaceAtPosition_spec h sl O ps p e HI Hp0 Hp)
    as (h' & Hrep & HI' & Hent).
  exists h'. split; [done|].
  rewrite (Inv_nodes_of _ _ _ _ _ HI'), (Inv_nodes_of _ _ _ _ _ HI).
  split; [done|].
  by rewrite (Inv_to_list _ _ _ _ _ HI'), (Inv_to_list _ _ _ _ _ HI).
Qed.

(** X11.  Deleting a key that no stored entry compares equal to is a
    no-op in every built list: [Delete] returns nil for it, the heap is
    untouched, and [Len()] and the level-0 traversal stay as they are. *)
Theorem Delete_absent_key_is_noop t ops h sl e :
  built t ops h sl →
  (∀ x, Some x ∈ to_list h sl → Compare x e ≠ 0) →
  ∃ sl', Delete h sl [e] = Ret (h, sl', [None]) ∧
    Len sl' = Len sl ∧ to_list h sl' = to_list h sl.
Proof.
  intros (ps & HI & _)%built_Inv_small.
  rewrite (Inv_to_list _ _ _ _ _ HI). intros Hno.
  destruct (delete_absent false h sl O ps e HI Hno) as (sl' & Hdel & HI').
  exists sl'. simpl. rewrite Hdel. simpl. split; [done|].
  unfold Len. rewrite (inv_num _ _ _ _ _ HI'), (inv_num _ _ _ _ _ HI).
  split; [done|]. by rewrite (Inv_to_list _ _ _ _ _ HI').
Qed.

End Writing.

Section WritingByKey.
Context {Entry : Type} {cmp : Comparable Entry} {laws : CompareLaws Entry}.
Implicit Types (h : list (node (Entry:=Entry))) (sl : SkipList).

(** X12.  In a built list in ascending key order, inserting an entry
    whose key no stored entry compares equal to returns nil for it and
    adds it at the one rank that keeps the order: [Len()] grows by one and
    the level-0 traversal is the old one with the entry put in, still
    ascending. *)
Theorem Insert_new_key_in_order t ops h sl e coins :
  built t ops h sl → ascending (to_list h sl) →
  (∀ x, Some x ∈ to_list h sl → Compare x e ≠ 0) →
  ∃ h' sl' c, Insert h sl [(e, coins)] = Ret (h', sl', [None]) ∧
    Len sl' = Len sl + 1 ∧
    to_list h' sl' = take c (to_list h sl) ++ Some e :: drop c (to_list h sl) ∧
    ascending (to_list h' sl').
Proof.
  intros (ps & HI & Hsm)%built_Inv_small.
  rewrite (Inv_to_list _ _ _ _ _ HI). intros Hasc Hno.
  destruct (insert_shape false h sl O ps e coins HI Hsm Hasc)
    as (h' & sl' & o & ps' & Hins & HI' & Hasc' & [Hupd|Hfresh]).
  { exfalso. destruct Hupd as (r & x & Hr & Hx & _).
    apply (Hno x); [|done]. by eapply list_elem_of_lookup_2. }
  destruct Hfresh as (-> & _ & c & Hc & Hent).
  exists h', sl', c. simpl. rewrite Hins. simpl. split; [done|].
  rewrite (Inv_to_list _ _ _ _ _ HI'). rewrite <- Hent. split; [|done].
  unfold Len. rewrite (inv_num _ _ _ _ _ HI'), (inv_num _ _ _ _ _ HI).
  assert (length (entries_at h' ps') = S (length (entries_at h ps))) as Hlen.
  { rewrite Hent. apply length_ins. unfold entries_at.
    by rewrite length_fmap. }
  unfold entries_at in Hlen. rewrite !length_fmap in Hlen. lia.
Qed.

(** X13.  Insert then Get: in a built list in ascending key order, after
    [Insert(e)] has returned (whether it added [e] or overwrote an entry
    of equal key), [Get(e)] returns [e]. *)
Theorem Get_after_Insert t ops h sl e coins :
  built t ops h sl → ascending (to_list h sl) → Compare e e = 0 →
  ∃ h' sl' o, Insert h sl [(e, coins)] = Ret (h', sl', [o]) ∧
    Get h' sl' [e] = Ret [Some e].
Proof.
  intros (ps & HI & Hsm)%built_Inv_small.
  rewrite (Inv_to_list _ _ _ _ _ HI). intros Hasc Hrefl.
  destruct (insert_shape false h sl O ps e coins HI Hsm Hasc)
    as (h' & sl' & o & ps' & Hins & HI' & Hasc' & Hcase).
  exists h', sl', o. simpl. rewrite Hins. simpl. split; [done|].
  assert (Hin : ∃ m, entries_at h' ps' !! m = Some (Some e)).
  { destruct Hcase as [(r & x & Hr & _ & _ & _ & ->)|(_ & _ & c & Hc & ->)].
    - exists r. rewrite list_lookup_insert_eq; [done|].
      by eapply lookup_lt_Some.
    - exists c. rewrite lookup_ins0 by (unfold entries_at; by rewrite length_fmap).
      rewrite decide_False by lia. by rewrite decide_True. }
  destruct Hin as [m Hm].
  destruct (get1_spec false h' sl' O ps' e HI') as (r & _ & Hadv & Hstop & Hg).
  assert (m = r) as ->
    by (by eapply (boundary_hit false h' sl' O ps' e r m e)).
  rewrite Hg, Hm. simpl. by destruct (Z.eqb_spec (Compare e e) 0).
Qed.

(** X14.  In a built list in ascending key order, deleting the key of a
    stored entry returns that entry and removes exactly it: [Len()] drops
    by one and the level-0 traversal is the old one without the entry. *)
Theorem Delete_removes_stored_key t ops h sl e c x :
  built t ops h sl → ascending (to_list h sl) →
  to_list h sl !! c = Some (Some x) → Compare x e = 0 →
  ∃ h' sl', Delete h sl [e] = Ret (h', sl', [Some x]) ∧
    Len sl' = Len sl - 1 ∧
    to_list h' sl' = take c (to_list h sl) ++ drop (S c) (to_list h sl).
Proof.
  intros (ps & HI & Hsm)%built_Inv_small.
  rewrite (Inv_to_list _ _ _ _ _ HI). intros Hasc Hc Hx.
  destruct (delete_shape false h sl O ps e HI Hasc)
    as (h' & sl' & o & Hdel & [Hmiss|Hhit]).
  { exfalso. destruct Hmiss as (_ & _ & _ & Hno).
    apply (Hno x); [|done]. by eapply list_elem_of_lookup_2. }
  destruct Hhit as (c' & x' & ps' & Hc' & Hx' & -> & HI' & -> & Hent).
  assert (c' = c) as -> by (by eapply (ascending_key_unique _ e c' c x' x)).
  assert (x' = x) as -> by congruence.
  exists h', sl'. simpl. rewrite Hdel. simpl. split; [done|].
  rewrite (Inv_to_list _ _ _ _ _ HI'). split; [|done].
  unfold Len. rewrite (inv_num _ _ _ _ _ HI'), (inv_num _ _ _ _ _ HI).
  apply lookup_lt_Some in Hc. unfold entries_at in Hc.
  rewrite length_fmap in Hc.
  rewrite length_app, length_take, length_drop. lia.
Qed.

(** X15.  Delete then Get: in a built list in ascending key order, after
    [Delete(e)] has returned, [Get(e)] returns nil. *)
Theorem Get_after_Delete t ops h sl e :
  built t ops h sl → ascending (to_list h sl) →
  ∃ h' sl' o, Delete h sl [e] = Ret (h', sl', [o]) ∧
    Get h' sl' [e] = Ret [None].
Proof.
  intros (ps & HI & Hsm)%built_Inv_small.
  rewrite (Inv_to_list _ _ _ _ _ HI). intros Hasc.
  destruct (delete_shape false h sl O ps e HI Hasc)
    as (h' & sl' & o & Hdel & Hcase).
  exists h', sl', o. simpl. rewrite Hdel. simpl. split; [done|].
  assert (Hpost : ∃ ps', Inv false h' sl' O ps' ∧
            ∀ x, Some x ∈ entries_at h' ps' → Compare x e ≠ 0).
  { destruct Hcase as [(_ & -> & HI' & Hno)|Hhit]; [by exists ps|].
    destruct Hhit as (c & x & ps' & Hc & Hx & _ & HI' & -> & Hent).
    eexists. split; [done|]. rewrite Hent.
    intros y [j Hj]%list_elem_of_lookup_1 Hy. rewrite lookup_del0 in Hj.
    destruct (decide (j < c)%nat).
    - pose proof (ascending_key_unique _ e j c y x Hasc Hj Hc Hy Hx). lia.
    - pose proof (ascending_key_unique _ e (S j) c y x Hasc Hj Hc Hy Hx). lia. }
  destruct Hpost as (ps' & HI' & Hno).
  destruct (get1_spec false h' sl' O ps' e HI') as (r & _ & _ & _ & Hg).
  rewrite Hg. simpl.
  destruct (entries_at h' ps' !! r) as [[y|]|] eqn:Hy; try done.
  destruct (Z.eqb_spec (Compare y e) 0) as [Heq|]; [|done].
  exfalso. apply (Hno y); [|done]. by eapply list_elem_of_lookup_2.
Qed.

(** X16.  Insert then Delete: in a built list in ascending key order,
    inserting an entry with a new key and then deleting that key returns
    the entry and restores the level-0 traversal and [Len()]. *)
Theorem Delete_undoes_Insert t ops h sl e coins :
  built t ops h sl → ascending (to_list h sl) →
  (∀ x, Some x ∈ to_list h sl → Compare x e ≠ 0) → Compare e e = 0 →
  ∃ h1 sl1 h2 sl2,
    Insert h sl [(e, coins)] = Ret (h1, sl1, [None]) ∧
    Delete h1 sl1 [e] = Ret (h2, sl2, [Some e]) ∧
    to_list h2 sl2 = to_list h sl ∧ Len sl2 = Len sl.
Proof.
  intros (ps & HI & Hsm)%built_Inv_small.
  rewrite (Inv_to_list _ _ _ _ _ HI). intros Hasc Hno Hrefl.
  destruct (insert_shape false h sl O ps e coins HI Hsm Hasc)
    as (h1 & sl1 & o & ps1 & Hins & HI1 & Hasc1 & [Hupd|Hfresh]).
  { exfalso. destruct Hupd as (r & x & Hr & Hx & _).
    apply (Hno x); [|done]. by eapply list_elem_of_lookup_2. }
  destruct Hfresh as (-> & _ & c & Hc & Hent).
  assert (Hlc : (c ≤ length (entries_at h ps))%nat)
    by (unfold entries_at; by rewrite length_fmap).
  assert (Hm : entries_at h1 ps1 !! c = Some (Some e)).
  { rewrite Hent, lookup_ins0 by done.
    rewrite decide_False by lia. by rewrite decide_True. }
  destruct (delete_shape false h1 sl1 O ps1 e HI1 Hasc1)
    as (h2 & sl2 & o & Hdel & [Hmiss|Hhit]).
  { exfalso. destruct Hmiss as (_ & _ & _ & Hno1).
    apply (Hno1 e); [|done]. by eapply list_elem_of_lookup_2. }
  destruct Hhit as (c' & x' & ps2 & Hc' & Hx' & -> & HI2 & _ & Hent2).
  assert (c' = c) as -> by (by eapply (ascending_key_unique _ e c' c x' e)).
  assert (x' = e) as -> by congruence.
  exists h1, sl1, h2, sl2. simpl. rewrite Hins. simpl. rewrite Hdel. simpl.
  do 2 (split; [done|]).
  assert (Hback : entries_at h2 ps2 = entries_at h ps).
  { rewrite Hent2, Hent.
    rewrite take_app_le by (rewrite length_take; lia).
    rewrite take_take, Nat.min_id.
    rewrite drop_app_ge by (rewrite length_take; lia).
    rewrite length_take, Nat.min_l by done.
    replace (S c - c)%nat with 1%nat by lia. simpl. rewrite drop_0.
    apply take_drop. }
  split; [by rewrite (Inv_to_list _ _ _ _ _ HI2)|].
  unfold Len. rewrite (inv_num _ _ _ _ _ HI2), (inv_num _ _ _ _ _ HI).
  assert (length (entries_at h2 ps2) = length (entries_at h ps)) as Hlen
    by (by rewrite Hback).
  unfold entries_at in Hlen. rewrite !length_fmap in Hlen. lia.
Qed.

(** X17.  In a built list in ascending key order [Iter(e)] stands, not
    yet advanced, at the node of the first entry that is not below [e]:
    all entries before it are below [e], it and all entries after it are
    not; when every stored entry is below [e] the empty iterator is
    returned. *)
Theorem Iter_starts_at_lower_bound t ops h sl e :
  built t ops h sl → ascending (to_list h sl) →
  ∃ r, (∀ j x, (j < r)%nat → to_list h sl !! j = Some (Some x) →
               Compare x e < 0) ∧
       (∀ j x, (r ≤ j)%nat → to_list h sl !! j = Some (Some x) →
               0 ≤ Compare x e) ∧
       Iter h sl e = Ret (match nodes_of h sl !! r with
                          | Some q => MkIterator true (Some q)
                          | None => NilIterator
                          end).
Proof.
  intros (ps & HI & _)%built_Inv_small.
  rewrite (Inv_to_list _ _ _ _ _ HI), (Inv_nodes_of _ _ _ _ _ HI).
  intros Hasc.
  destruct (iter_spec false h sl O ps e HI) as (r & Hr & Hadv & Hstop & Hit).
  exists r.
  destruct (boundary_split _ _ _ _ _ _ _ HI Hasc Hadv Hstop) as [Hlo Hhi].
  done.
Qed.

End WritingByKey.

(** X18.  For a list with [2 <= maxLevel <= 255], [generateLevel] returns
    a height between 1 and [maxLevel - 1]: one more than the number of
    leading draws below [p], capped at [maxLevel - 1]. *)
Theorem generateLevel_counts_low_draws (ml : nat) (coins : nat → bool) :
  (2 ≤ ml ≤ 255)%nat →
  (1 ≤ generateLevel ml coins ≤ ml - 1)%nat ∧
  (∀ k, (k < generateLevel ml coins - 1)%nat → coins k = false) ∧
  ((generateLevel ml coins < ml - 1)%nat →
   coins (generateLevel ml coins - 1)%nat = true).
Proof.
  intros Hml. unfold generateLevel.
  assert (Hb : wrap8 (ml + 255) = (ml - 1)%nat).
  { unfold wrap8. replace (ml + 255)%nat with (ml - 1 + 1 * 256)%nat by lia.
    rewrite Nat.Div0.mod_add. apply Nat.mod_small. lia. }
  rewrite Hb.
  destruct (generateLevel_loop_spec 256 1 (ml - 1) coins 0
              ltac:(lia) ltac:(lia) ltac:(lia)) as (Hr & Hlow & Hhit).
  split; [lia|]. split; [intros k Hk; by apply (Hlow k)|].
  intros Hlt. by apply Hhit.
Qed.

Section Unsupported.
Context {Entry : Type} {cmp : Comparable Entry}.
Implicit Types (h : list (node (Entry:=Entry))) (sl : SkipList).

Local Arguments for_up : simpl never.

Lemma insertNode_without_levels h sl n e pos coins :
  maxLevel sl = O → level sl = O → cache sl = [] →
  insertNode h sl n e pos true coins = Panic.
Proof.
  intros Hml Hlv Hc. unfold insertNode. simpl. rewrite Hml, Hlv, Hc.
  destruct (generateLevel_loop_spec 256 1 255 coins 0
              ltac:(lia) ltac:(lia) ltac:(lia)) as (Hr & _).
  unfold generateLevel. replace (wrap8 (0 + 255)) with 255%nat by done.
  destruct (generateLevel_loop 256 1 255 coins 0) as [|g] eqn:Hg; [lia|].
  by simpl.
Qed.

(** X19.  A handle that [New] made from an argument that is not of an
    unsigned integer type has no levels at all, and the first insertion
    into it, by key or by position, panics with an index out of range
    whatever the entry and the draws of the level generator are. *)
Theorem unsupported_handle_panics_on_insert h e coins p :
  Insert (New h OtherType).1 (New h OtherType).2 [(e, coins)] = Panic ∧
  InsertAtPosition (New h OtherType).1 (New h OtherType).2 p e coins = Panic.
Proof.
  split.
  - simpl. unfold insert, search. simpl.
    destruct (generateLevel_loop_spec 256 1 255 coins 0
                ltac:(lia) ltac:(lia) ltac:(lia)) as (Hr & _).
    unfold insertNode. simpl.
    unfold generateLevel. replace (wrap8 (0 + 255)) with 255%nat by done.
    destruct (generateLevel_loop 256 1 255 coins 0) as [|g] eqn:Hg; [lia|].
    by simpl.
  - unfold InsertAtPosition, insertAtPosition, searchByPosition. simpl.
    by rewrite insertNode_without_levels.
Qed.

End Unsupported.

Section AnyList.
Context {Entry : Type} {cmp : Comparable Entry}.
Implicit Types (h : list (node (Entry:=Entry))) (sl : SkipList).

(** X20.  In every built list, in key order or not and with stale widths
    or not, [Insert(e)] returns, and it either overwrites in place one
    stored entry whose key compares equal to [e] and returns it, with
    [Len()] unchanged, or adds [e] as one new entry, with [Len()] grown
    by one and the other entries in their old order. *)
Theorem Insert_overwrites_or_adds t ops h sl e coins :
  built t ops h sl →
  ∃ h' sl' o, Insert h sl [(e, coins)] = Ret (h', sl', [o]) ∧
    match o with
    | Some x =>
        Compare x e = 0 ∧ Len sl' = Len sl ∧
        ∃ r, to_list h sl !! r = Some (Some x) ∧
             to_list h' sl' = <[r:=Some e]> (to_list h sl)
    | None =>
        Len sl' = Len sl + 1 ∧
        ∃ c, (c ≤ length (to_list h sl))%nat ∧
             to_list h' sl' =
               take c (to_list h sl) ++ Some e :: drop c (to_list h sl)
    end.
Proof.
  intros (ps & HI & Hsm)%built_Inv_small.
  rewrite (Inv_to_list _ _ _ _ _ HI).
  destruct (wpx_returns _ _ (wpx_insert false h sl O ps e coins HI Hsm))
    as ([[h' sl'] o] & Hins & _ & _ & [Hupd|Hfresh]).
  - destruct Hupd as (r & q & x & Hq & Hx & Hcmp & -> & _ & HI' & _ & _ & Hnum & U).
    exists h', sl', (Some x). simpl. rewrite Hins. simpl.
    do 3 (split; [done|]). exists r.
    split; [apply entries_at_lookup; by exists q|].
    rewrite (Inv_to_list _ _ _ _ _ HI').
    pose proof (inv_nodup _ _ _ _ _ HI) as [_ Hnd]%NoDup_cons.
    by apply (entries_at_upd h h' ps r q e Hnd Hq (hu_entry _ _ _ _ _ U)).
  - destruct Hfresh as (c & -> & Hc & _ & _ & HI' & _ & Hnn & Hold).
    exists h', sl', None. simpl. rewrite Hins. simpl. split; [done|].
    split.
    { unfold Len. rewrite (inv_num _ _ _ _ _ HI'), (inv_num _ _ _ _ _ HI).
      rewrite length_ins by done. lia. }
    exists c. split; [unfold entries_at; by rewrite length_fmap|].
    rewrite (Inv_to_list _ _ _ _ _ HI').
    apply entries_at_ins; [|done]. intros a Ha. apply Hold.
    by eapply Inv_fresh_addr.
Qed.

(** X21.  In every built list, in key order or not and with stale widths
    or not, [Delete(e)] returns, and it either removes one stored entry
    whose key compares equal to [e] and returns it, with [Len()] dropped
    by one and the other entries in their old order, or returns nil and
    leaves the heap, [Len()] and the level-0 traversal as they are. *)
Theorem Delete_removes_or_misses t ops h sl e :
  built t ops h sl →
  ∃ h' sl' o, Delete h sl [e] = Ret (h', sl', [o]) ∧
    match o with
    | Some x =>
        Compare x e = 0 ∧ Len sl' = Len sl - 1 ∧
        ∃ c, to_list h sl !! c = Some (Some x) ∧
             to_list h' sl' =
               take c (to_list h sl) ++ drop (S c) (to_list h sl)
    | None =>
        h' = h ∧ Len sl' = Len sl ∧ to_list h' sl' = to_list h sl
    end.
Proof.
  intros (ps & HI & Hsm)%built_Inv_small.
  rewrite (Inv_to_list _ _ _ _ _ HI).
  destruct (wpx_returns _ _ (wpx_delete false h sl O ps e HI))
    as ([[h' sl'] o] & Hdel & _ & _ & _ & Hent & [Hmiss|Hhit]).
  - destruct Hmiss as (-> & -> & HI'). exists h, sl', None. simpl.
    rewrite Hdel. simpl. do 2 (split; [done|]).
    unfold Len. rewrite (inv_num _ _ _ _ _ HI'), (inv_num _ _ _ _ _ HI).
    split; [done|]. by rewrite (Inv_to_list _ _ _ _ _ HI').
  - destruct Hhit as (c & q & x & Hq & Hx & Hcmp & -> & HI').
    exists h', sl', (Some x). simpl. rewrite Hdel. simpl.
    do 2 (split; [done|]).
    apply lookup_lt_Some in Hq as Hlt. split.
    { unfold Len. rewrite (inv_num _ _ _ _ _ HI'), (inv_num _ _ _ _ _ HI).
      rewrite length_app, length_take, length_drop. lia. }
    exists c. split; [apply entries_at_lookup; by exists q|].
    rewrite (Inv_to_list _ _ _ _ _ HI'). by apply entries_at_del.
Qed.

(** X22.  Splitting and reading by position: in a built list without
    stale widths, after [SplitAt(k)] with [k + 1 < Len()] the left list
    answers [ByPosition(p)] for [p <= k] as the original did and nil
    beyond, and the right list answers [ByPosition(p)] as the original
    answered [ByPosition(k + 1 + p)]. *)
Theorem ByPosition_after_SplitAt t ops h sl k :
  built t ops h sl → clean_widths h sl → 0 ≤ k → k + 1 < Len sl →
  ∃ h' l r, SplitAt h sl k = Ret (h', l, Some r) ∧
    (∀ p, 0 ≤ p ≤ k → ByPosition h' l p = ByPosition h sl p) ∧
    (∀ p, k < p < 2 ^ 64 → ByPosition h' l p = Ret None) ∧
    (∀ p, 0 ≤ p → k + 1 + p < 2 ^ 64 →
          ByPosition h' r p = ByPosition h sl (k + 1 + p)).
Proof.
  intros Hb Hcl Hk0 Hk.
  destruct (built_Inv_clean _ _ _ _ Hb Hcl) as (ps & HI & Hsm).
  pose proof (inv_num _ _ _ _ _ HI) as Hnum. unfold Len in *.
  assert (Hkn : (Z.to_nat (k + 1) < length ps)%nat) by lia.
  destruct (wpx_returns _ _ (wpx_splitAt true h sl O ps _ HI Hkn))
    as ([[h' l] r] & Hsp & HIl & HIr & Hl' & Hent).
  rewrite Z2Nat.id in Hsp by lia.
  exists h', l, r. unfold SplitAt. rewrite wrap64_small by lia.
  destruct (Z.leb_spec (num sl) (k + 1)); [lia|]. rewrite Hsp. simpl.
  split; [done|].
  assert (Hframe : ∀ ps', ps' ⊆ ps → entries_at h' ps' = entries_at h ps').
  { intros ps' Hsub. apply entries_at_frame. intros a Ha. apply Hent.
    eapply Inv_fresh_addr; [exact HI|]. by apply Hsub. }
  assert (Hleft : entries_at h' (take (Z.to_nat (k + 1)) ps) =
                  take (Z.to_nat (k + 1)) (entries_at h ps)).
  { rewrite Hframe by apply subseteq_take. unfold entries_at.
    by rewrite fmap_take. }
  assert (Hright : entries_at h' (drop (Z.to_nat (k + 1)) ps) =
                   drop (Z.to_nat (k + 1)) (entries_at h ps)).
  { rewrite Hframe by apply subseteq_drop. unfold entries_at.
    by rewrite fmap_drop. }
  split; [|split].
  - intros p Hp.
    rewrite (ByPosition_spec h' l O _ p HIl) by lia.
    rewrite (ByPosition_spec h sl O ps p HI) by lia.
    rewrite Hleft. by rewrite lookup_take_lt by lia.
  - intros p Hp.
    rewrite (ByPosition_spec h' l O _ p HIl) by lia.
    rewrite Hleft. by rewrite lookup_take_ge by lia.
  - intros p Hp0 Hp.
    rewrite (ByPosition_spec h' r _ _ p HIr) by lia.
    rewrite (ByPosition_spec h sl O ps (k + 1 + p) HI) by lia.
    rewrite Hright, lookup_drop. do 3 f_equal. lia.
Qed.

End AnyList.

(** * The further properties on the list 1, 3, 4, 5 *)

Lemma to_list_sorted :
  to_list sorted_heap sorted_list = [Some 1; Some 3; Some 4; Some 5].
Proof. by vm_compute. Qed.

Lemma sorted_lacks_2 x :
  Some x ∈ to_list sorted_heap sorted_list → Compare x 2 ≠ 0.
Proof.
  rewrite to_list_sorted. intros Hx.
  repeat (apply elem_of_cons in Hx as [[= ->]|Hx]; [by vm_compute|]).
  destruct (not_elem_of_nil _ Hx).
Qed.

Lemma Get_answers_are_stored_witness :
  ∃ rs, Get sorted_heap sorted_list [3; 2] = Ret rs ∧
    Forall2 (λ e r, ∀ x, r = Some x →
               Some x ∈ to_list sorted_heap sorted_list ∧ Compare x e = 0)
      [3; 2] rs.
Proof.
  apply (Get_answers_are_stored Uint8 sorted_ops). exact built_sorted.
Defined.

Lemma Get_finds_stored_keys_witness :
  ∃ rs, Get sorted_heap sorted_list [3; 2] = Ret rs ∧
    Forall2 (λ e r,
      match r with
      | Some x => Some x ∈ to_list sorted_heap sorted_list ∧ Compare x e = 0
      | None => ∀ x, Some x ∈ to_list sorted_heap sorted_list →
                     Compare x e ≠ 0
      end) [3; 2] rs.
Proof.
  apply (Get_finds_stored_keys Uint8 sorted_ops).
  - exact built_sorted.
  - exact ascending_sorted.
Defined.

Lemma GetWithPosition_lower_bound_witness :
  ∃ r, (r ≤ length (to_list sorted_heap sorted_list))%nat ∧
    (∀ j x, (j < r)%nat →
            to_list sorted_heap sorted_list !! j = Some (Some x) →
            Compare x 2 < 0) ∧
    (∀ j x, (r ≤ j)%nat →
            to_list sorted_heap sorted_list !! j = Some (Some x) →
            0 ≤ Compare x 2) ∧
    GetWithPosition sorted_heap sorted_list 2 =
      Ret (match to_list sorted_heap sorted_list !! r with
           | Some o => (o, Z.of_nat r)
           | None => (None, 0)
           end).
Proof.
  apply (GetWithPosition_lower_bound Uint8 sorted_ops).
  - exact built_sorted.
  - exact ascending_sorted.
Defined.

Lemma ByPosition_reads_rank_witness :
  ByPosition sorted_heap sorted_list 2 =
    Ret (mjoin (to_list sorted_heap sorted_list !! Z.to_nat 2)).
Proof.
  apply (ByPosition_reads_rank Uint8 sorted_ops).
  - exact built_sorted.
  - exact clean_sorted.
  - lia.
Defined.

Lemma GetWithPosition_agrees_with_ByPosition_witness :
  ∃ r, 0 ≤ r < Len sorted_list ∧
       GetWithPosition sorted_heap sorted_list 4 = Ret (Some 4, r) ∧
       ByPosition sorted_heap sorted_list r = Ret (Some 4).
Proof.
  apply (GetWithPosition_agrees_with_ByPosition Uint8 sorted_ops).
  - exact built_sorted.
  - exact clean_sorted.
  - exact ascending_sorted.
  - apply (list_elem_of_lookup_2 _ 2%nat). by vm_compute.
  - by vm_compute.
Defined.

Lemma Len_counts_chain_witness :
  Len sorted_list = Z.of_nat (length (to_list sorted_heap sorted_list)) ∧
  Forall is_Some (to_list sorted_heap sorted_list) ∧
  NoDup (nodes_of sorted_heap sorted_list).
Proof. apply (Len_counts_chain Uint8 sorted_ops). exact built_sorted. Defined.

Lemma towers_fit_level_witness :
  (level sorted_list < maxLevel sorted_list)%nat ∧
  (∃ hd, head sorted_list = Some hd ∧
         ht sorted_heap hd = maxLevel sorted_list) ∧
  length (cache sorted_list) = maxLevel sorted_list ∧
  length (posCache sorted_list) = maxLevel sorted_list ∧
  Forall (λ a, (1 ≤ ht sorted_heap a ≤ level sorted_list)%nat)
    (nodes_of sorted_heap sorted_list) ∧
  heap_ok sorted_heap.
Proof. apply (towers_fit_level Uint8 sorted_ops). exact built_sorted. Defined.

Lemma insert_only_runs_stay_clean_witness :
  ∃ h sl, run (New [] Uint8).1 (New (Entry:=Z) [] Uint8).2 unsorted_ops
            = Ret (h, sl) ∧ clean_widths h sl.
Proof.
  apply (insert_only_runs_stay_clean Uint8 unsorted_ops).
  - discriminate.
  - repeat constructor; by vm_compute.
  - repeat constructor.
  - by vm_compute.
Defined.

Lemma InsertAtPosition_inserts_at_rank_witness :
  ∃ h' sl',
    InsertAtPosition sorted_heap sorted_list 1 9 (draws 2) = Ret (h', sl') ∧
    Len sl' = Len sorted_list + 1 ∧
    to_list h' sl' =
      take (Z.to_nat (1 `min` Len sorted_list))
        (to_list sorted_heap sorted_list) ++
      Some 9 :: drop (Z.to_nat (1 `min` Len sorted_list))
                  (to_list sorted_heap sorted_list) ∧
    clean_widths h' sl'.
Proof.
  apply (InsertAtPosition_inserts_at_rank Uint8 sorted_ops).
  - exact built_sorted.
  - exact clean_sorted.
  - lia.
Defined.

Lemma ReplaceAtPosition_overwrites_rank_witness :
  ∃ h', ReplaceAtPosition sorted_heap sorted_list 1 7 = Ret h' ∧
    nodes_of h' sorted_list = nodes_of sorted_heap sorted_list ∧
    to_list h' sorted_list =
      <[Z.to_nat 1:=Some 7]> (to_list sorted_heap sorted_list).
Proof.
  apply (ReplaceAtPosition_overwrites_rank Uint8 sorted_ops).
  - exact built_sorted.
  - exact clean_sorted.
  - lia.
  - lia.
Defined.

Lemma Delete_absent_key_is_noop_witness :
  ∃ sl', Delete sorted_heap sorted_list [2] = Ret (sorted_heap, sl', [None]) ∧
    Len sl' = Len sorted_list ∧
    to_list sorted_heap sl' = to_list sorted_heap sorted_list.
Proof.
  apply (Delete_absent_key_is_noop Uint8 sorted_ops).
  - exact built_sorted.
  - exact sorted_lacks_2.
Defined.

Lemma Insert_new_key_in_order_witness :
  ∃ h' sl' c,
    Insert sorted_heap sorted_list [(2, draws 2)] = Ret (h', sl', [None]) ∧
    Len sl' = Len sorted_list + 1 ∧
    to_list h' sl' =
      take c (to_list sorted_heap sorted_list) ++
      Some 2 :: drop c (to_list sorted_heap sorted_list) ∧
    ascending (to_list h' sl').
Proof.
  apply (Insert_new_key_in_order Uint8 sorted_ops).
  - exact built_sorted.
  - exact ascending_sorted.
  - exact sorted_lacks_2.
Defined.

Lemma Get_after_Insert_witness :
  ∃ h' sl' o,
    Insert sorted_heap sorted_list [(3, draws 1)] = Ret (h', sl', [o]) ∧
    Get h' sl' [3] = Ret [Some 3].
Proof.
  apply (Get_after_Insert Uint8 sorted_ops).
  - exact built_sorted.
  - exact ascending_sorted.
  - by vm_compute.
Defined.

Lemma Delete_removes_stored_key_witness :
  ∃ h' sl', Delete sorted_heap sorted_list [4] = Ret (h', sl', [Some 4]) ∧
    Len sl' = Len sorted_list - 1 ∧
    to_list h' sl' =
      take 2 (to_list sorted_heap sorted_list) ++
      drop 3 (to_list sorted_heap sorted_list).
Proof.
  apply (Delete_removes_stored_key Uint8 sorted_ops).
  - exact built_sorted.
  - exact ascending_sorted.
  - by vm_compute.
  - by vm_compute.
Defined.

Lemma Get_after_Delete_witness :
  ∃ h' sl' o, Delete sorted_heap sorted_list [4] = Ret (h', sl', [o]) ∧
    Get h' sl' [4] = Ret [None].
Proof.
  apply (Get_after_Delete Uint8 sorted_ops).
  - exact built_sorted.
  - exact ascending_sorted.
Defined.

Lemma Delete_undoes_Insert_witness :
  ∃ h1 sl1 h2 sl2,
    Insert sorted_heap sorted_list [(2, draws 2)] = Ret (h1, sl1, [None]) ∧
    Delete h1 sl1 [2] = Ret (h2, sl2, [Some 2]) ∧
    to_list h2 sl2 = to_list sorted_heap sorted_list ∧
    Len sl2 = Len sorted_list.
Proof.
  apply (Delete_undoes_Insert Uint8 sorted_ops).
  - exact built_sorted.
  - exact ascending_sorted.
  - exact sorted_lacks_2.
  - by vm_compute.
Defined.

Lemma Iter_starts_at_lower_bound_witness :
  ∃ r, (∀ j x, (j < r)%nat →
               to_list sorted_heap sorted_list !! j = Some (Some x) →
               Compare x 2 < 0) ∧
       (∀ j x, (r ≤ j)%nat →
               to_list sorted_heap sorted_list !! j = Some (Some x) →
               0 ≤ Compare x 2) ∧
       Iter sorted_heap sorted_list 2 =
         Ret (match nodes_of sorted_heap sorted_list !! r with
              | Some q => MkIterator true (Some q)
              | None => NilIterator
              end).
Proof.
  apply (Iter_starts_at_lower_bound Uint8 sorted_ops).
  - exact built_sorted.
  - exact ascending_sorted.
Defined.

Lemma generateLevel_counts_low_draws_witness :
  (1 ≤ generateLevel 8 (draws 3) ≤ 8 - 1)%nat ∧
  (∀ k, (k < generateLevel 8 (draws 3) - 1)%nat → draws 3 k = false) ∧
  ((generateLevel 8 (draws 3) < 8 - 1)%nat →
   draws 3 (generateLevel 8 (draws 3) - 1)%nat = true).
Proof. apply (generateLevel_counts_low_draws 8 (draws 3)). lia. Defined.

Lemma Insert_overwrites_or_adds_witness :
  ∃ h' sl' o,
    Insert sorted_heap sorted_list [(3, draws 1)] = Ret (h', sl', [o]) ∧
    match o with
    | Some x =>
        Compare x 3 = 0 ∧ Len sl' = Len sorted_list ∧
        ∃ r, to_list sorted_heap sorted_list !! r = Some (Some x) ∧
             to_list h' sl' = <[r:=Some 3]> (to_list sorted_heap sorted_list)
    | None =>
        Len sl' = Len sorted_list + 1 ∧
        ∃ c, (c ≤ length (to_list sorted_heap sorted_list))%nat ∧
             to_list h' sl' =
               take c (to_list sorted_heap sorted_list) ++
               Some 3 :: drop c (to_list sorted_heap sorted_list)
    end.
Proof.
  apply (Insert_overwrites_or_adds Uint8 sorted_ops). exact built_sorted.
Defined.

Lemma Delete_removes_or_misses_witness :
  ∃ h' sl' o, Delete sorted_heap sorted_list [3] = Ret (h', sl', [o]) ∧
    match o with
    | Some x =>
        Compare x 3 = 0 ∧ Len sl' = Len sorted_list - 1 ∧
        ∃ c, to_list sorted_heap sorted_list !! c = Some (Some x) ∧
             to_list h' sl' =
               take c (to_list sorted_heap sorted_list) ++
               drop (S c) (to_list sorted_heap sorted_list)
    | None =>
        h' = sorted_heap ∧ Len sl' = Len sorted_list ∧
        to_list h' sl' = to_list sorted_heap sorted_list
    end.
Proof.
  apply (Delete_removes_or_misses Uint8 sorted_ops). exact built_sorted.
Defined.

Lemma ByPosition_after_SplitAt_witness :
  ∃ h' l r, SplitAt sorted_heap sorted_list 1 = Ret (h', l, Some r) ∧
    (∀ p, 0 ≤ p ≤ 1 →
          ByPosition h' l p = ByPosition sorted_heap sorted_list p) ∧
    (∀ p, 1 < p < 2 ^ 64 → ByPosition h' l p = Ret None) ∧
    (∀ p, 0 ≤ p → 1 + 1 + p < 2 ^ 64 →
          ByPosition h' r p = ByPosition sorted_heap sorted_list (1 + 1 + p)).
Proof.
  apply (ByPosition_after_SplitAt Uint8 sorted_ops).
  - exact built_sorted.
  - exact clean_sorted.
  - lia.
  - by vm_compute.
Defined.
